(** * Sigma-protocol proofs of knowledge: discrete-logarithm representations,
      And-composition and power-of-two range proofs.

    A shallow embedding of [compiler/DLRep.py], [And_proof.py] and
    [zkbuilder/primitives/rangeproof.py].  Python objects are records, the
    exceptions a method can raise are values of [Exn], the random draws of
    [Bn.random] are read from a tape that is threaded through the calls, and
    the elliptic-curve library is an interface with the laws of groups of
    order [q]. *)

From Stdlib Require Import ZArith Lia.
From stdpp Require Import base tactics option list gmap strings.

Local Open Scope string_scope.
Local Open Scope Z_scope.

(** ** The elliptic-curve library *)

(** What the code uses of [petlib.ec]: a point carries its group, a group has
    an order and a point at infinity, points are added and are multiplied by
    integers; groups and points can be compared. *)
Class PetLib := {
  EcGroup : Type;
  EcPt : Type;
  EcGroup_eq_dec :: EqDecision EcGroup;
  EcPt_eq_dec :: EqDecision EcPt;
  group : EcPt → EcGroup;
  order : EcGroup → Z;
  infinite : EcGroup → EcPt;
  pt_add : EcPt → EcPt → EcPt;
  pt_mul : Z → EcPt → EcPt;
}.

(** Each group is an abelian group on which multiplying by the order gives
    the point at infinity. The laws speak about points of one group only. *)
Class PetLibLaws `{PetLib} : Prop := {
  order_pos g : 0 < order g;
  group_infinite g : group (infinite g) = g;
  group_add P Q : group P = group Q → group (pt_add P Q) = group P;
  group_mul k P : group (pt_mul k P) = group P;
  add_comm P Q : group P = group Q → pt_add P Q = pt_add Q P;
  add_assoc P Q R :
    group P = group Q → group Q = group R →
    pt_add P (pt_add Q R) = pt_add (pt_add P Q) R;
  add_infinite_l P : pt_add (infinite (group P)) P = P;
  mul_add_l j k P : pt_mul (j + k) P = pt_add (pt_mul j P) (pt_mul k P);
  mul_add_r k P Q :
    group P = group Q → pt_mul k (pt_add P Q) = pt_add (pt_mul k P) (pt_mul k Q);
  mul_mul j k P : pt_mul j (pt_mul k P) = pt_mul (j * k) P;
  mul_1 P : pt_mul 1 P = P;
  mul_order P : pt_mul (order (group P)) P = infinite (group P);
}.

(** ** Exceptions and results *)

Section Results.
Context `{PetLib}.

Inductive ExnArg :=
| AStr (s : string)
| AGroup (g : EcGroup).

Inductive Exn :=
| Exception (msg : string) (args : list ExnArg)
| KeyError (key : string)
| IndexError
| NameError (name : string)
| AttributeError (attr : string)
| TypeError
| OverflowError
| EcException.

Inductive Result (A : Type) :=
| Ok (a : A)
| Raise (e : Exn).
End Results.

Arguments Ok {_ _} a.
Arguments Raise {_ _} e.

Global Instance Result_ret `{PetLib} : MRet Result := λ _ a, Ok a.
Global Instance Result_bind `{PetLib} : MBind Result :=
  λ _ _ f r, match r with Ok a => f a | Raise e => Raise e end.
Global Instance Result_fmap `{PetLib} : FMap Result :=
  λ _ _ f r, match r with Ok a => Ok (f a) | Raise e => Raise e end.

(** The outcomes of the successive random draws of one run. *)
Definition Tape := nat → Z.

Definition M `{PetLib} (A : Type) : Type := Tape → Result (A * Tape).

Global Instance M_ret `{PetLib} : MRet M := λ _ a t, Ok (a, t).
Global Instance M_bind `{PetLib} : MBind M :=
  λ _ _ f m t, match m t with Ok (a, t') => f a t' | Raise e => Raise e end.

Definition lift `{PetLib} {A} (r : Result A) : M A :=
  λ t, match r with Ok a => Ok (a, t) | Raise e => Raise e end.

(** [bound.random()]: a number in [0, bound), here the next value of the tape
    reduced into that interval. *)
Definition random `{PetLib} (bound : Z) : M Z :=
  λ t, Ok (t 0%nat mod bound, λ n, t (S n)).

Section Python.
Context `{PetLib}.

(** [l[i]] for an index that is not negative. *)
Definition py_index {A} (l : list A) (i : nat) : Result A :=
  match l !! i with Some a => Ok a | None => Raise IndexError end.

(** [d[key]] *)
Definition dict_get (d : gmap string Z) (key : string) : Result Z :=
  match d !! key with Some v => Ok v | None => Raise (KeyError key) end.

(** [obj.attr] for an attribute that is set by a method call. *)
Definition getattr {A} (attr : string) (o : option A) : Result A :=
  match o with Some a => Ok a | None => Raise (AttributeError attr) end.

(** [P + Q] on points: the library refuses points of two groups. *)
Definition ec_add (P Q : EcPt) : Result EcPt :=
  if decide (group P = group Q) then Ok (pt_add P Q) else Raise EcException.

(** [P == Q] on points. *)
Definition ec_eq (P Q : EcPt) : Result bool :=
  if decide (group P = group Q) then Ok (bool_decide (P = Q))
  else Raise EcException.

(** [for el in l: acc = acc + el] *)
Fixpoint sum_points (acc : EcPt) (l : list EcPt) : Result EcPt :=
  match l with
  | [] => Ok acc
  | el :: l' => acc' ← ec_add acc el; sum_points acc' l'
  end.

(** [x.mod_mul(y, m)], [x.mod_add(y, m)] and [x.mod_sub(y, m)] of [Bn]. *)
Definition mod_mul (x y m : Z) : Z := (x * y) mod m.
Definition mod_add (x y m : Z) : Z := (x + y) mod m.
Definition mod_sub (x y m : Z) : Z := (x - y) mod m.
End Python.

(** ** The interface of provers and verifiers *)

Module SigmaProtocol.
(** The methods that the composed provers and verifiers call on their
    children. A method that changes its object returns the changed object
    next to its result. *)
Class Prover `{PetLib} (P C R : Type) := {
  get_randomizers : P → M (gmap string Z);
  commit : P → option (gmap string Z) → M (C * P);
  compute_response : P → Z → Result R;
}.

Class Verifier `{PetLib} (V C R : Type) := {
  send_challenge : V → C → M (Z * V);
  verify : V → R → option C → option Z → Result bool;
}.

(** Modelled from the spec: [chal_128bits] of SigmaProtocol.py, which is not
    among the sources: a uniformly random 128-bit scalar. *)
Definition chal_128bits `{PetLib} : M Z := random (2 ^ 128).
End SigmaProtocol.

(** ** compiler/DLRep.py *)

Section DLRepClasses.
Context `{PetLib}.

(** The attributes [group_order] and [ks] exist only once [commit] has
    run. *)
Record DLRepProver := mkDLRepProver {
  prover_generators : list EcPt;
  prover_secret_names : list string;
  secret_values : gmap string Z;
  prover_lhs : EcPt;
  prover_set_simulate : bool;
  group_order : option Z;
  ks : option (list Z);
}.

(** The attributes [commitment] and [challenge] exist only once
    [send_challenge] has run. *)
Record DLRepVerifier := mkDLRepVerifier {
  verifier_generators : list EcPt;
  verifier_secret_names : list string;
  verifier_lhs : EcPt;
  verifier_commitment : option EcPt;
  verifier_challenge : option Z;
}.

Record DLRepProof := mkDLRepProof {
  proof_generators : list EcPt;
  proof_secret_names : list string;
  proof_lhs : EcPt;
  simulate : bool;
}.

(** The three classes have the attributes [generators], [secret_names] and
    [lhs]; [recompute_commitment] is called on all of them. *)
Class DLRepLike (A : Type) := {
  generators : A → list EcPt;
  secret_names : A → list string;
  lhs : A → EcPt;
}.

Global Instance DLRepProver_like : DLRepLike DLRepProver :=
  {| generators := prover_generators;
     secret_names := prover_secret_names;
     lhs := prover_lhs |}.
Global Instance DLRepVerifier_like : DLRepLike DLRepVerifier :=
  {| generators := verifier_generators;
     secret_names := verifier_secret_names;
     lhs := verifier_lhs |}.
Global Instance DLRepProof_like : DLRepLike DLRepProof :=
  {| generators := proof_generators;
     secret_names := proof_secret_names;
     lhs := proof_lhs |}.

(** [DLRepProver.__init__] *)
Definition DLRepProver_init (generators : list EcPt) (secret_names : list string)
    (secret_values : gmap string Z) (lhs : EcPt) : DLRepProver :=
  {| prover_generators := generators;
     prover_secret_names := secret_names;
     secret_values := secret_values;
     prover_lhs := lhs;
     prover_set_simulate := false;
     group_order := None;
     ks := None |}.

(** [DLRepVerifier.__init__] *)
Definition DLRepVerifier_init (generators : list EcPt) (secret_names : list string)
    (lhs : EcPt) : DLRepVerifier :=
  {| verifier_generators := generators;
     verifier_secret_names := secret_names;
     verifier_lhs := lhs;
     verifier_commitment := None;
     verifier_challenge := None |}.

(** [raise_powers(tab_g, response)] *)
Definition raise_powers (tab_g : list EcPt) (response : list Z) : Result EcPt :=
  let left_arr := zip_with pt_mul response tab_g in
  g0 ← py_index tab_g 0;
  sum_points (infinite (group g0)) left_arr.

(** A secret of an expression, and the [RightSide] that
    [DLRepProof.__init__] takes apart: its points and its secrets. *)
Record Secret := mkSecret { name : string; value : option Z }.
Record RightSide := mkRightSide { pts : list EcPt; secrets : list Secret }.

(** What a call can hand back where the code returns either kind. *)
Inductive Party :=
| IsProver (p : DLRepProver)
| IsVerifier (v : DLRepVerifier).
End DLRepClasses.

Module DLRepProof.
Section Methods.
Context `{PetLib}.

(** The loop of [initialize] over the generators. *)
Fixpoint initialize_loop (test_group : EcGroup) (gens : list EcPt) : Result unit :=
  match gens with
  | [] => Ok ()
  | g :: gens' =>
      if decide (group g ≠ test_group) then
        Raise (Exception "All generators should come from the same group"
                 [AGroup (group g)])
      else initialize_loop test_group gens'
  end.

(** [DLRepProof.initialize]. Both arguments are lists by their type, so the
    two [isinstance] tests pass. *)
Definition initialize (generators : list EcPt) (secret_names : list string)
    (lhs : EcPt) : Result DLRepProof :=
  if decide (length generators = 0%nat) then
    Raise (Exception "A list of generators must be of length at least one." [])
  else if decide (length secret_names ≠ length generators) then
    Raise (Exception "secret_names and generators must be of the same length" [])
  else
    g0 ← py_index generators 0;
    let test_group := group g0 in
    _ ← initialize_loop test_group generators;
    Ok {| proof_generators := generators;
          proof_secret_names := secret_names;
          proof_lhs := lhs;
          simulate := false |}.

(** [DLRepProof.__init__], for a [rightSide] that is a [RightSide]. *)
Definition init (lhs : EcPt) (rightSide : RightSide) : Result DLRepProof :=
  initialize (pts rightSide) (name <$> secrets rightSide) lhs.

(** [DLRepProof.get_verifier] *)
Definition get_verifier (self : DLRepProof) : DLRepVerifier :=
  DLRepVerifier_init (generators self) (secret_names self) (lhs self).

(** [DLRepProof.get_simulator] *)
Definition get_simulator (self : DLRepProof) : DLRepProver :=
  DLRepProver_init (generators self) (secret_names self) ∅ (lhs self).

(** [DLRepProof.set_simulate] *)
Definition set_simulate (self : DLRepProof) : DLRepProof :=
  mkDLRepProof (proof_generators self) (proof_secret_names self) (proof_lhs self) true.

(** [get_prover] calls the bare name [get_verifier], which Python looks up
    in the module and not in the class. The module defines no such name;
    only the names that [from SigmaProtocol import *] brings in, which are
    not among the sources, could bind it. [module_get_verifier] is that
    binding: [None] when the name is unbound, else what calling it with no
    argument gives. *)
Definition call_get_verifier (module_get_verifier : option (Result Party))
    : Result Party :=
  match module_get_verifier with
  | None => Raise (NameError "get_verifier")
  | Some r => r
  end.

(** [DLRepProof.get_prover]. Scalars are integers here, so the final loop
    that casts the values that are not [Bn] leaves the dictionary as it
    is. *)
Definition get_prover (module_get_verifier : option (Result Party))
    (self : DLRepProof) (secrets_dict : gmap string Z) : Result Party :=
  if decide (simulate self = true ∨ secrets_dict = ∅) then
    call_get_verifier module_get_verifier
  else if decide (size (list_to_set (C := gset string) (secret_names self))
                  ≠ size secrets_dict) then
    Raise (Exception "We expect as many secrets as different aliases" [])
  else
    let secret_names_set : gset string := list_to_set (secret_names self) in
    let secrets_keys : gset string := dom secrets_dict in
    let diff1 := secrets_keys ∖ secret_names_set in
    let diff2 := secret_names_set ∖ secrets_keys in
    if decide (0 < size diff1 ∨ 0 < size diff2)%nat then
      Raise (Exception "secrets do not match: those secrets should be checked"
               (AStr <$> (elements diff1 ++ elements diff2)%list))
    else
      Ok (IsProver (DLRepProver_init (generators self) (secret_names self)
                      secrets_dict (lhs self))).

(** [DLRepProof.recompute_commitment], on any object that has
    [generators] and [lhs]. *)
Definition recompute_commitment {A} `{!DLRepLike A} (self : A) (challenge : Z)
    (responses : list Z) : Result EcPt :=
  let y := lhs self in
  powers ← raise_powers (generators self) responses;
  ec_add powers (pt_mul (- challenge) y).
End Methods.
End DLRepProof.

Module DLRepProver.
Section Methods.
Context `{PetLib}.

(** The loop of [get_randomizers], at index [idx] of the enumeration. *)
Fixpoint get_randomizers_loop (gens : list EcPt) (idx : nat)
    (names : list string) (output : gmap string Z) : M (gmap string Z) :=
  match names with
  | [] => mret output
  | sec :: names' =>
      g ← lift (py_index gens idx);
      to_append ← random (order (group g));
      get_randomizers_loop gens (S idx) names' (<[sec := to_append]> output)
  end.

(** [DLRepProver.get_randomizers] *)
Definition get_randomizers (self : DLRepProver) : M (gmap string Z) :=
  get_randomizers_loop (generators self) 0 (secret_names self) ∅.

(** [DLRepProver.commit]; the prover comes back with [group_order] and
    [ks] set. *)
Definition commit (self : DLRepProver) (randomizers_dict : option (gmap string Z))
    : M (EcPt * DLRepProver) :=
  if decide (secret_values self = ∅) then
    lift (Raise (Exception
      "Trying to do a legit proof without the secrets. Can only simulate" []))
  else
    let tab_g := generators self in
    g0 ← lift (py_index tab_g 0);
    let G := group g0 in
    let self1 := mkDLRepProver (prover_generators self) (prover_secret_names self)
                   (secret_values self) (prover_lhs self)
                   (prover_set_simulate self) (Some (order G)) (ks self) in
    secret_to_random_value ←
      match randomizers_dict with
      | None => get_randomizers self1
      | Some d => mret d
      end;
    ks1 ← lift (mapM (dict_get secret_to_random_value) (secret_names self1));
    let self2 := mkDLRepProver (prover_generators self1) (prover_secret_names self1)
                   (secret_values self1) (prover_lhs self1)
                   (prover_set_simulate self1) (group_order self1) (Some ks1) in
    let commits := zip_with pt_mul ks1 tab_g in
    sum_ ← lift (sum_points (infinite G) commits);
    mret (sum_, self2).

(** [DLRepProver.compute_response] *)
Definition compute_response (self : DLRepProver) (challenge : Z) : Result (list Z) :=
  ks0 ← getattr "ks" (ks self);
  mapM (λ i,
          name ← py_index (secret_names self) i;
          x ← dict_get (secret_values self) name;
          q ← getattr "group_order" (group_order self);
          k ← py_index ks0 i;
          mret (mod_add (mod_mul x challenge q) k q))
       (seq 0 (length ks0)).

(** [DLRepProver.simulate_proof]. The assignment to
    [self.recompute_commitment] only binds the function that is called two
    lines later. *)
Definition simulate_proof (self : DLRepProver)
    (responses_dict : option (gmap string Z)) (challenge : option Z)
    : M (EcPt * Z * list Z) :=
  responses_dict1 ←
    match responses_dict with
    | None => get_randomizers self
    | Some d => mret d
    end;
  challenge1 ←
    match challenge with
    | None => SigmaProtocol.chal_128bits
    | Some c => mret c
    end;
  response ← lift (mapM (dict_get responses_dict1) (secret_names self));
  commitment ← lift (DLRepProof.recompute_commitment self challenge1 response);
  mret (commitment, challenge1, response).

Global Instance DLRepProver_Prover : SigmaProtocol.Prover DLRepProver EcPt (list Z) :=
  {| SigmaProtocol.get_randomizers := get_randomizers;
     SigmaProtocol.commit := commit;
     SigmaProtocol.compute_response := compute_response |}.
End Methods.
End DLRepProver.

Module DLRepVerifier.
Section Methods.
Context `{PetLib}.

(** Modelled from the spec: [Verifier.send_challenge] of SigmaProtocol.py,
    which [DLRepVerifier] inherits and which is not among the sources: it
    picks a uniformly random 128-bit scalar, reduced modulo the order, and
    stores it, with the commitment it answers. The order is that of the
    group of the statement's first generator, where [DLRepProver.commit]
    takes it from too. *)
Definition send_challenge (self : DLRepVerifier) (commitment : EcPt)
    : M (Z * DLRepVerifier) :=
  g0 ← lift (py_index (generators self) 0);
  draw ← SigmaProtocol.chal_128bits;
  let challenge := draw mod order (group g0) in
  mret (challenge,
        mkDLRepVerifier (verifier_generators self) (verifier_secret_names self)
          (verifier_lhs self) (Some commitment) (Some challenge)).

(** Modelled from the spec: [Verifier.verify] of SigmaProtocol.py, which is
    not among the sources:
    [recompute_commitment(challenge, responses) == commitment], on the
    stored commitment and challenge where none is passed. *)
Definition verify (self : DLRepVerifier) (response : list Z)
    (commitment : option EcPt) (challenge : option Z) : Result bool :=
  commitment1 ←
    match commitment with
    | None => getattr "commitment" (verifier_commitment self)
    | Some c => Ok c
    end;
  challenge1 ←
    match challenge with
    | None => getattr "challenge" (verifier_challenge self)
    | Some c => Ok c
    end;
  recomputed ← DLRepProof.recompute_commitment self challenge1 response;
  ec_eq commitment1 recomputed.

Global Instance DLRepVerifier_Verifier
    : SigmaProtocol.Verifier DLRepVerifier EcPt (list Z) :=
  {| SigmaProtocol.send_challenge := send_challenge;
     SigmaProtocol.verify := verify |}.
End Methods.
End DLRepVerifier.

(** ** And_proof.py *)

Record AndProofCommitment (C1 C2 : Type) := mkAndProofCommitment {
  commitment1 : C1;
  commitment2 : C2;
}.
Arguments mkAndProofCommitment {_ _} _ _.
Arguments commitment1 {_ _} _.
Arguments commitment2 {_ _} _.

Record AndProofResponse (R1 R2 : Type) := mkAndProofResponse {
  response1 : R1;
  response2 : R2;
}.
Arguments mkAndProofResponse {_ _} _ _.
Arguments response1 {_ _} _.
Arguments response2 {_ _} _.

Module AndProofProver.
Section Methods.
Context `{PetLib}.
Context {P1 C1 R1 P2 C2 R2 : Type}.
Context `{!SigmaProtocol.Prover P1 C1 R1, !SigmaProtocol.Prover P2 C2 R2}.

Record t := mk { prover1 : P1; prover2 : P2 }.

(** [AndProofProver.get_randomizers]: [update] lets the second child's
    values win on the names that both children have. *)
Definition get_randomizers (self : t) : M (gmap string Z) :=
  random_vals ← SigmaProtocol.get_randomizers (prover1 self);
  other ← SigmaProtocol.get_randomizers (prover2 self);
  mret (other ∪ random_vals).

(** [AndProofProver.commit]; the children come back as their own [commit]
    leaves them. *)
Definition commit (self : t) (randomizers_dict : option (gmap string Z))
    : M (AndProofCommitment C1 C2 * t) :=
  randomizers_dict1 ←
    match randomizers_dict with
    | None => get_randomizers self
    | Some d => mret d
    end;
  '(c1, p1) ← SigmaProtocol.commit (prover1 self) (Some randomizers_dict1);
  '(c2, p2) ← SigmaProtocol.commit (prover2 self) (Some randomizers_dict1);
  mret (mkAndProofCommitment c1 c2, mk p1 p2).

(** [AndProofProver.compute_response] *)
Definition compute_response (self : t) (challenge : Z)
    : Result (AndProofResponse R1 R2) :=
  r1 ← SigmaProtocol.compute_response (prover1 self) challenge;
  r2 ← SigmaProtocol.compute_response (prover2 self) challenge;
  mret (mkAndProofResponse r1 r2).

Global Instance AndProofProver_Prover
    : SigmaProtocol.Prover t (AndProofCommitment C1 C2) (AndProofResponse R1 R2) :=
  {| SigmaProtocol.get_randomizers := get_randomizers;
     SigmaProtocol.commit := commit;
     SigmaProtocol.compute_response := compute_response |}.
End Methods.
Arguments t : clear implicits.
Arguments mk {_ _} _ _.
End AndProofProver.

Module AndProofVerifier.
Section Methods.
Context `{PetLib}.
Context {V1 C1 R1 V2 C2 R2 : Type}.
Context `{!SigmaProtocol.Verifier V1 C1 R1, !SigmaProtocol.Verifier V2 C2 R2}.

(** The attributes [commitment] and [and_challenge] exist only once
    [send_challenge] has run. *)
Record t := mk {
  verifier1 : V1;
  verifier2 : V2;
  commitment : option (AndProofCommitment C1 C2);
  and_challenge : option Z;
}.

(** [AndProofVerifier.__init__] *)
Definition init (verifier1 : V1) (verifier2 : V2) : t :=
  mk verifier1 verifier2 None None.

(** [AndProofVerifier.send_challenge] *)
Definition send_challenge (self : t) (commitment : AndProofCommitment C1 C2)
    : M (Z * t) :=
  '(and_challenge, v1) ←
    SigmaProtocol.send_challenge (verifier1 self) (commitment1 commitment);
  mret (and_challenge,
        mk v1 (verifier2 self) (Some commitment) (Some and_challenge)).

(** [AndProofVerifier.verify], with [commitment0] and [challenge0] for the
    two optional arguments; [and] calls the second child only when the
    first one has accepted. *)
Definition verify (self : t) (responses : AndProofResponse R1 R2)
    (commitment0 : option (AndProofCommitment C1 C2)) (challenge0 : option Z)
    : Result bool :=
  challenge ←
    match challenge0 with
    | None => getattr "and_challenge" (and_challenge self)
    | Some c => Ok c
    end;
  commitment ←
    match commitment0 with
    | None => getattr "commitment" (commitment self)
    | Some c => Ok c
    end;
  b1 ← SigmaProtocol.verify (verifier1 self) (response1 responses)
         (Some (commitment1 commitment)) (Some challenge);
  if b1 : bool then
    SigmaProtocol.verify (verifier2 self) (response2 responses)
      (Some (commitment2 commitment)) (Some challenge)
  else Ok false.

Global Instance AndProofVerifier_Verifier
    : SigmaProtocol.Verifier t (AndProofCommitment C1 C2) (AndProofResponse R1 R2) :=
  {| SigmaProtocol.send_challenge := send_challenge;
     SigmaProtocol.verify := verify |}.
End Methods.
Arguments t : clear implicits.
End AndProofVerifier.

Section CheckGroups.
Context `{PetLib}.

(** [mydict[word].append(idx)] on a [defaultdict(list)], whose keys stay in
    the order in which they were first used. *)
Fixpoint mydict_append (mydict : list (string * list nat)) (word : string)
    (idx : nat) : list (string * list nat) :=
  match mydict with
  | [] => [(word, [idx])]
  | (w, gen_idx) :: rest =>
      if decide (w = word) then (w, (gen_idx ++ [idx])%list) :: rest
      else (w, gen_idx) :: mydict_append rest word idx
  end.

(** The first loop of [check_groups], at index [idx] of the enumeration. *)
Fixpoint build_mydict (idx : nat) (list_of_secret_names : list string)
    (mydict : list (string * list nat)) : list (string * list nat) :=
  match list_of_secret_names with
  | [] => mydict
  | word :: rest => build_mydict (S idx) rest (mydict_append mydict word idx)
  end.

(** The inner loop: every generator of [word] against [ref_group]. *)
Fixpoint check_indices (list_of_generators : list EcPt) (word : string)
    (ref_group : EcGroup) (gen_idx : list nat) : Result unit :=
  match gen_idx with
  | [] => Ok ()
  | index :: rest =>
      g ← py_index list_of_generators index;
      if decide (group g ≠ ref_group) then
        Raise (Exception
                 "A shared secret has generators from different groups : secret"
                 [AStr word])
      else check_indices list_of_generators word ref_group rest
  end.

(** The outer loop over the items of [mydict]. *)
Fixpoint check_items (list_of_generators : list EcPt)
    (items : list (string * list nat)) : Result unit :=
  match items with
  | [] => Ok ()
  | (word, gen_idx) :: rest =>
      first ← py_index gen_idx 0;
      ref ← py_index list_of_generators first;
      _ ← check_indices list_of_generators word (group ref) gen_idx;
      check_items list_of_generators rest
  end.

(** [check_groups(list_of_secret_names, list_of_generators)] *)
Definition check_groups (list_of_secret_names : list string)
    (list_of_generators : list EcPt) : Result bool :=
  let mydict := build_mydict 0 list_of_secret_names [] in
  _ ← check_items list_of_generators mydict;
  Ok true.

(** What [AndProof] reads of a child statement: the attribute
    [group_generators] and the list that [get_secret_names()] returns. *)
Class Statement (A : Type) := {
  group_generators : A → list EcPt;
  get_secret_names : A → list string;
}.
End CheckGroups.

Module AndProof.
Section Methods.
Context `{PetLib}.
Context {S1 S2 : Type} `{!Statement S1, !Statement S2}.

Record t := mk {
  proof1 : S1;
  proof2 : S2;
  and_group_generators : list EcPt;
  secret_names : list string;
}.

(** [AndProof.get_secret_names], as a function of the two children.
    [extend] appends the second child's names to the very list that the
    first child returns; the lists here are the ones the children return at
    the time of the call. *)
Definition get_secret_names_of (proof1 : S1) (proof2 : S2) : list string :=
  (get_secret_names proof1 ++ get_secret_names proof2)%list.

(** [AndProof.get_generators], as a function of the two children. *)
Definition get_generators_of (proof1 : S1) (proof2 : S2) : list EcPt :=
  (group_generators proof1 ++ group_generators proof2)%list.

(** [AndProof.__init__] *)
Definition init (proof1 : S1) (proof2 : S2) : Result t :=
  let group_generators := get_generators_of proof1 proof2 in
  let secret_names := get_secret_names_of proof1 proof2 in
  _ ← check_groups secret_names group_generators;
  Ok (mk proof1 proof2 group_generators secret_names).

Global Instance AndProof_Statement : Statement t :=
  {| group_generators := and_group_generators;
     get_secret_names self :=
       get_secret_names_of (proof1 self) (proof2 self) |}.
End Methods.
Arguments t : clear implicits.
End AndProof.

(** A child for the examples. Among the sources only [AndProof] itself has
    what [AndProof] reads of its children: [DLRepProof] of compiler/DLRep.py
    has [generators] and [secret_names] and neither [group_generators] nor
    [get_secret_names()], so that it cannot be a child. [Leaf] is an object
    with the attribute [group_generators] and a method [get_secret_names()]
    that returns a new list of its names. *)
Section LeafStatement.
Context `{PetLib}.

Record Leaf := mkLeaf {
  leaf_generators : list EcPt;
  leaf_secret_names : list string;
}.

Global Instance Leaf_Statement : Statement Leaf :=
  {| group_generators := leaf_generators;
     get_secret_names := leaf_secret_names |}.
End LeafStatement.

(** ** zkbuilder/primitives/rangeproof.py *)

(** [Bn.num_bits] and [Bn.is_bit_set] read the magnitude of the number. *)
Definition num_bits (v : Z) : Z :=
  if decide (v = 0) then 0 else Z.log2 (Z.abs v) + 1.

Definition is_bit_set (v : Z) (b : Z) : bool := Z.testbit (Z.abs v) b.

(** [range(n)] for an integer [n], as integers. *)
Definition py_range (n : Z) : list Z := Z.of_nat <$> seq 0 (Z.to_nat n).

Section RangeProof.
Context `{PetLib}.

(** [decompose_into_n_bits(value, n)] *)
Definition decompose_into_n_bits (value : Z) (n : Z) : Result (list Z) :=
  let base := (λ b, if is_bit_set value b then 1 else 0) <$> py_range (num_bits value) in
  let extra_bits := n - Z.of_nat (length base) in
  if decide (extra_bits < 0) then
    Raise (Exception "Not enough bits to represent value" [])
  else Ok (base ++ replicate (Z.to_nat extra_bits) 0)%list.

(** [l[i]] and [l[:i]] for an integer [i], which counts from the end when it
    is negative. *)
Definition py_index_int {A} (l : list A) (i : Z) : Result A :=
  if decide (0 ≤ i) then py_index l (Z.to_nat i)
  else if decide (0 ≤ Z.of_nat (length l) + i) then
    py_index l (Z.to_nat (Z.of_nat (length l) + i))
  else Raise IndexError.

Definition py_slice_to {A} (l : list A) (i : Z) : list A :=
  if decide (0 ≤ i) then take (Z.to_nat i) l
  else take (Z.to_nat (Z.of_nat (length l) + i)) l.

(** An entry of a precommitment: the bit commitments are points and the
    last entry is a number. *)
Inductive PreItem :=
| PPoint (P : EcPt)
| PScalar (z : Z).

(** An entry used as a point. With a number in a point's place
    [power * c] is a number, and adding it to the point [combined] raises
    the library's exception. *)
Definition as_point (x : PreItem) : Result EcPt :=
  match x with PPoint P => Ok P | PScalar _ => Raise EcException end.

Definition as_scalar (x : PreItem) : Result Z :=
  match x with PScalar z => Ok z | PPoint _ => Raise TypeError end.

(** The attributes [secret_vars] and [precommitment] exist only on the
    prover's side and once a precommitment has been processed. The
    attributes [constructed_proof], [simulation], [ProverClass] and
    [VerifierClass] are read by none of the methods below. *)
Record PowerTwoRangeProof := mkPowerTwoRangeProof {
  secret_vars : option (list Secret);
  is_prover : bool;
  range_generators : list EcPt;
  com : EcPt;
  g : EcPt;
  h : EcPt;
  nr_bits : Z;
  randomizers : list Secret;
  precommitment : option (list PreItem);
}.
End RangeProof.

Module PowerTwoRangeProof.
Section Methods.
Context `{PetLib}.

(** [PowerTwoRangeProof.__init__]; [fresh_name i] is the name that the
    [i]-th [Secret()] makes up for itself. *)
Definition init (fresh_name : nat → string) (com g h : EcPt) (nr_bits : Z)
    (value randomizer : Secret) : PowerTwoRangeProof :=
  let is_prover :=
    match value, randomizer with
    | mkSecret _ (Some _), mkSecret _ (Some _) => true
    | _, _ => false
    end in
  mkPowerTwoRangeProof
    (if is_prover then Some [value; randomizer] else None)
    is_prover
    [g; h]
    com g h nr_bits
    ((λ i, mkSecret (fresh_name i) None) <$> seq 0 (Z.to_nat nr_bits))
    None.

(** The first statement of [build_constructed_proof]:
    [self.precommitment = precommitment]. The rest of that method builds
    the constructed proof out of classes that are not among the sources. *)
Definition store_precommitment (self : PowerTwoRangeProof)
    (precommitment : list PreItem) : PowerTwoRangeProof :=
  mkPowerTwoRangeProof (secret_vars self) (is_prover self) (range_generators self)
    (com self) (g self) (h self) (nr_bits self) (randomizers self)
    (Some precommitment).

(** The loop of [check_adequate_lhs]. *)
Fixpoint combine_loop (combined : EcPt) (power : Z) (cs : list PreItem)
    : Result EcPt :=
  match cs with
  | [] => Ok combined
  | c :: cs' =>
      P ← as_point c;
      combined' ← ec_add combined (pt_mul power P);
      combine_loop combined' (power * 2) cs'
  end.

(** [PowerTwoRangeProof.check_adequate_lhs] *)
Definition check_adequate_lhs (self : PowerTwoRangeProof) : Result bool :=
  pre ← getattr "precommitment" (precommitment self);
  rand_item ← py_index_int pre (nr_bits self);
  combined ← combine_loop (infinite (group (g self))) 1
                (py_slice_to pre (nr_bits self));
  rand ← as_scalar rand_item;
  rhs ← ec_add (com self) (pt_mul rand (h self));
  ec_eq combined rhs.
End Methods.
End PowerTwoRangeProof.

Module PowerTwoRangeProver.
Section Methods.
Context `{PetLib}.

Record t := mk { proof : PowerTwoRangeProof }.

(** [secret.value] used as a number. *)
Definition value_of (s : Secret) : Result Z :=
  match value s with Some v => Ok v | None => Raise TypeError end.

(** [for rand in self.proof.randomizers: rand.value = order.random()] *)
Fixpoint draw_randomizers (order : Z) (rs : list Secret) : M (list Secret) :=
  match rs with
  | [] => mret []
  | rand :: rs' =>
      v ← random order;
      rs'' ← draw_randomizers order rs';
      mret (mkSecret (name rand) (Some v) :: rs'')
  end.

(** The loop that adds up the revealed randomizer. *)
Fixpoint revealed_loop (order : Z) (rand power : Z) (rs : list Secret) : Result Z :=
  match rs with
  | [] => Ok rand
  | r :: rs' =>
      v ← value_of r;
      revealed_loop order (mod_add rand (v * power) order) (power * 2) rs'
  end.

(** [PowerTwoRangeProver.internal_precommit]; the prover comes back with
    the values of its randomizers set. *)
Definition internal_precommit (self : t) : M (list PreItem * t) :=
  let pf := proof self in
  let stored := precommitment pf in
  let g := g pf in
  let h := h pf in
  let order := order (group g) in
  vars ← lift (getattr "secret_vars" (secret_vars pf));
  s0 ← lift (py_index vars 0);
  value ← lift (match value s0 with
                | Some v => Ok v
                | None => Raise (AttributeError "num_bits")
                end);
  value_as_bits ← lift (decompose_into_n_bits value (nr_bits pf));
  rs ← draw_randomizers order (randomizers pf);
  precommitment ← lift (mapM (λ '(b, r),
                                v ← value_of r;
                                P ← ec_add (pt_mul b g) (pt_mul v h);
                                mret (PPoint P))
                             (zip value_as_bits rs));
  rand ← lift (revealed_loop order 0 1 rs);
  s1 ← lift (py_index vars 1);
  r1 ← lift (value_of s1);
  let rand' := mod_sub rand r1 order in
  mret ((precommitment ++ [PScalar rand'])%list,
        mk (mkPowerTwoRangeProof (secret_vars pf) (is_prover pf)
              (range_generators pf) (com pf) g h (nr_bits pf) rs stored)).
End Methods.
End PowerTwoRangeProver.

(** ** A library instance: the groups of integers modulo a positive number *)

Module Zq.
(** A group is named by a curve number and has the order [q]. *)
Record ZGroup := mkZGroup { nid : N; q : positive }.

Global Instance ZGroup_eq_dec : EqDecision ZGroup.
Proof. solve_decision. Defined.

(** A point is its group and a residue in [0, q). *)
Definition canonical (p : ZGroup * Z) : Prop := 0 ≤ p.2 < Z.pos (q p.1).

Definition ZPt : Type := dsig canonical.

Lemma canonical_mod (G : ZGroup) (v : Z) : canonical (G, v mod Z.pos (q G)).
Proof. unfold canonical; simpl. apply Z.mod_pos_bound. lia. Qed.

Definition mkZPt (G : ZGroup) (v : Z) : ZPt :=
  dexist (G, v mod Z.pos (q G)) (canonical_mod G v).

Definition zgroup (P : ZPt) : ZGroup := (`P).1.
Definition zval (P : ZPt) : Z := (`P).2.

Global Instance Zq_lib : PetLib :=
  {| EcGroup := ZGroup;
     EcPt := ZPt;
     group := zgroup;
     order := λ G, Z.pos (q G);
     infinite := λ G, mkZPt G 0;
     pt_add := λ P Q, mkZPt (zgroup P) (zval P + zval Q);
     pt_mul := λ k P, mkZPt (zgroup P) (k * zval P) |}.

Lemma ZPt_eq (P Q : ZPt) : zgroup P = zgroup Q → zval P = zval Q → P = Q.
Proof.
  intros HG Hv. apply dsig_eq. destruct P as [[? ?] ?], Q as [[? ?] ?].
  unfold zgroup, zval in *; simpl in *. congruence.
Qed.

Lemma zval_range (P : ZPt) : 0 ≤ zval P < Z.pos (q (zgroup P)).
Proof. exact (proj2_dsig P). Qed.

Lemma zval_mkZPt G v : zval (mkZPt G v) = v mod Z.pos (q G).
Proof. reflexivity. Qed.

Lemma zgroup_mkZPt G v : zgroup (mkZPt G v) = G.
Proof. reflexivity. Qed.

Global Instance Zq_laws : PetLibLaws.
Proof.
  split; simpl.
  - intros G. lia.
  - reflexivity.
  - reflexivity.
  - reflexivity.
  - intros P Q HPQ. apply ZPt_eq; rewrite ?zgroup_mkZPt, ?zval_mkZPt; [done|].
    rewrite HPQ. f_equal. lia.
  - intros P Q R HPQ HQR. apply ZPt_eq; rewrite ?zgroup_mkZPt, ?zval_mkZPt; [done|].
    rewrite <- HPQ. rewrite Zplus_mod_idemp_r, Zplus_mod_idemp_l. f_equal. lia.
  - intros P. apply ZPt_eq; rewrite ?zgroup_mkZPt, ?zval_mkZPt; [done|].
    rewrite Z.mod_0_l by lia. simpl. apply Z.mod_small, zval_range.
  - intros j k P. apply ZPt_eq; rewrite ?zgroup_mkZPt, ?zval_mkZPt; [done|].
    rewrite <- Zplus_mod. f_equal. lia.
  - intros k P Q HPQ. apply ZPt_eq; rewrite ?zgroup_mkZPt, ?zval_mkZPt; [done|].
    rewrite <- HPQ, Zmult_mod_idemp_r, <- Zplus_mod. f_equal. lia.
  - intros j k P. apply ZPt_eq; rewrite ?zgroup_mkZPt, ?zval_mkZPt; [done|].
    rewrite Zmult_mod_idemp_r. f_equal. lia.
  - intros P. apply ZPt_eq; rewrite ?zgroup_mkZPt, ?zval_mkZPt; [done|].
    rewrite Z.mul_1_l. apply Z.mod_small, zval_range.
  - intros P. apply ZPt_eq; rewrite ?zgroup_mkZPt, ?zval_mkZPt; [done|].
    rewrite Z.mod_0_l by lia. rewrite Z.mul_comm. apply Z.mod_mul. lia.
Qed.

(** Two groups and a few points to run the code on. *)
Definition G11 : @EcGroup Zq_lib := mkZGroup 713 11.
Definition G13 : @EcGroup Zq_lib := mkZGroup 714 13.
Definition pt11 (v : Z) : @EcPt Zq_lib := mkZPt G11 v.
Definition pt13 (v : Z) : @EcPt Zq_lib := mkZPt G13 v.

(** A tape of random draws. *)
Definition tape0 : Tape := λ n, 7 * Z.of_nat n + 5.
End Zq.

(** * Properties *)

(** ** Results of loops over lists *)

Section ResultLemmas.
Context `{PetLib}.

Lemma mapM_cons_eq {A B} (f : A → Result B) (x : A) (l : list A) :
  mapM f (x :: l) =
  match f x with
  | Ok y => match mapM f l with Ok k => Ok (y :: k) | Raise e => Raise e end
  | Raise e => Raise e
  end.
Proof. reflexivity. Qed.

Lemma mapM_Ok_Forall2 {A B} (f : A → Result B) (l : list A) (k : list B) :
  mapM f l = Ok k ↔ Forall2 (λ x y, f x = Ok y) l k.
Proof.
  revert k. induction l as [|x l IH]; intros k.
  - split.
    + intros [= <-]. constructor.
    + intros Hk. inversion Hk. reflexivity.
  - rewrite mapM_cons_eq. split.
    + destruct (f x) as [y|e] eqn:Hfx; [|done].
      destruct (mapM f l) as [k'|e] eqn:Hk'; [|done].
      intros [= <-]. constructor; [done|]. by apply IH.
    + intros Hk. inversion Hk as [|? y ? k' Hy Hk']; subst.
      apply IH in Hk'. by rewrite Hy, Hk'.
Qed.

Lemma mapM_Ok_length {A B} (f : A → Result B) (l : list A) (k : list B) :
  mapM f l = Ok k → length k = length l.
Proof.
  intros Hk. apply mapM_Ok_Forall2 in Hk. symmetry. by eapply Forall2_length.
Qed.

Lemma mapM_Ok_lookup {A B} (f : A → Result B) (l : list A) (k : list B) i x :
  mapM f l = Ok k → l !! i = Some x → ∃ y, k !! i = Some y ∧ f x = Ok y.
Proof.
  intros Hk Hx. apply mapM_Ok_Forall2 in Hk.
  destruct (Forall2_lookup_l _ _ _ _ _ Hk Hx) as (y & Hy & Hf). eauto.
Qed.

Lemma mapM_Ok_total {A B} (f : A → Result B) (l : list A) :
  Forall (λ x, ∃ y, f x = Ok y) l → ∃ k, mapM f l = Ok k.
Proof.
  induction 1 as [|x l [y Hy] _ [k Hk]].
  - by eexists.
  - exists (y :: k). by rewrite mapM_cons_eq, Hy, Hk.
Qed.

(** Reading a list of names in a dictionary that has them all. *)
Lemma mapM_dict_get_total (d : gmap string Z) (names : list string) :
  Forall (λ n, is_Some (d !! n)) names → ∃ vs, mapM (dict_get d) names = Ok vs.
Proof.
  intros Hd. apply mapM_Ok_total. eapply Forall_impl; [exact Hd|].
  intros n [v Hv]. exists v. unfold dict_get. by rewrite Hv.
Qed.

Lemma mapM_dict_get_lookup (d : gmap string Z) names vs i n :
  mapM (dict_get d) names = Ok vs → names !! i = Some n →
  ∃ v, vs !! i = Some v ∧ d !! n = Some v.
Proof.
  intros Hvs Hn. destruct (mapM_Ok_lookup _ _ _ _ _ Hvs Hn) as (v & Hv & Hd).
  exists v. split; [done|]. unfold dict_get in Hd.
  destruct (d !! n); by inversion Hd.
Qed.
End ResultLemmas.

(** ** Sums of points of one group *)

Section Algebra.
Context `{PetLibLaws}.

(** The sum of a list of points of the group [G]. *)
Definition gsum (G : EcGroup) (l : list EcPt) : EcPt :=
  foldr pt_add (infinite G) l.

Definition in_group (G : EcGroup) (P : EcPt) : Prop := group P = G.

Lemma mul_0 P : pt_mul 0 P = infinite (group P).
Proof.
  pose proof (mul_order (pt_mul 0 P)) as HX.
  rewrite mul_mul, Z.mul_0_r, group_mul in HX. exact HX.
Qed.

Lemma mul_infinite k G : pt_mul k (infinite G) = infinite G.
Proof.
  pose proof (mul_0 (infinite G)) as Hinf. rewrite group_infinite in Hinf.
  rewrite <- Hinf at 1. by rewrite mul_mul, Z.mul_0_r.
Qed.

Lemma add_infinite_r P : pt_add P (infinite (group P)) = P.
Proof.
  rewrite add_comm by (by rewrite group_infinite). apply add_infinite_l.
Qed.

Lemma mul_mod k P : pt_mul (k mod order (group P)) P = pt_mul k P.
Proof.
  pose proof (order_pos (group P)) as Hq.
  rewrite (Z.div_mod k (order (group P))) at 2 by lia.
  rewrite mul_add_l, (Z.mul_comm (order (group P))), <- mul_mul, mul_order.
  rewrite mul_infinite. rewrite <- (group_mul (k mod order (group P)) P) at 2.
  by rewrite add_infinite_l.
Qed.

Lemma group_gsum G l : Forall (in_group G) l → group (gsum G l) = G.
Proof.
  induction 1 as [|P l HP _ IH]; simpl.
  - apply group_infinite.
  - rewrite group_add; [done|]. by rewrite IH.
Qed.

Lemma in_group_zip_mul G (ks : list Z) gens :
  Forall (in_group G) gens → Forall (in_group G) (zip_with pt_mul ks gens).
Proof.
  intros Hg. revert ks. induction Hg as [|P l HP _ IH]; intros [|k ks]; simpl;
    constructor; [|by apply IH].
  unfold in_group. by rewrite group_mul.
Qed.

(** The loop of additions gives the sum, and raises nothing. *)
Lemma sum_points_gsum G acc l :
  group acc = G → Forall (in_group G) l →
  sum_points acc l = Ok (pt_add acc (gsum G l)).
Proof.
  intros Hacc Hl. revert acc Hacc. induction Hl as [|P l HP Hl IH]; intros acc Hacc; simpl.
  - by rewrite <- Hacc, add_infinite_r.
  - unfold ec_add. rewrite decide_True by (by rewrite Hacc, HP). simpl.
    rewrite IH by (by rewrite group_add; rewrite ?Hacc, ?HP).
    f_equal. symmetry. apply add_assoc; [by rewrite Hacc, HP|].
    by rewrite group_gsum.
Qed.

Lemma sum_points_from_infinite G l :
  Forall (in_group G) l → sum_points (infinite G) l = Ok (gsum G l).
Proof.
  intros Hl. rewrite (sum_points_gsum G) by (done || apply group_infinite).
  f_equal. rewrite <- (group_gsum G l Hl) at 1. apply add_infinite_l.
Qed.

Lemma add_swap A B C D G :
  group A = G → group B = G → group C = G → group D = G →
  pt_add (pt_add A B) (pt_add C D) = pt_add (pt_add A C) (pt_add B D).
Proof.
  intros HA HB HC HD.
  rewrite <- (add_assoc A B) by (rewrite ?group_add; congruence).
  rewrite (add_assoc B C D) by congruence.
  rewrite (add_comm B C) by congruence.
  rewrite <- (add_assoc C B D) by congruence.
  rewrite (add_assoc A C) by (rewrite ?group_add; congruence).
  done.
Qed.

Lemma mul_gsum k G l :
  Forall (in_group G) l → pt_mul k (gsum G l) = gsum G (pt_mul k <$> l).
Proof.
  induction 1 as [|P l HP Hl IH]; simpl.
  - apply mul_infinite.
  - rewrite mul_add_r by (by rewrite group_gsum). by rewrite IH.
Qed.
End Algebra.

Ltac unfold_M :=
  unfold mbind, M_bind, mret, M_ret, lift, Result_bind, Result_ret in *.

(** ** The atomic protocol: commit, respond, recompute *)

Section DLRepProtocol.
Context `{PetLibLaws}.

(** The prover as [commit] leaves it. *)
Definition committed (self : DLRepProver) (q : Z) (ks1 : list Z) : DLRepProver :=
  mkDLRepProver (prover_generators self) (prover_secret_names self)
    (secret_values self) (prover_lhs self) (prover_set_simulate self)
    (Some q) (Some ks1).

(** The responses to the challenge [c]: [k + c * x] modulo [q]. *)
Definition responses_of (q c : Z) (xs ks1 : list Z) : list Z :=
  zip_with (λ x k, mod_add (mod_mul x c q) k q) xs ks1.

Lemma get_randomizers_loop_covers gens names : ∀ idx output t,
  (idx + length names ≤ length gens)%nat →
  ∃ d t', DLRepProver.get_randomizers_loop gens idx names output t = Ok (d, t')
    ∧ (∀ n, n ∈ names → is_Some (d !! n))
    ∧ (∀ n, is_Some (output !! n) → is_Some (d !! n)).
Proof.
  induction names as [|sec names IH]; intros idx output t Hlen; simpl in *.
  - exists output, t. split; [done|]. split; [|done].
    intros n Hn. by apply elem_of_nil in Hn.
  - destruct (lookup_lt_is_Some_2 gens idx) as [g Hg]; [lia|].
    unfold_M. unfold py_index. rewrite Hg. unfold random.
    destruct (IH (S idx) (<[sec := t 0%nat mod order (group g)]> output)
                 (λ n, t (S n))) as (d & t' & Hrun & Hnames & Hout); [lia|].
    exists d, t'. split; [exact Hrun|]. split.
    + intros n [->|Hn]%elem_of_cons; [|by apply Hnames].
      apply Hout. rewrite lookup_insert_eq. by eexists.
    + intros n Hn. apply Hout. destruct (decide (sec = n)) as [->|Hne].
      * rewrite lookup_insert_eq. by eexists.
      * by rewrite lookup_insert_ne.
Qed.

Lemma get_randomizers_covers (self : DLRepProver) t :
  (length (secret_names self) ≤ length (generators self))%nat →
  ∃ d t', DLRepProver.get_randomizers self t = Ok (d, t')
    ∧ Forall (λ n, is_Some (d !! n)) (secret_names self).
Proof.
  intros Hlen.
  destruct (get_randomizers_loop_covers (generators self) (secret_names self)
              0%nat ∅ t) as (d & t' & Hrun & Hnames & _); [simpl in *; lia|].
  exists d, t'. split; [exact Hrun|]. by apply Forall_forall.
Qed.

Lemma commit_Some_ok G (self : DLRepProver) d ks1 t :
  secret_values self ≠ ∅ →
  generators self ≠ [] →
  Forall (in_group G) (generators self) →
  mapM (dict_get d) (secret_names self) = Ok ks1 →
  DLRepProver.commit self (Some d) t =
    Ok (gsum G (zip_with pt_mul ks1 (generators self)),
        committed self (order G) ks1, t).
Proof.
  intros Hvals Hne HG Hks. unfold DLRepProver.commit.
  rewrite decide_False by done.
  destruct (generators self) as [|P0 gens] eqn:Hgens; [done|].
  assert (group P0 = G) as HP0 by (by inversion HG).
  unfold_M. unfold py_index. simpl in *. rewrite Hks.
  by rewrite HP0, sum_points_from_infinite by (by apply in_group_zip_mul).
Qed.

Lemma commit_None_ok G (self : DLRepProver) t :
  secret_values self ≠ ∅ →
  generators self ≠ [] →
  Forall (in_group G) (generators self) →
  (length (secret_names self) ≤ length (generators self))%nat →
  ∃ d t' ks1,
    DLRepProver.get_randomizers self t = Ok (d, t')
    ∧ mapM (dict_get d) (secret_names self) = Ok ks1
    ∧ DLRepProver.commit self None t =
        Ok (gsum G (zip_with pt_mul ks1 (generators self)),
            committed self (order G) ks1, t').
Proof.
  intros Hvals Hne HG Hlen.
  destruct (get_randomizers_covers self t Hlen) as (d & t' & Hrun & Hcov).
  destruct (mapM_dict_get_total d _ Hcov) as [ks1 Hks].
  exists d, t', ks1. split; [done|]. split; [done|].
  pose proof (commit_Some_ok G self d ks1 t' Hvals Hne HG Hks) as HS.
  unfold DLRepProver.commit in *. rewrite decide_False in * by done.
  destruct (generators self) as [|P0 gens] eqn:Hgens; [done|].
  unfold_M. unfold py_index in *. simpl in *.
  unfold DLRepProver.get_randomizers in *. simpl in *. rewrite Hrun.
  exact HS.
Qed.

Lemma compute_response_ok (self : DLRepProver) q ks1 xs c :
  mapM (dict_get (secret_values self)) (secret_names self) = Ok xs →
  length ks1 = length (secret_names self) →
  DLRepProver.compute_response (committed self q ks1) c =
    Ok (responses_of q c xs ks1).
Proof.
  intros Hxs Hlen. unfold DLRepProver.compute_response. simpl.
  apply mapM_Ok_Forall2.
  pose proof (mapM_Ok_length _ _ _ Hxs) as Hlenx.
  apply Forall2_same_length_lookup_2.
  - unfold responses_of. rewrite length_seq, length_zip_with. lia.
  - intros i j s Hj Hs. apply lookup_seq in Hj as [-> Hi]. simpl.
    unfold responses_of in Hs.
    apply lookup_zip_with_Some in Hs as (x & k & -> & Hx & Hk).
    simpl in *.
    destruct (lookup_lt_is_Some_2 (prover_secret_names self) i) as [n Hn]; [lia|].
    destruct (mapM_dict_get_lookup _ _ _ _ _ Hxs Hn) as (x' & Hx' & Hd).
    assert (x' = x) as -> by congruence.
    unfold py_index. rewrite Hn. simpl. unfold dict_get. rewrite Hd. simpl.
    unfold py_index. by rewrite Hk.
Qed.

Lemma raise_powers_ok G (gens : list EcPt) (response : list Z) :
  gens ≠ [] → Forall (in_group G) gens →
  raise_powers gens response = Ok (gsum G (zip_with pt_mul response gens)).
Proof.
  intros Hne HG. unfold raise_powers.
  destruct gens as [|P0 gens]; [done|].
  assert (group P0 = G) as HP0 by (by inversion HG).
  unfold py_index. simpl. rewrite HP0.
  by apply (sum_points_from_infinite G), in_group_zip_mul.
Qed.

Lemma recompute_commitment_ok {A} `{!DLRepLike A} G (v : A) c (responses : list Z) :
  generators v ≠ [] → Forall (in_group G) (generators v) → group (lhs v) = G →
  DLRepProof.recompute_commitment v c responses =
    Ok (pt_add (gsum G (zip_with pt_mul responses (generators v)))
               (pt_mul (- c) (lhs v))).
Proof.
  intros Hne HG Hlhs. unfold DLRepProof.recompute_commitment.
  rewrite (raise_powers_ok G) by done. simpl.
  unfold ec_add. rewrite decide_True; [done|].
  rewrite group_mul, Hlhs. by apply group_gsum, in_group_zip_mul.
Qed.

(** One term: [s * P - c * (x * P) = k * P] for [s = k + c * x] modulo the
    order. *)
Lemma response_term c x k P :
  pt_add (pt_mul (mod_add (mod_mul x c (order (group P))) k (order (group P))) P)
         (pt_mul (- c) (pt_mul x P)) = pt_mul k P.
Proof.
  unfold mod_add, mod_mul. rewrite mul_mod, mul_add_l, mul_mod, mul_mul.
  rewrite (add_comm (pt_mul (x * c) P)) by (by rewrite !group_mul).
  rewrite <- add_assoc by (by rewrite !group_mul).
  rewrite <- mul_add_l. replace (x * c + - c * x) with 0 by lia.
  rewrite mul_0. rewrite <- (group_mul k P). apply add_infinite_r.
Qed.

(** The whole sum: what the verifier recomputes from honest responses is
    the sum of the randomizers' terms. *)
Lemma response_sum G c gens : ∀ xs ks1,
  Forall (in_group G) gens → length xs = length ks1 →
  pt_add (gsum G (zip_with pt_mul (responses_of (order G) c xs ks1) gens))
         (pt_mul (- c) (gsum G (zip_with pt_mul xs gens)))
  = gsum G (zip_with pt_mul ks1 gens).
Proof.
  induction gens as [|P gens IH]; intros xs ks1 HG Hlen.
  - destruct xs, ks1; simpl; rewrite ?zip_with_nil_r; simpl;
      rewrite mul_infinite; rewrite <- (group_infinite G) at 1;
      apply add_infinite_l.
  - inversion HG as [|? ? HP HG']; subst. unfold in_group in HP. subst G.
    destruct xs as [|x xs], ks1 as [|k ks1]; simpl in *; try discriminate.
    + rewrite mul_infinite. rewrite <- (group_infinite (group P)) at 1.
      apply add_infinite_l.
    + assert (Forall (in_group (group P)) (zip_with pt_mul xs gens)) as Hxs
        by (by apply in_group_zip_mul).
      rewrite mul_add_r by (by rewrite group_gsum, group_mul).
      rewrite (add_swap _ _ _ _ (group P));
        rewrite ?group_mul, ?group_gsum; try done;
        try (by apply in_group_zip_mul).
      rewrite response_term. f_equal. apply IH; [done|lia].
Qed.

(** The atomic statements that the protocol is run on: at least one
    generator, all generators in the group [G], one secret name per
    generator. *)
Definition well_formed {A} `{!DLRepLike A} (G : EcGroup) (v : A) : Prop :=
  generators v ≠ []
  ∧ Forall (in_group G) (generators v)
  ∧ length (secret_names v) = length (generators v).

(** The point that the secret values [xs] give on the generators. *)
Definition relation_point (G : EcGroup) (xs : list Z) (gens : list EcPt) : EcPt :=
  gsum G (zip_with pt_mul xs gens).
End DLRepProtocol.

Section Completeness.
Context `{PetLibLaws}.

Lemma secret_values_nonempty G (self : DLRepProver) xs :
  well_formed G self →
  mapM (dict_get (secret_values self)) (secret_names self) = Ok xs →
  secret_values self ≠ ∅.
Proof.
  intros (Hne & _ & Hlen) Hxs Hempty.
  destruct (secret_names self) as [|n names] eqn:Hnames.
  - destruct (generators self); [done|discriminate].
  - destruct (mapM_dict_get_lookup _ _ _ 0%nat n Hxs eq_refl) as (x & _ & Hx).
    rewrite Hempty in Hx. by rewrite lookup_empty in Hx.
Qed.

(** C1 — completeness of the atomic protocol. Take a prover whose
    generators all lie in the group [G], with one secret name per
    generator, whose secret values [xs] (read by name, so that equal names
    have equal values) satisfy [lhs = sum_i x_i * G_i]. For every challenge
    [c] and every randomizer dictionary that has all the secret names (or
    none given, in which case the prover draws one), [commit] returns a
    point, [compute_response] returns the responses
    [s_i = k_i + c * x_i mod q], and [recompute_commitment] on the
    challenge and these responses returns the very point that [commit]
    returned, which is [sum_i k_i * G_i]. *)
Theorem dlrep_completeness {A} `{!DLRepLike A} (G : EcGroup)
    (self : DLRepProver) (verifier : A)
    (randomizers_dict : option (gmap string Z)) (xs : list Z) (c : Z)
    (t : Tape) :
  well_formed G self →
  generators verifier = generators self →
  lhs verifier = lhs self →
  mapM (dict_get (secret_values self)) (secret_names self) = Ok xs →
  lhs self = relation_point G xs (generators self) →
  (∀ d, randomizers_dict = Some d →
        Forall (λ n, is_Some (d !! n)) (secret_names self)) →
  ∃ commitment self' t' response ks1,
    DLRepProver.commit self randomizers_dict t = Ok (commitment, self', t')
    ∧ DLRepProver.compute_response self' c = Ok response
    ∧ DLRepProof.recompute_commitment verifier c response = Ok commitment
    ∧ ks self' = Some ks1
    ∧ commitment = gsum G (zip_with pt_mul ks1 (generators self))
    ∧ response = responses_of (order G) c xs ks1.
Proof.
  intros Hwf Hgens Hlhs Hxs Hrel Hdict.
  pose proof (secret_values_nonempty G self xs Hwf Hxs) as Hvals.
  destruct Hwf as (Hne & HG & Hlen).
  assert (∃ t' ks1, length ks1 = length (secret_names self)
            ∧ DLRepProver.commit self randomizers_dict t =
                Ok (gsum G (zip_with pt_mul ks1 (generators self)),
                    committed self (order G) ks1, t'))
    as (t' & ks1 & Hlenk & Hcommit).
  { destruct randomizers_dict as [d|].
    - destruct (mapM_dict_get_total d _ (Hdict d eq_refl)) as [ks1 Hks].
      exists t, ks1. split; [by eapply mapM_Ok_length|].
      by apply commit_Some_ok.
    - destruct (commit_None_ok G self t) as (d & t' & ks1 & _ & Hks & Hc);
        [done..|lia|].
      exists t', ks1. split; [by eapply mapM_Ok_length|done]. }
  exists (gsum G (zip_with pt_mul ks1 (generators self))),
    (committed self (order G) ks1), t', (responses_of (order G) c xs ks1), ks1.
  split; [exact Hcommit|].
  split; [by apply compute_response_ok|].
  split; [|done].
  assert (group (lhs self) = G) as HlhsG.
  { rewrite Hrel. by apply group_gsum, in_group_zip_mul. }
  rewrite (recompute_commitment_ok G) by (rewrite ?Hgens, ?Hlhs; done).
  rewrite Hgens, Hlhs, Hrel. f_equal. apply response_sum; [done|].
  apply mapM_Ok_length in Hxs. lia.
Qed.
End Completeness.

(** The statement [PK{(x, y): 3 * G + 5 * H = x * G + y * H}] in the group of
    order 11, with its prover and verifier. *)
Module Example1.
Import Zq.
Definition gens : list EcPt := [pt11 1; pt11 4].
Definition names : list string := ["x"; "y"].
Definition values : gmap string Z := <["x" := 3]> (<["y" := 5]> ∅).
Definition y : EcPt := relation_point G11 [3; 5] gens.
Definition prover : DLRepProver := DLRepProver_init gens names values y.
Definition verifier : DLRepVerifier := DLRepVerifier_init gens names y.
Definition randomizers : gmap string Z := <["x" := 7]> (<["y" := 2]> ∅).
End Example1.

Lemma dlrep_completeness_witness :
  ∃ commitment self' t' response ks1,
    DLRepProver.commit Example1.prover (Some Example1.randomizers) Zq.tape0
      = Ok (commitment, self', t')
    ∧ DLRepProver.compute_response self' 9 = Ok response
    ∧ DLRepProof.recompute_commitment Example1.verifier 9 response = Ok commitment
    ∧ ks self' = Some ks1
    ∧ commitment = gsum Zq.G11 (zip_with pt_mul ks1 (generators Example1.prover))
    ∧ response = responses_of (order Zq.G11) 9 [3; 5] ks1.
Proof.
  apply (dlrep_completeness Zq.G11 Example1.prover Example1.verifier
           (Some Example1.randomizers) [3; 5] 9 Zq.tape0).
  - split; [discriminate|]. split; [|reflexivity].
    repeat constructor.
  - reflexivity.
  - reflexivity.
  - reflexivity.
  - reflexivity.
  - intros d [= <-]. repeat constructor; eexists; reflexivity.
Defined.

(** ** Simulation *)

Section Simulation.
Context `{PetLibLaws}.

(** What a returned transcript is made of. *)
Lemma simulate_proof_inv (self : DLRepProver) responses_dict challenge t
    commitment c response t' :
  DLRepProver.simulate_proof self responses_dict challenge t
    = Ok (commitment, c, response, t') →
  ∃ d, mapM (dict_get d) (secret_names self) = Ok response
       ∧ DLRepProof.recompute_commitment self c response = Ok commitment
       ∧ (∀ d', responses_dict = Some d' → d = d')
       ∧ (∀ c', challenge = Some c' → c = c').
Proof.
  unfold DLRepProver.simulate_proof. unfold_M. intros Hrun.
  repeat case_match; simplify_eq.
  all: eexists; repeat split; try eassumption; by intros; simplify_eq.
Qed.

Lemma simulate_proof_no_dict (self : DLRepProver) challenge t :
  DLRepProver.simulate_proof self None challenge t =
  match DLRepProver.get_randomizers self t with
  | Ok (d, t1) => DLRepProver.simulate_proof self (Some d) challenge t1
  | Raise e => Raise e
  end.
Proof. reflexivity. Qed.

Lemma simulate_proof_no_challenge (self : DLRepProver) d t :
  DLRepProver.simulate_proof self (Some d) None t =
  DLRepProver.simulate_proof self (Some d) (Some (t 0%nat mod 2 ^ 128))
    (λ n, t (S n)).
Proof. reflexivity. Qed.

Lemma simulate_proof_given G (self : DLRepProver) d c t :
  well_formed G self → group (lhs self) = G →
  Forall (λ n, is_Some (d !! n)) (secret_names self) →
  ∃ commitment response,
    DLRepProver.simulate_proof self (Some d) (Some c) t
      = Ok (commitment, c, response, t).
Proof.
  intros (Hne & HG & Hlen) Hlhs Hcov.
  destruct (mapM_dict_get_total d _ Hcov) as [resp Hresp].
  unfold DLRepProver.simulate_proof. unfold_M.
  rewrite Hresp, (recompute_commitment_ok G) by done. by eexists _, _.
Qed.

Lemma simulate_proof_total G (self : DLRepProver) responses_dict challenge t :
  well_formed G self → group (lhs self) = G →
  (∀ d, responses_dict = Some d →
        Forall (λ n, is_Some (d !! n)) (secret_names self)) →
  ∃ commitment c response t',
    DLRepProver.simulate_proof self responses_dict challenge t
      = Ok (commitment, c, response, t').
Proof.
  intros Hwf Hlhs Hdict.
  assert (∀ d t1, Forall (λ n, is_Some (d !! n)) (secret_names self) →
            ∃ commitment c response t',
              DLRepProver.simulate_proof self (Some d) challenge t1
                = Ok (commitment, c, response, t')) as Hgiven.
  { intros d t1 Hcov. destruct challenge as [c|].
    - destruct (simulate_proof_given G self d c t1) as (com & resp & Hrun);
        [done..|]. by eexists _, _, _, _.
    - rewrite simulate_proof_no_challenge.
      destruct (simulate_proof_given G self d (t1 0%nat mod 2 ^ 128)
                  (λ n, t1 (S n))) as (com & resp & Hrun); [done..|].
      by eexists _, _, _, _. }
  destruct responses_dict as [d|].
  - by apply Hgiven, Hdict.
  - rewrite simulate_proof_no_dict.
    destruct Hwf as (Hne & HG & Hlen).
    destruct (get_randomizers_covers self t) as (d & t1 & -> & Hcov); [lia|].
    by apply Hgiven.
Qed.

(** C3 — a simulated transcript passes the verifier's check. For every
    statement, every prover of it (the simulator that [get_simulator]
    returns is one), every challenge and every responses dictionary:
    whatever triple [simulate_proof] returns, [recompute_commitment] of
    the statement on its challenge and responses returns its commitment,
    so that the comparison [==] of the two gives [True]; the responses are
    the dictionary's values read by secret name. And [simulate_proof] does
    return a triple when the generators and [lhs] lie in one group [G],
    there is one secret name per generator, and the dictionary has all the
    secret names. *)
Theorem simulate_proof_verifies (G : EcGroup) (stmt : DLRepProof)
    (self : DLRepProver) (responses_dict : gmap string Z) (c : Z) (t : Tape) :
  generators self = generators stmt →
  secret_names self = secret_names stmt →
  lhs self = lhs stmt →
  (∀ commitment c' response t',
     DLRepProver.simulate_proof self (Some responses_dict) (Some c) t
       = Ok (commitment, c', response, t') →
     c' = c
     ∧ mapM (dict_get responses_dict) (secret_names stmt) = Ok response
     ∧ ∃ recomputed,
         DLRepProof.recompute_commitment stmt c' response = Ok recomputed
         ∧ ec_eq recomputed commitment = Ok true)
  ∧ (well_formed G stmt → group (lhs stmt) = G →
     Forall (λ n, is_Some (responses_dict !! n)) (secret_names stmt) →
     ∃ commitment response,
       DLRepProver.simulate_proof self (Some responses_dict) (Some c) t
         = Ok (commitment, c, response, t)).
Proof.
  intros Hgens Hnames Hlhs. split.
  - intros commitment c' response t' Hrun.
    apply simulate_proof_inv in Hrun as (d & Hresp & Hcom & Hd & Hc).
    rewrite <- (Hd _ eq_refl) in *. rewrite (Hc _ eq_refl) in *.
    split; [done|]. split; [by rewrite <- Hnames|].
    exists commitment. split.
    + unfold DLRepProof.recompute_commitment in *. by rewrite <- Hgens, <- Hlhs.
    + unfold ec_eq. rewrite decide_True by done. by rewrite bool_decide_eq_true_2.
  - intros Hwf HG Hcov.
    assert (well_formed G self) as Hwf'.
    { destruct Hwf as (? & ? & ?). unfold well_formed.
      by rewrite Hgens, Hnames. }
    apply (simulate_proof_given G); [done| |].
    + by rewrite Hlhs.
    + by rewrite Hnames.
Qed.
End Simulation.

Lemma simulate_proof_verifies_witness :
  ∃ commitment response,
    DLRepProver.simulate_proof
      (DLRepProof.get_simulator (mkDLRepProof Example1.gens Example1.names Example1.y false))
      (Some Example1.randomizers) (Some 9) Zq.tape0
    = Ok (commitment, 9, response, Zq.tape0).
Proof.
  apply (simulate_proof_verifies Zq.G11
           (mkDLRepProof Example1.gens Example1.names Example1.y false)
           (DLRepProof.get_simulator
              (mkDLRepProof Example1.gens Example1.names Example1.y false))
           Example1.randomizers 9 Zq.tape0).
  - reflexivity.
  - reflexivity.
  - reflexivity.
  - split; [discriminate|]. split; [|reflexivity]. repeat constructor.
  - reflexivity.
  - repeat constructor; eexists; reflexivity.
Defined.

Section SimulatedResponses.
Context `{PetLibLaws}.

(** C10 — simulated responses agree on shared secret names. When
    [simulate_proof] is called without a responses dictionary, whatever
    triple it returns has responses that are the values of the dictionary
    drawn by [get_randomizers], read by secret name: one response per
    secret name, and at any two positions that bear the same name the
    responses are equal. And it does return a triple when the generators
    and [lhs] lie in one group [G] and there is one secret name per
    generator. *)
Theorem simulated_responses_shared (G : EcGroup) (self : DLRepProver)
    (challenge : option Z) (t : Tape) :
  (∀ commitment c response t',
     DLRepProver.simulate_proof self None challenge t
       = Ok (commitment, c, response, t') →
     (∃ d t1, DLRepProver.get_randomizers self t = Ok (d, t1)
              ∧ mapM (dict_get d) (secret_names self) = Ok response)
     ∧ length response = length (secret_names self)
     ∧ ∀ i j n, secret_names self !! i = Some n →
                secret_names self !! j = Some n →
                ∃ s, response !! i = Some s ∧ response !! j = Some s)
  ∧ (well_formed G self → group (lhs self) = G →
     ∃ commitment c response t',
       DLRepProver.simulate_proof self None challenge t
         = Ok (commitment, c, response, t')).
Proof.
  split.
  - intros commitment c response t' Hrun.
    rewrite simulate_proof_no_dict in Hrun.
    destruct (DLRepProver.get_randomizers self t) as [[d t1]|] eqn:Hd; [|done].
    apply simulate_proof_inv in Hrun as (d' & Hresp & _ & Hd' & _).
    rewrite (Hd' _ eq_refl) in Hresp.
    split; [by exists d, t1|]. split; [by eapply mapM_Ok_length|].
    intros i j n Hi Hj.
    destruct (mapM_dict_get_lookup _ _ _ _ _ Hresp Hi) as (s & Hs & Hds).
    destruct (mapM_dict_get_lookup _ _ _ _ _ Hresp Hj) as (s' & Hs' & Hds').
    exists s. split; [done|]. congruence.
  - intros Hwf Hlhs. by apply (simulate_proof_total G).
Qed.
End SimulatedResponses.

(** A simulator whose first and third terms share the secret [x]. *)
Module Example2.
Import Zq.
Definition gens : list EcPt := [pt11 1; pt11 4; pt11 6].
Definition names : list string := ["x"; "y"; "x"].
Definition simulator : DLRepProver := DLRepProver_init gens names ∅ (pt11 3).
End Example2.

Lemma simulated_responses_shared_witness :
  ∃ commitment c response t',
    DLRepProver.simulate_proof Example2.simulator None None Zq.tape0
      = Ok (commitment, c, response, t').
Proof.
  apply (simulated_responses_shared Zq.G11 Example2.simulator None Zq.tape0).
  - split; [discriminate|]. split; [|reflexivity]. repeat constructor.
  - reflexivity.
Defined.

Example simulated_responses_run :
  match DLRepProver.simulate_proof Example2.simulator None None Zq.tape0 with
  | Ok (_, c, response, _) => Some (c, response)
  | Raise _ => None
  end = Some (26, [8; 1; 8]).
Proof. reflexivity. Qed.

(** ** Construction of an atomic statement *)

Section Construction.
Context `{PetLib}.

Lemma initialize_loop_Ok test_group gens :
  Forall (λ g, group g = test_group) gens →
  DLRepProof.initialize_loop test_group gens = Ok ().
Proof.
  induction 1 as [|g gens Hg _ IH]; simpl; [done|].
  by rewrite decide_False by (by intros ?).
Qed.

Lemma initialize_loop_Raise test_group gens :
  ¬ Forall (λ g, group g = test_group) gens →
  ∃ e, DLRepProof.initialize_loop test_group gens = Raise e.
Proof.
  induction gens as [|g gens IH]; intros Hnot; simpl.
  - destruct Hnot. constructor.
  - destruct (decide (group g ≠ test_group)) as [Hne|Heq]; [by eexists|].
    apply IH. intros Hall. apply Hnot. constructor; [|done].
    by destruct (decide (group g = test_group)).
Qed.

(** What [initialize] decides on: the lists only, never [lhs]. *)
Definition one_group (gens : list EcPt) : Prop :=
  ∀ g g', g ∈ gens → g' ∈ gens → group g = group g'.

Lemma initialize_Ok generators secret_names lhs :
  generators ≠ [] →
  length secret_names = length generators →
  one_group generators →
  DLRepProof.initialize generators secret_names lhs =
    Ok (mkDLRepProof generators secret_names lhs false).
Proof.
  intros Hne Hlen Hone. unfold DLRepProof.initialize.
  destruct generators as [|g0 gens]; [done|].
  rewrite decide_False by done. rewrite decide_False by (by intros ?).
  unfold py_index. simpl. rewrite decide_False by (by intros ?).
  rewrite initialize_loop_Ok; [done|].
  apply Forall_forall. intros g Hg. apply Hone; [by right|by left].
Qed.

Lemma initialize_Raise generators secret_names lhs :
  generators = []
  ∨ length secret_names ≠ length generators
  ∨ (∃ g g', g ∈ generators ∧ g' ∈ generators ∧ group g ≠ group g') →
  ∃ e, DLRepProof.initialize generators secret_names lhs = Raise e.
Proof.
  intros Hbad. unfold DLRepProof.initialize.
  destruct (decide (length generators = 0%nat)) as [|Hne]; [by eexists|].
  destruct (decide (length secret_names ≠ length generators)) as [|Hlen];
    [by eexists|].
  destruct Hbad as [->|[?|(g & g' & Hg & Hg' & Hdiff)]]; [done..|].
  destruct generators as [|g0 gens]; [done|].
  unfold py_index. simpl.
  destruct (initialize_loop_Raise (group g0) (g0 :: gens)) as [e He].
  - intros Hall. rewrite Forall_forall in Hall.
    apply Hdiff. by rewrite (Hall g Hg), (Hall g' Hg').
  - simpl in He. rewrite He. by eexists.
Qed.
End Construction.

(** C6, as the code has it — validation at construction. [initialize]
    raises when the list of generators is empty, when the secret names and
    the generators differ in number, and when two generators lie in
    different groups. When there is at least one generator, as many secret
    names as generators, and all generators lie in one group, it succeeds
    and records the generators, the secret names and [lhs] unchanged,
    whatever the group of [lhs] is. *)
Theorem initialize_validation `{PetLib} (generators : list EcPt)
    (secret_names : list string) (lhs : EcPt) :
  (generators = []
   ∨ length secret_names ≠ length generators
   ∨ (∃ g g', g ∈ generators ∧ g' ∈ generators ∧ group g ≠ group g') →
   ∃ e, DLRepProof.initialize generators secret_names lhs = Raise e)
  ∧ (generators ≠ [] →
     length secret_names = length generators →
     one_group generators →
     DLRepProof.initialize generators secret_names lhs =
       Ok (mkDLRepProof generators secret_names lhs false)).
Proof.
  split.
  - apply initialize_Raise.
  - apply initialize_Ok.
Qed.

Lemma initialize_validation_witness :
  DLRepProof.initialize [Zq.pt11 1; Zq.pt11 4] ["x"; "y"] (Zq.pt13 2) =
    Ok (mkDLRepProof [Zq.pt11 1; Zq.pt11 4] ["x"; "y"] (Zq.pt13 2) false).
Proof.
  apply (initialize_validation [Zq.pt11 1; Zq.pt11 4] ["x"; "y"] (Zq.pt13 2)).
  - discriminate.
  - reflexivity.
  - intros g g' Hg Hg'.
    repeat (apply elem_of_cons in Hg as [->|Hg]);
      repeat (apply elem_of_cons in Hg' as [->|Hg']);
      try reflexivity; by apply elem_of_nil in Hg || by apply elem_of_nil in Hg'.
Defined.

(** C6 as stated fails: a statement whose [lhs] lies in the group of order 13
    while its generator lies in the group of order 11 is constructed without
    an error, by [initialize] and by [__init__]. *)
Lemma initialize_accepts_foreign_lhs :
  group (Zq.pt13 2) ≠ group (Zq.pt11 1)
  ∧ DLRepProof.initialize [Zq.pt11 1] ["x"] (Zq.pt13 2) =
      Ok (mkDLRepProof [Zq.pt11 1] ["x"] (Zq.pt13 2) false)
  ∧ DLRepProof.init (Zq.pt13 2) (mkRightSide [Zq.pt11 1] [mkSecret "x" None]) =
      Ok (mkDLRepProof [Zq.pt11 1] ["x"] (Zq.pt13 2) false).
Proof.
  split; [discriminate|]. split; reflexivity.
Qed.

(** ** [get_prover] *)

Section GetProver.
Context `{PetLib}.

(** On the path that [simulate] or an empty dictionary selects,
    [get_prover] returns whatever the module-level name [get_verifier]
    gives, and raises when that name is unbound. *)
Lemma get_prover_simulate_path module_get_verifier (self : DLRepProof)
    (secrets_dict : gmap string Z) :
  simulate self = true ∨ secrets_dict = ∅ →
  DLRepProof.get_prover module_get_verifier self secrets_dict =
    DLRepProof.call_get_verifier module_get_verifier.
Proof.
  intros Hsim. unfold DLRepProof.get_prover. by rewrite decide_True.
Qed.

(** On the other path a returned value is the prover of the statement. *)
Lemma get_prover_honest_path module_get_verifier (self : DLRepProof)
    (secrets_dict : gmap string Z) (r : Party) :
  simulate self = false → secrets_dict ≠ ∅ →
  DLRepProof.get_prover module_get_verifier self secrets_dict = Ok r →
  r = IsProver (DLRepProver_init (generators self) (secret_names self)
                  secrets_dict (lhs self)).
Proof.
  intros Hsim Hne. unfold DLRepProof.get_prover.
  rewrite decide_False by (intros [?|?]; congruence).
  repeat case_match; intros; by simplify_eq.
Qed.
End GetProver.

(** C9 — [get_prover] returns a prover. DLRep.py defines no function
    [get_verifier] at module level; with the name unbound, the call
    [get_verifier()] on the path that [simulate] or an empty dictionary
    selects raises [NameError] and returns no value. Whenever [get_prover] returns a value, that value
    is the [DLRepProver] with the statement's generators, secret names and
    [lhs] and the given dictionary, and never a verifier; and it does
    return this prover on every statement that is not marked for
    simulation with a non-empty dictionary whose keys are the statement's
    secret names. *)
Theorem get_prover_returns_prover `{PetLib} (self : DLRepProof)
    (secrets_dict : gmap string Z) :
  (∀ r, DLRepProof.get_prover None self secrets_dict = Ok r →
        r = IsProver (DLRepProver_init (generators self) (secret_names self)
                        secrets_dict (lhs self))
        ∧ simulate self = false ∧ secrets_dict ≠ ∅)
  ∧ (∀ v, DLRepProof.get_prover None self secrets_dict ≠ Ok (IsVerifier v))
  ∧ (simulate self = true ∨ secrets_dict = ∅ →
     DLRepProof.get_prover None self secrets_dict
       = Raise (NameError "get_verifier"))
  ∧ (simulate self = false → secrets_dict ≠ ∅ →
     dom secrets_dict = list_to_set (secret_names self) →
     DLRepProof.get_prover None self secrets_dict =
       Ok (IsProver (DLRepProver_init (generators self) (secret_names self)
                       secrets_dict (lhs self)))).
Proof.
  assert (∀ r, DLRepProof.get_prover None self secrets_dict = Ok r →
               r = IsProver (DLRepProver_init (generators self) (secret_names self)
                               secrets_dict (lhs self))
               ∧ simulate self = false ∧ secrets_dict ≠ ∅) as Hreturned.
  { intros r Hr.
    destruct (decide (simulate self = true ∨ secrets_dict = ∅)) as [Hsim|Hhonest].
    - by rewrite (get_prover_simulate_path None self secrets_dict Hsim) in Hr.
    - assert (simulate self = false) as Hflag
        by (destruct (simulate self); [destruct Hhonest; by left|done]).
      assert (secrets_dict ≠ ∅) as Hne by (intros ->; destruct Hhonest; by right).
      split; [|done]. by eapply get_prover_honest_path. }
  split; [exact Hreturned|]. split; [|split].
  - intros v Hv. by destruct (Hreturned _ Hv) as [? _].
  - intros Hsim. by rewrite get_prover_simulate_path.
  - intros Hsim Hne Hdom. unfold DLRepProof.get_prover.
    rewrite decide_False by (intros [?|?]; congruence).
    rewrite decide_False by (by rewrite <- Hdom, size_dom; intros ?).
    rewrite decide_False; [done|].
    rewrite Hdom, difference_diag_L, size_empty. lia.
Qed.

Lemma get_prover_returns_prover_witness :
  DLRepProof.get_prover None
    (mkDLRepProof Example1.gens Example1.names Example1.y false) Example1.values
  = Ok (IsProver (DLRepProver_init Example1.gens Example1.names Example1.values
                    Example1.y)).
Proof.
  refine (proj2 (proj2 (proj2 (get_prover_returns_prover
                   (mkDLRepProof Example1.gens Example1.names Example1.y false)
                   Example1.values))) _ _ _).
  - reflexivity.
  - intros Hempty. apply (f_equal (λ m : gmap string Z, m !! "x")) in Hempty.
    discriminate Hempty.
  - reflexivity.
Defined.

(** On the simulate path no value is returned, where [get_simulator] on the
    same statement returns a prover. *)
Example get_prover_simulate_path_raises :
  let stmt := mkDLRepProof Example1.gens Example1.names Example1.y false in
  DLRepProof.get_prover None stmt ∅ = Raise (NameError "get_verifier")
  ∧ DLRepProof.get_prover None (DLRepProof.set_simulate stmt) Example1.values
    = Raise (NameError "get_verifier")
  ∧ DLRepProof.get_simulator stmt =
      DLRepProver_init Example1.gens Example1.names ∅ Example1.y.
Proof.
  split; [reflexivity|]. split; reflexivity.
Qed.

(** ** The consistency checker *)

Section CheckGroupsDict.
Context `{PetLib}.

(** The entry of [word] in the dictionary. *)
Fixpoint assoc (mydict : list (string * list nat)) (word : string)
    : option (list nat) :=
  match mydict with
  | [] => None
  | (w, gen_idx) :: rest => if decide (w = word) then Some gen_idx else assoc rest word
  end.

(** The indices below [k] at which [word] stands in [names]. *)
Definition indices_upto (names : list string) (k : nat) (word : string) : list nat :=
  filter (λ i, names !! i = Some word) (seq 0 k).

Lemma assoc_append mydict word idx w :
  assoc (mydict_append mydict word idx) w =
  if decide (w = word) then Some (default [] (assoc mydict w) ++ [idx])%list
  else assoc mydict w.
Proof.
  induction mydict as [|[w' l] mydict IH]; simpl.
  - destruct (decide (word = w)), (decide (w = word)); by subst.
  - destruct (decide (w' = word)) as [->|Hne]; simpl.
    + destruct (decide (word = w)), (decide (w = word)); by subst.
    + destruct (decide (w' = w)) as [->|Hne'].
      * by rewrite decide_False.
      * apply IH.
Qed.

Lemma keys_append mydict word idx :
  (mydict_append mydict word idx).*1 =
  if decide (word ∈ mydict.*1) then mydict.*1 else (mydict.*1 ++ [word])%list.
Proof.
  induction mydict as [|[w' l] mydict IH].
  - destruct (decide (word ∈ ([] : list (string * list nat)).*1)) as [Hin|_];
      [by apply elem_of_nil in Hin|done].
  - change (((w', l) :: mydict).*1) with (w' :: mydict.*1).
    destruct (decide (word ∈ w' :: mydict.*1)) as [Hin|Hnin]; simpl;
      destruct (decide (w' = word)) as [->|Hne]; simpl; try done.
    + f_equal. etrans; [apply IH|]. rewrite decide_True; [done|].
      apply elem_of_cons in Hin as [?|?]; [congruence|done].
    + destruct Hnin. by left.
    + f_equal. etrans; [apply IH|]. rewrite decide_False; [done|].
      intros Hin. apply Hnin. by right.
Qed.

Lemma NoDup_keys_append mydict word idx :
  NoDup mydict.*1 → NoDup (mydict_append mydict word idx).*1.
Proof.
  intros Hnd. rewrite keys_append. case_decide; [done|].
  apply NoDup_app. split; [done|]. split.
  - intros w Hw ->%list_elem_of_singleton. done.
  - apply NoDup_singleton.
Qed.

Lemma elem_of_assoc mydict w l :
  NoDup mydict.*1 → (w, l) ∈ mydict ↔ assoc mydict w = Some l.
Proof.
  induction mydict as [|[w' l'] mydict IH]; simpl; intros Hnd.
  - split; [by intros ?%elem_of_nil|done].
  - apply NoDup_cons in Hnd as [Hnin Hnd].
    destruct (decide (w' = w)) as [->|Hne].
    + split.
      * intros [[= ->]|Hin]%elem_of_cons; [done|].
        destruct Hnin. apply list_elem_of_fmap. by exists (w, l).
      * intros [= ->]. by left.
    + rewrite <- IH by done. split.
      * intros [[= -> ->]|Hin]%elem_of_cons; [done|done].
      * intros Hin. by right.
Qed.

Lemma indices_upto_S names k w :
  indices_upto names (S k) w =
  (indices_upto names k w ++ if decide (names !! k = Some w) then [k] else [])%list.
Proof.
  unfold indices_upto. rewrite seq_S, filter_app. simpl. by f_equal.
Qed.

Lemma elem_of_indices_upto names k w i :
  i ∈ indices_upto names k w ↔ (i < k)%nat ∧ names !! i = Some w.
Proof.
  unfold indices_upto. rewrite list_elem_of_filter, elem_of_seq.
  split; intros [? ?]; split; (done || lia).
Qed.

(** The dictionary after the first [k] names. *)
Definition dict_inv (names : list string) (k : nat)
    (mydict : list (string * list nat)) : Prop :=
  NoDup mydict.*1
  ∧ ∀ w, assoc mydict w =
         match indices_upto names k w with [] => None | l => Some l end.

Lemma build_mydict_inv names : ∀ rest k mydict,
  (∀ i, rest !! i = names !! (k + i)%nat) →
  dict_inv names k mydict →
  dict_inv names (k + length rest) (build_mydict k rest mydict).
Proof.
  induction rest as [|word rest IH]; intros k mydict Hrest [Hnd Hinv]; simpl.
  - by rewrite Nat.add_0_r.
  - replace (k + S (length rest))%nat with (S k + length rest)%nat by lia.
    apply IH.
    + intros i. pose proof (Hrest (S i)) as Hi. simpl in Hi. rewrite Hi.
      f_equal. lia.
    + split; [by apply NoDup_keys_append|].
      intros w. rewrite assoc_append, indices_upto_S, Hinv.
      pose proof (Hrest 0%nat) as Hk. rewrite Nat.add_0_r in Hk. simpl in Hk.
      rewrite <- Hk.
      destruct (decide (w = word)) as [->|Hne].
      * rewrite decide_True by done.
        by destruct (indices_upto names k word).
      * rewrite decide_False by congruence. by rewrite app_nil_r.
Qed.

Lemma build_mydict_spec names w l :
  (w, l) ∈ build_mydict 0 names [] ↔
  l ≠ [] ∧ l = indices_upto names (length names) w.
Proof.
  destruct (build_mydict_inv names names 0%nat []) as [Hnd Hinv].
  - done.
  - split; [constructor|]. intros w'. by unfold indices_upto.
  - simpl in *. rewrite (elem_of_assoc _ _ _ Hnd), Hinv.
    destruct (indices_upto names (length names) w); split.
    + done.
    + by intros [? ->].
    + intros [= <-]. done.
    + by intros [_ ->].
Qed.
End CheckGroupsDict.

Section CheckGroupsProof.
Context `{PetLib}.

(** The exception that names the secret [word]. *)
Definition shared_secret_error (word : string) : Exn :=
  Exception "A shared secret has generators from different groups : secret"
    [AStr word].

(** [word] stands at two indices whose generators lie in different
    groups. *)
Definition conflict (names : list string) (gens : list EcPt) (word : string)
    : Prop :=
  ∃ i j gi gj,
    names !! i = Some word ∧ names !! j = Some word
    ∧ gens !! i = Some gi ∧ gens !! j = Some gj
    ∧ group gi ≠ group gj.

Lemma check_indices_spec gens word ref_group gen_idx :
  (∀ i, i ∈ gen_idx → (i < length gens)%nat) →
  (check_indices gens word ref_group gen_idx = Ok ()
   ∧ ∀ i g, i ∈ gen_idx → gens !! i = Some g → group g = ref_group)
  ∨ (check_indices gens word ref_group gen_idx = Raise (shared_secret_error word)
     ∧ ∃ i g, i ∈ gen_idx ∧ gens !! i = Some g ∧ group g ≠ ref_group).
Proof.
  induction gen_idx as [|index rest IH]; intros Hrange; simpl.
  - left. split; [done|]. intros i g Hi. by apply elem_of_nil in Hi.
  - destruct (lookup_lt_is_Some_2 gens index) as [g Hg];
      [apply Hrange; by left|].
    unfold py_index. rewrite Hg. simpl.
    destruct (decide (group g ≠ ref_group)) as [Hne|Heq].
    + right. split; [done|]. exists index, g. split; [by left|done].
    + destruct IH as [[HOk Hall]|[HRaise (i & g' & Hi & Hg' & Hne)]].
      * intros i Hi. apply Hrange. by right.
      * left. split; [done|]. intros i g' [->|Hi]%elem_of_cons Hg'.
        -- assert (g' = g) as -> by congruence.
           by destruct (decide (group g = ref_group)).
        -- by eapply Hall.
      * right. split; [done|]. exists i, g'. split; [by right|done].
Qed.

(** An entry of the dictionary passes when all its generators lie in the
    group of the first one, and fails when one of them does not. *)
Definition entry_ok (gens : list EcPt) (gen_idx : list nat) : Prop :=
  ∀ first ref i g,
    gen_idx !! 0%nat = Some first → gens !! first = Some ref →
    i ∈ gen_idx → gens !! i = Some g → group g = group ref.

Definition entry_bad (gens : list EcPt) (gen_idx : list nat) : Prop :=
  ∃ first ref i g,
    gen_idx !! 0%nat = Some first ∧ gens !! first = Some ref
    ∧ i ∈ gen_idx ∧ gens !! i = Some g ∧ group g ≠ group ref.

Lemma check_items_cons gens word first gen_idx rest ref :
  gens !! first = Some ref →
  check_items gens ((word, first :: gen_idx) :: rest) =
  match check_indices gens word (group ref) gen_idx with
  | Ok _ => check_items gens rest
  | Raise e => Raise e
  end.
Proof.
  intros Href. simpl. unfold py_index. simpl. rewrite Href. simpl.
  by destruct (decide (group ref ≠ group ref)).
Qed.

Lemma check_items_spec gens items :
  (∀ w l, (w, l) ∈ items → l ≠ [] ∧ ∀ i, i ∈ l → (i < length gens)%nat) →
  (check_items gens items = Ok ()
   ∧ ∀ w l, (w, l) ∈ items → entry_ok gens l)
  ∨ (∃ w l, (w, l) ∈ items ∧ entry_bad gens l
            ∧ check_items gens items = Raise (shared_secret_error w)).
Proof.
  induction items as [|[word gen_idx] rest IH]; intros Hrange.
  - left. split; [done|]. intros w l Hin. by apply elem_of_nil in Hin.
  - destruct (Hrange word gen_idx) as [Hne Hidx]; [by left|].
    destruct gen_idx as [|first gen_idx']; [done|].
    destruct (lookup_lt_is_Some_2 gens first) as [ref Href];
      [apply Hidx; by left|].
    rewrite (check_items_cons _ _ _ _ _ _ Href).
    destruct (check_indices_spec gens word (group ref) gen_idx')
      as [[HOk Hall]|[HRaise (i & g & Hi & Hg & Hdiff)]].
    + intros i Hi. apply Hidx. by right.
    + rewrite HOk.
      destruct IH as [[HOk' Hall']|(w & l & Hin & Hbad & HRaise)].
      * intros w l Hin. apply (Hrange w l). by right.
      * left. split; [done|].
        intros w l [[= -> ->]|Hin]%elem_of_cons; [|by eapply Hall'].
        intros first' ref' i g [= <-] Href' [->|Hi]%elem_of_cons Hg.
        -- congruence.
        -- assert (ref' = ref) as -> by congruence. by eapply Hall.
      * right. exists w, l. split; [by right|]. by split.
    + rewrite HRaise. right. exists word, (first :: gen_idx').
      split; [by left|]. split; [|done].
      exists first, ref, i, g. repeat split; try done. by right.
Qed.

Lemma check_groups_spec (names : list string) (gens : list EcPt) :
  (length names ≤ length gens)%nat →
  (check_groups names gens = Ok true ∧ ∀ w, ¬ conflict names gens w)
  ∨ (∃ w, conflict names gens w
          ∧ check_groups names gens = Raise (shared_secret_error w)).
Proof.
  intros Hlen. unfold check_groups.
  destruct (check_items_spec gens (build_mydict 0 names []))
    as [[HOk Hall]|(w & l & Hin & Hbad & HRaise)].
  - intros w l [Hne ->]%build_mydict_spec. split; [done|].
    intros i [Hi _]%elem_of_indices_upto. lia.
  - left. rewrite HOk. split; [done|].
    intros w (i & j & gi & gj & Hi & Hj & Hgi & Hgj & Hdiff).
    pose (l := indices_upto names (length names) w).
    assert (i ∈ l) as Hil
      by (apply elem_of_indices_upto; split; [by eapply lookup_lt_Some|done]).
    assert (j ∈ l) as Hjl
      by (apply elem_of_indices_upto; split; [by eapply lookup_lt_Some|done]).
    assert ((w, l) ∈ build_mydict 0 names []) as Hin.
    { apply build_mydict_spec. split; [|done]. intros Hnil.
      rewrite Hnil in Hil. by apply elem_of_nil in Hil. }
    specialize (Hall w l Hin).
    destruct (l !! 0%nat) as [first|] eqn:Hfirst.
    + assert (first ∈ l) as Hfl by (by eapply list_elem_of_lookup_2).
      apply elem_of_indices_upto in Hfl as [Hlt _].
      destruct (lookup_lt_is_Some_2 gens first) as [ref Href]; [lia|].
      apply Hdiff.
      rewrite (Hall first ref i gi Hfirst Href Hil Hgi).
      by rewrite (Hall first ref j gj Hfirst Href Hjl Hgj).
    + apply lookup_ge_None in Hfirst. destruct l; [|simpl in Hfirst; lia].
      by apply elem_of_nil in Hil.
  - right. exists w. split; [|by rewrite HRaise].
    apply build_mydict_spec in Hin as [Hne ->].
    destruct Hbad as (first & ref & i & g & Hfirst & Href & Hi & Hg & Hdiff).
    apply list_elem_of_lookup_2 in Hfirst.
    apply elem_of_indices_upto in Hfirst as [_ Hnfirst].
    apply elem_of_indices_upto in Hi as [_ Hni].
    exists i, first, g, ref. by repeat split.
Qed.
End CheckGroupsProof.

(** C2 — group coherence is enforced when an [AndProof] is built. The
    constructor runs [check_groups] on the secret names of the first child
    followed by those of the second, and on the generators likewise. When a
    secret name stands at two indices whose generators lie in different
    groups, the construction raises the exception of [check_groups] that
    names such a secret; when no name does, [check_groups] returns [True]
    and the construction succeeds; and the construction raises nothing
    else. Each child has one secret name per generator. *)
Theorem and_proof_group_coherence `{PetLib} {S1 S2 : Type}
    `{!Statement S1, !Statement S2} (proof1 : S1) (proof2 : S2) :
  let names := (get_secret_names proof1 ++ get_secret_names proof2)%list in
  let gens := (group_generators proof1 ++ group_generators proof2)%list in
  length (get_secret_names proof1) = length (group_generators proof1) →
  length (get_secret_names proof2) = length (group_generators proof2) →
  ((∃ w, conflict names gens w) →
   ∃ w, conflict names gens w
        ∧ check_groups names gens = Raise (shared_secret_error w)
        ∧ AndProof.init proof1 proof2 = Raise (shared_secret_error w))
  ∧ ((∀ w, ¬ conflict names gens w) →
     check_groups names gens = Ok true
     ∧ AndProof.init proof1 proof2 = Ok (AndProof.mk proof1 proof2 gens names))
  ∧ (∀ e, AndProof.init proof1 proof2 = Raise e →
          ∃ w, e = shared_secret_error w ∧ conflict names gens w).
Proof.
  intros names gens Hlen1 Hlen2.
  assert (length names ≤ length gens)%nat as Hlen.
  { unfold names, gens. rewrite !length_app. lia. }
  assert (AndProof.init proof1 proof2 =
          match check_groups names gens with
          | Ok _ => Ok (AndProof.mk proof1 proof2 gens names)
          | Raise e => Raise e
          end) as Hinit by reflexivity.
  destruct (check_groups_spec names gens Hlen) as [[HOk Hnone]|(w & Hw & HRaise)].
  - rewrite HOk in Hinit. split; [|split].
    + intros [w Hw]. by destruct (Hnone w).
    + done.
    + intros e He. congruence.
  - rewrite HRaise in Hinit. split; [|split].
    + intros _. by exists w.
    + intros Hnone. by destruct (Hnone w).
    + intros e He. exists w. split; [congruence|done].
Qed.

(** Two conjuncts that share the secret [x], once on generators of one group
    and once on generators of two groups. *)
Module Example3.
Import Zq.
Definition left_stmt : Leaf := mkLeaf [pt11 1; pt11 4] ["x"; "y"].
Definition right_stmt : Leaf := mkLeaf [pt11 6; pt11 7] ["x"; "z"].
Definition foreign_stmt : Leaf := mkLeaf [pt13 6; pt13 7] ["x"; "z"].
End Example3.

Lemma and_proof_group_coherence_witness :
  ∃ w,
    conflict ["x"; "y"; "x"; "z"]
      [Zq.pt11 1; Zq.pt11 4; Zq.pt13 6; Zq.pt13 7] w
    ∧ check_groups ["x"; "y"; "x"; "z"]
        [Zq.pt11 1; Zq.pt11 4; Zq.pt13 6; Zq.pt13 7]
      = Raise (shared_secret_error w)
    ∧ AndProof.init Example3.left_stmt Example3.foreign_stmt
      = Raise (shared_secret_error w).
Proof.
  refine (proj1 (and_proof_group_coherence Example3.left_stmt
                   Example3.foreign_stmt _ _) _).
  - reflexivity.
  - reflexivity.
  - exists "x", 0%nat, 2%nat, (Zq.pt11 1), (Zq.pt13 6).
    repeat split; try reflexivity. discriminate.
Defined.

Example and_proof_one_group :
  AndProof.init Example3.left_stmt Example3.right_stmt =
    Ok (AndProof.mk Example3.left_stmt Example3.right_stmt
          [Zq.pt11 1; Zq.pt11 4; Zq.pt11 6; Zq.pt11 7] ["x"; "y"; "x"; "z"]).
Proof. reflexivity. Qed.

Example and_proof_two_groups :
  AndProof.init Example3.left_stmt Example3.foreign_stmt =
    Raise (shared_secret_error "x").
Proof. reflexivity. Qed.

(** ** The And verifier *)

Section AndVerifier.
Context `{PetLib}.
Context {V1 C1 R1 V2 C2 R2 : Type}.
Context `{!SigmaProtocol.Verifier V1 C1 R1, !SigmaProtocol.Verifier V2 C2 R2}.

(** The verifier as [send_challenge] leaves it. *)
Definition challenged (self : AndProofVerifier.t V1 C1 V2 C2) (v1 : V1)
    (commitment : AndProofCommitment C1 C2) (c : Z)
    : AndProofVerifier.t V1 C1 V2 C2 :=
  AndProofVerifier.mk v1 (AndProofVerifier.verifier2 self) (Some commitment) (Some c).

(** The two children's verifications against one challenge, the second one
    only run when the first one accepts. *)
Definition both_verify (v1 : V1) (v2 : V2) (responses : AndProofResponse R1 R2)
    (commitment : AndProofCommitment C1 C2) (c : Z) : Result bool :=
  match SigmaProtocol.verify v1 (response1 responses)
          (Some (commitment1 commitment)) (Some c) with
  | Ok true => SigmaProtocol.verify v2 (response2 responses)
                 (Some (commitment2 commitment)) (Some c)
  | Ok false => Ok false
  | Raise e => Raise e
  end.

Lemma both_verify_andb v1 v2 responses commitment c b1 b2 :
  SigmaProtocol.verify v1 (response1 responses)
    (Some (commitment1 commitment)) (Some c) = Ok b1 →
  SigmaProtocol.verify v2 (response2 responses)
    (Some (commitment2 commitment)) (Some c) = Ok b2 →
  both_verify v1 v2 responses commitment c = Ok (b1 && b2).
Proof.
  intros Hb1 Hb2. unfold both_verify. rewrite Hb1. destruct b1; [|done].
  by rewrite Hb2.
Qed.

Lemma verify_unfold (self : AndProofVerifier.t V1 C1 V2 C2) responses
    commitment0 challenge0 commitment c :
  (commitment0 = Some commitment
   ∨ commitment0 = None ∧ AndProofVerifier.commitment self = Some commitment) →
  (challenge0 = Some c
   ∨ challenge0 = None ∧ AndProofVerifier.and_challenge self = Some c) →
  AndProofVerifier.verify self responses commitment0 challenge0 =
    both_verify (AndProofVerifier.verifier1 self) (AndProofVerifier.verifier2 self)
      responses commitment c.
Proof.
  intros Hcom Hc. unfold AndProofVerifier.verify, both_verify.
  destruct Hcom as [->|[-> ->]], Hc as [->|[-> ->]]; simpl;
    by destruct (SigmaProtocol.verify _ _ _ _) as [[|]|].
Qed.

Lemma send_challenge_unfold (self : AndProofVerifier.t V1 C1 V2 C2)
    (commitment : AndProofCommitment C1 C2) (t : Tape) :
  AndProofVerifier.send_challenge self commitment t =
  match SigmaProtocol.send_challenge (AndProofVerifier.verifier1 self)
          (commitment1 commitment) t with
  | Ok (c, v1, t') => Ok (c, challenged self v1 commitment c, t')
  | Raise e => Raise e
  end.
Proof.
  unfold AndProofVerifier.send_challenge. unfold_M.
  by destruct (SigmaProtocol.send_challenge _ _ _) as [[[c v1] t']|].
Qed.
End AndVerifier.

(** C4 — one challenge for the whole conjunction. When the first child
    answers the first sub-commitment with the challenge [c],
    [send_challenge] of the And verifier returns exactly [c] and stores the
    commitment it received and [c]. [verify] afterwards runs the first
    child on the first sub-commitment and sub-response and the second child
    on the second ones, both against [c], and returns the conjunction of
    their answers (the second child is asked only when the first one
    accepts). A commitment or a challenge that is passed to [verify] is
    used for both children in place of the stored one. *)
Theorem and_verifier_single_challenge `{PetLib} {V1 C1 R1 V2 C2 R2 : Type}
    `{!SigmaProtocol.Verifier V1 C1 R1, !SigmaProtocol.Verifier V2 C2 R2}
    (self : AndProofVerifier.t V1 C1 V2 C2)
    (commitment : AndProofCommitment C1 C2) (responses : AndProofResponse R1 R2)
    (t t' : Tape) (c : Z) (v1 : V1) :
  SigmaProtocol.send_challenge (AndProofVerifier.verifier1 self)
    (commitment1 commitment) t = Ok (c, v1, t') →
  let self' := challenged self v1 commitment c in
  let v2 := AndProofVerifier.verifier2 self in
  AndProofVerifier.send_challenge self commitment t = Ok (c, self', t')
  ∧ AndProofVerifier.commitment self' = Some commitment
  ∧ AndProofVerifier.and_challenge self' = Some c
  ∧ AndProofVerifier.verify self' responses None None =
      both_verify v1 v2 responses commitment c
  ∧ (∀ b1 b2,
       SigmaProtocol.verify v1 (response1 responses)
         (Some (commitment1 commitment)) (Some c) = Ok b1 →
       SigmaProtocol.verify v2 (response2 responses)
         (Some (commitment2 commitment)) (Some c) = Ok b2 →
       AndProofVerifier.verify self' responses None None = Ok (b1 && b2))
  ∧ (∀ commitment' c',
       AndProofVerifier.verify self' responses (Some commitment') (Some c') =
         both_verify v1 v2 responses commitment' c'
       ∧ AndProofVerifier.verify self' responses (Some commitment') None =
           both_verify v1 v2 responses commitment' c
       ∧ AndProofVerifier.verify self' responses None (Some c') =
           both_verify v1 v2 responses commitment c').
Proof.
  intros Hsend self' v2.
  split; [by rewrite send_challenge_unfold, Hsend|].
  split; [done|]. split; [done|].
  assert (AndProofVerifier.verify self' responses None None =
          both_verify v1 v2 responses commitment c) as Hverify
    by (apply verify_unfold; by right).
  split; [done|]. split.
  - intros b1 b2 Hb1 Hb2. rewrite Hverify. by apply both_verify_andb.
  - intros commitment' c'. repeat split; apply verify_unfold;
      (by left) || (by right).
Qed.

(** The verifier of [Example1]'s statement twice, as the two children. *)
Module Example4.
Definition verifier : AndProofVerifier.t DLRepVerifier EcPt DLRepVerifier EcPt :=
  AndProofVerifier.init Example1.verifier Example1.verifier.
Definition commitment : AndProofCommitment EcPt EcPt :=
  mkAndProofCommitment (Zq.pt11 2) (Zq.pt11 9).
Definition challenged1 : DLRepVerifier :=
  mkDLRepVerifier Example1.gens Example1.names Example1.y (Some (Zq.pt11 2)) (Some 5).
End Example4.

Lemma and_verifier_single_challenge_witness :
  AndProofVerifier.send_challenge Example4.verifier Example4.commitment Zq.tape0 =
    Ok (5, challenged Example4.verifier Example4.challenged1 Example4.commitment 5,
        λ n, Zq.tape0 (S n)).
Proof.
  refine (proj1 (and_verifier_single_challenge Example4.verifier
                   Example4.commitment (mkAndProofResponse [1; 2] [3; 4])
                   Zq.tape0 (λ n, Zq.tape0 (S n)) 5 Example4.challenged1 _)).
  reflexivity.
Defined.

(** ** The And prover *)

Section AndProver.
Context `{PetLibLaws}.

(** What a commitment with a given dictionary leaves in the prover. *)
Lemma commit_Some_inv (self self' : DLRepProver) d t t' commitment :
  DLRepProver.commit self (Some d) t = Ok (commitment, self', t') →
  ∃ ks1, mapM (dict_get d) (secret_names self) = Ok ks1
         ∧ ks self' = Some ks1
         ∧ secret_names self' = secret_names self
         ∧ generators self' = generators self
         ∧ t' = t.
Proof.
  unfold DLRepProver.commit. unfold_M. intros Hrun.
  repeat case_match; simplify_eq. by eexists.
Qed.

(** The randomizers of the conjunction cover the secret names of both
    children. *)
Lemma and_get_randomizers_covers
    (self : AndProofProver.t DLRepProver DLRepProver) t :
  (length (secret_names (AndProofProver.prover1 self))
   ≤ length (generators (AndProofProver.prover1 self)))%nat →
  (length (secret_names (AndProofProver.prover2 self))
   ≤ length (generators (AndProofProver.prover2 self)))%nat →
  ∃ d t', AndProofProver.get_randomizers self t = Ok (d, t')
    ∧ Forall (λ n, is_Some (d !! n)) (secret_names (AndProofProver.prover1 self))
    ∧ Forall (λ n, is_Some (d !! n)) (secret_names (AndProofProver.prover2 self)).
Proof.
  intros Hlen1 Hlen2.
  destruct (get_randomizers_covers (AndProofProver.prover1 self) t Hlen1)
    as (d1 & t1 & Hrun1 & Hcov1).
  destruct (get_randomizers_covers (AndProofProver.prover2 self) t1 Hlen2)
    as (d2 & t2 & Hrun2 & Hcov2).
  exists (d2 ∪ d1), t2. split.
  - unfold AndProofProver.get_randomizers. unfold_M. simpl.
    by rewrite Hrun1, Hrun2.
  - split; (eapply Forall_impl; [eassumption|]); intros n [v Hv].
    + destruct (d2 !! n) as [v2|] eqn:Hv2.
      * exists v2. by apply lookup_union_Some_l.
      * exists v. rewrite lookup_union_r; done.
    + exists v. by apply lookup_union_Some_l.
Qed.

(** The dictionary that a run of [commit] hands to both children. *)
Definition run_randomizers (self : AndProofProver.t DLRepProver DLRepProver)
    (randomizers_dict : option (gmap string Z)) (t : Tape)
    : Result (gmap string Z * Tape) :=
  match randomizers_dict with
  | None => AndProofProver.get_randomizers self t
  | Some d => Ok (d, t)
  end.

Lemma and_commit_unfold (self : AndProofProver.t DLRepProver DLRepProver)
    randomizers_dict t :
  AndProofProver.commit self randomizers_dict t =
  match run_randomizers self randomizers_dict t with
  | Ok (d, t1) =>
      match DLRepProver.commit (AndProofProver.prover1 self) (Some d) t1 with
      | Ok (c1, p1, t2) =>
          match DLRepProver.commit (AndProofProver.prover2 self) (Some d) t2 with
          | Ok (c2, p2, t3) =>
              Ok (mkAndProofCommitment c1 c2, AndProofProver.mk p1 p2, t3)
          | Raise e => Raise e
          end
      | Raise e => Raise e
      end
  | Raise e => Raise e
  end.
Proof.
  unfold AndProofProver.commit, run_randomizers. unfold_M. simpl.
  destruct randomizers_dict as [d|]; simpl.
  - destruct (DLRepProver.commit _ _ _) as [[[c1 p1] t2]|]; [|done].
    by destruct (DLRepProver.commit _ _ _) as [[[c2 p2] t3]|].
  - destruct (AndProofProver.get_randomizers self t) as [[d t1]|]; [|done].
    destruct (DLRepProver.commit _ _ _) as [[[c1 p1] t2]|]; [|done].
    by destruct (DLRepProver.commit _ _ _) as [[[c2 p2] t3]|].
Qed.
End AndProver.

(** C5 — the conjuncts share their randomizers. [commit] of an And prover
    hands one dictionary to both children: the one it is given, or the
    merged one of [get_randomizers] when it is given none. Whenever it
    returns, each child has read the randomizer of its [i]-th term in that
    dictionary under the name of the term's secret, so two terms of the two
    conjuncts that bear the same secret name are committed with the same
    randomizer. And it does return when both children have secrets, the
    generators of each child lie in one group, each child has one secret
    name per generator, and a given dictionary has all the secret names. *)
Theorem and_prover_shares_randomizers `{PetLibLaws} (G1 G2 : EcGroup)
    (self : AndProofProver.t DLRepProver DLRepProver)
    (randomizers_dict : option (gmap string Z)) (t : Tape) :
  let p1 := AndProofProver.prover1 self in
  let p2 := AndProofProver.prover2 self in
  (∀ commitment self' t',
     AndProofProver.commit self randomizers_dict t = Ok (commitment, self', t') →
     ∃ d t1 ks1 ks2,
       run_randomizers self randomizers_dict t = Ok (d, t1)
       ∧ ks (AndProofProver.prover1 self') = Some ks1
       ∧ ks (AndProofProver.prover2 self') = Some ks2
       ∧ (∀ i n, secret_names p1 !! i = Some n →
                 ∃ k, ks1 !! i = Some k ∧ d !! n = Some k)
       ∧ (∀ j n, secret_names p2 !! j = Some n →
                 ∃ k, ks2 !! j = Some k ∧ d !! n = Some k)
       ∧ (∀ i j n, secret_names p1 !! i = Some n →
                   secret_names p2 !! j = Some n →
                   ∃ k, ks1 !! i = Some k ∧ ks2 !! j = Some k))
  ∧ (secret_values p1 ≠ ∅ → secret_values p2 ≠ ∅ →
     well_formed G1 p1 → well_formed G2 p2 →
     (∀ d, randomizers_dict = Some d →
           Forall (λ n, is_Some (d !! n)) (secret_names p1)
           ∧ Forall (λ n, is_Some (d !! n)) (secret_names p2)) →
     ∃ commitment self' t',
       AndProofProver.commit self randomizers_dict t = Ok (commitment, self', t')).
Proof.
  intros p1 p2. split.
  - intros commitment self' t' Hrun. rewrite and_commit_unfold in Hrun.
    destruct (run_randomizers self randomizers_dict t) as [[d t1]|] eqn:Hd;
      [|done].
    destruct (DLRepProver.commit (AndProofProver.prover1 self) (Some d) t1)
      as [[[c1 p1'] t2]|] eqn:Hc1; [|done].
    destruct (DLRepProver.commit (AndProofProver.prover2 self) (Some d) t2)
      as [[[c2 p2'] t3]|] eqn:Hc2; [|done].
    injection Hrun as <- <- <-.
    apply commit_Some_inv in Hc1 as (ks1 & Hks1 & Hk1 & _).
    apply commit_Some_inv in Hc2 as (ks2 & Hks2 & Hk2 & _).
    exists d, t1, ks1, ks2. split; [done|]. split; [done|]. split; [done|].
    split; [|split].
    + intros i n Hn. by eapply mapM_dict_get_lookup.
    + intros j n Hn. by eapply mapM_dict_get_lookup.
    + intros i j n Hi Hj.
      destruct (mapM_dict_get_lookup _ _ _ _ _ Hks1 Hi) as (k & Hk & Hdk).
      destruct (mapM_dict_get_lookup _ _ _ _ _ Hks2 Hj) as (k' & Hk' & Hdk').
      exists k. split; [done|]. congruence.
  - intros Hv1 Hv2 (Hne1 & HG1 & Hlen1) (Hne2 & HG2 & Hlen2) Hdict.
    rewrite and_commit_unfold.
    assert (∃ d t1, run_randomizers self randomizers_dict t = Ok (d, t1)
              ∧ Forall (λ n, is_Some (d !! n)) (secret_names p1)
              ∧ Forall (λ n, is_Some (d !! n)) (secret_names p2))
      as (d & t1 & -> & Hcov1 & Hcov2).
    { destruct randomizers_dict as [d|]; simpl.
      - exists d, t. split; [done|]. by apply Hdict.
      - apply and_get_randomizers_covers; fold p1 p2; lia. }
    destruct (mapM_dict_get_total d _ Hcov1) as [ks1 Hks1].
    destruct (mapM_dict_get_total d _ Hcov2) as [ks2 Hks2].
    rewrite (commit_Some_ok G1 p1 d ks1) by done.
    rewrite (commit_Some_ok G2 p2 d ks2) by done.
    by eexists _, _, _.
Qed.

(** Two provers that share the secret [x]. *)
Module Example5.
Import Zq.
Definition values1 : gmap string Z := <["x" := 3]> (<["y" := 5]> ∅).
Definition values2 : gmap string Z := <["x" := 3]> (<["z" := 7]> ∅).
Definition prover1 : DLRepProver :=
  DLRepProver_init [pt11 1; pt11 4] ["x"; "y"] values1
    (relation_point G11 [3; 5] [pt11 1; pt11 4]).
Definition prover2 : DLRepProver :=
  DLRepProver_init [pt11 6; pt11 7] ["x"; "z"] values2
    (relation_point G11 [3; 7] [pt11 6; pt11 7]).
Definition prover : AndProofProver.t DLRepProver DLRepProver :=
  AndProofProver.mk prover1 prover2.
End Example5.

Lemma and_prover_shares_randomizers_witness :
  ∃ commitment self' t',
    AndProofProver.commit Example5.prover None Zq.tape0 = Ok (commitment, self', t').
Proof.
  refine (proj2 (and_prover_shares_randomizers Zq.G11 Zq.G11 Example5.prover
                   None Zq.tape0) _ _ _ _ _).
  - intros Hempty. apply (f_equal (λ m : gmap string Z, m !! "x")) in Hempty.
    discriminate Hempty.
  - intros Hempty. apply (f_equal (λ m : gmap string Z, m !! "x")) in Hempty.
    discriminate Hempty.
  - split; [discriminate|]. split; [|reflexivity]. repeat constructor.
  - split; [discriminate|]. split; [|reflexivity]. repeat constructor.
  - intros d Hd. discriminate Hd.
Defined.

Example and_prover_run :
  match AndProofProver.commit Example5.prover None Zq.tape0 with
  | Ok (_, self', _) =>
      Some (ks (AndProofProver.prover1 self'), ks (AndProofProver.prover2 self'))
  | Raise _ => None
  end = Some (Some [8; 1], Some [8; 4]).
Proof. vm_compute. reflexivity. Qed.

(** ** Bit decomposition *)

Section Decompose.
Context `{PetLib}.

(** The number that a list of bits, least significant first, stands for. *)
Definition bits_value (bits : list Z) : Z := foldr (λ b acc, b + 2 * acc) 0 bits.

Definition bit_of (value : Z) (i : Z) : Z := if is_bit_set value i then 1 else 0.

Lemma num_bits_nonneg value : 0 ≤ num_bits value.
Proof.
  unfold num_bits. case_decide; [done|]. pose proof (Z.log2_nonneg (Z.abs value)). lia.
Qed.

Lemma bit_above_num_bits value i : num_bits value ≤ i → is_bit_set value i = false.
Proof.
  unfold num_bits, is_bit_set. case_decide as Hv.
  - subst. intros _. apply Z.testbit_0_l.
  - intros Hi. apply Z.bits_above_log2; lia.
Qed.

Lemma lookup_py_range n (i : nat) :
  (i < Z.to_nat n)%nat → py_range n !! i = Some (Z.of_nat i).
Proof.
  intros Hi. unfold py_range. rewrite list_lookup_fmap.
  by rewrite lookup_seq_lt.
Qed.

Lemma length_py_range n : length (py_range n) = Z.to_nat n.
Proof. unfold py_range. by rewrite length_fmap, length_seq. Qed.

Lemma decompose_Raise value n :
  n < num_bits value →
  decompose_into_n_bits value n =
    Raise (Exception "Not enough bits to represent value" []).
Proof.
  intros Hn. unfold decompose_into_n_bits.
  rewrite length_fmap, length_py_range.
  pose proof (num_bits_nonneg value). by rewrite decide_True by lia.
Qed.

Lemma decompose_Ok value n :
  num_bits value ≤ n →
  ∃ bits, decompose_into_n_bits value n = Ok bits
          ∧ length bits = Z.to_nat n
          ∧ ∀ i : nat, (i < Z.to_nat n)%nat →
                       bits !! i = Some (bit_of value (Z.of_nat i)).
Proof.
  intros Hn. unfold decompose_into_n_bits.
  rewrite length_fmap, length_py_range.
  pose proof (num_bits_nonneg value) as Hnb.
  rewrite decide_False by lia. eexists. split; [done|]. split.
  - rewrite length_app, length_fmap, length_py_range, length_replicate. lia.
  - intros i Hi. destruct (decide (i < Z.to_nat (num_bits value))%nat) as [Hlt|Hge].
    + rewrite lookup_app_l by (rewrite length_fmap, length_py_range; lia).
      by rewrite list_lookup_fmap, lookup_py_range.
    + rewrite lookup_app_r by (rewrite length_fmap, length_py_range; lia).
      rewrite length_fmap, length_py_range, lookup_replicate_2 by lia.
      unfold bit_of. by rewrite bit_above_num_bits by lia.
Qed.

Lemma bits_value_testbit (bits : list Z) : ∀ value,
  0 ≤ value < 2 ^ Z.of_nat (length bits) →
  (∀ i : nat, (i < length bits)%nat →
     bits !! i = Some (if Z.testbit value (Z.of_nat i) then 1 else 0)) →
  bits_value bits = value.
Proof.
  induction bits as [|b bits IH]; intros value Hrange Hbits; simpl in *.
  - change (2 ^ 0) with 1 in Hrange. lia.
  - pose proof (Hbits 0%nat ltac:(lia)) as Hb0. simpl in Hb0.
    injection Hb0 as ->.
    rewrite (IH (Z.div2 value)).
    + pose proof (Z.div2_odd value) as Hodd.
      destruct (Z.odd value); simpl in Hodd; lia.
    + rewrite Z.div2_div. split; [apply Z.div_pos; lia|].
      apply Z.div_lt_upper_bound; [lia|].
      replace (Z.of_nat (S (length bits))) with (Z.succ (Z.of_nat (length bits)))
        in Hrange by lia.
      rewrite Z.pow_succ_r in Hrange by lia. lia.
    + intros i Hi. pose proof (Hbits (S i) ltac:(lia)) as Hbi. simpl in Hbi.
      rewrite Hbi. rewrite Z.div2_spec, Z.shiftr_spec by lia.
      by replace (Z.of_nat i + 1) with (Z.of_nat (S i)) by lia.
Qed.

Lemma num_bits_bound value n :
  0 ≤ value → num_bits value ≤ n → value < 2 ^ n.
Proof.
  unfold num_bits. intros Hv Hn. case_decide as H0.
  - subst. apply Z.pow_pos_nonneg; lia.
  - rewrite Z.abs_eq in Hn by lia.
    pose proof (Z.log2_spec value ltac:(lia)) as [_ Hlt].
    eapply Z.lt_le_trans; [exact Hlt|].
    apply Z.pow_le_mono_r; lia.
Qed.

Lemma decompose_value value n bits :
  0 ≤ value → decompose_into_n_bits value n = Ok bits → bits_value bits = value.
Proof.
  intros Hv Hdec.
  destruct (decide (n < num_bits value)) as [Hlt|Hge].
  - by rewrite decompose_Raise in Hdec.
  - destruct (decompose_Ok value n) as (bits' & Hdec' & Hlen & Hbits); [lia|].
    assert (bits' = bits) as -> by congruence.
    pose proof (num_bits_nonneg value).
    apply bits_value_testbit.
    + rewrite Hlen, Z2Nat.id by lia. split; [done|].
      apply num_bits_bound; lia.
    + intros i Hi. rewrite Hbits by lia. unfold bit_of, is_bit_set.
      by rewrite Z.abs_eq.
Qed.
End Decompose.

Section Precommit.
Context `{PetLib}.

Lemma internal_precommit_out_of_range (self : PowerTwoRangeProver.t) (t : Tape)
    vars s0 v :
  secret_vars (PowerTwoRangeProver.proof self) = Some vars →
  vars !! 0%nat = Some s0 →
  value s0 = Some v →
  nr_bits (PowerTwoRangeProver.proof self) < num_bits v →
  PowerTwoRangeProver.internal_precommit self t =
    Raise (Exception "Not enough bits to represent value" []).
Proof.
  intros Hvars Hs0 Hv Hn. unfold PowerTwoRangeProver.internal_precommit.
  unfold_M. rewrite Hvars. simpl. unfold py_index. rewrite Hs0, Hv.
  by rewrite decompose_Raise.
Qed.
End Precommit.

(** C8 — a value that does not fit is rejected.
    [decompose_into_n_bits(v, n)] raises exactly when [v.num_bits() > n].
    Otherwise it returns a list of exactly [n] bits whose [i]-th entry is
    bit [i] of the magnitude of [v], least significant bit first, with
    zeros above [v.num_bits()]; for [v >= 0] these bits add up to [v].
    Hence [internal_precommit] raises that error for a prover whose value
    has more bits than the [nr_bits] of its statement. *)
Theorem decompose_into_n_bits_spec `{PetLib} (v n : Z) :
  ((∃ e, decompose_into_n_bits v n = Raise e) ↔ n < num_bits v)
  ∧ (n < num_bits v →
     decompose_into_n_bits v n =
       Raise (Exception "Not enough bits to represent value" []))
  ∧ (num_bits v ≤ n →
     ∃ bits, decompose_into_n_bits v n = Ok bits
             ∧ length bits = Z.to_nat n
             ∧ (∀ i : nat, (i < Z.to_nat n)%nat →
                  bits !! i = Some (if Z.testbit (Z.abs v) (Z.of_nat i) then 1 else 0))
             ∧ (∀ i : nat, num_bits v ≤ Z.of_nat i → (i < Z.to_nat n)%nat →
                  bits !! i = Some 0)
             ∧ (0 ≤ v → bits_value bits = v))
  ∧ (∀ (self : PowerTwoRangeProver.t) (t : Tape) vars s0,
       secret_vars (PowerTwoRangeProver.proof self) = Some vars →
       vars !! 0%nat = Some s0 →
       value s0 = Some v →
       nr_bits (PowerTwoRangeProver.proof self) = n →
       n < num_bits v →
       PowerTwoRangeProver.internal_precommit self t =
         Raise (Exception "Not enough bits to represent value" [])).
Proof.
  split; [|split; [|split]].
  - split.
    + intros [e He]. destruct (decide (n < num_bits v)) as [|Hge]; [done|].
      destruct (decompose_Ok v n) as (bits & Hbits & _); [lia|]. congruence.
    + intros Hlt. eexists. by apply decompose_Raise.
  - apply decompose_Raise.
  - intros Hn. destruct (decompose_Ok v n Hn) as (bits & Hdec & Hlen & Hbits).
    exists bits. repeat split; try done.
    + intros i Hlow Hi. rewrite Hbits by done. unfold bit_of.
      by rewrite bit_above_num_bits.
    + intros Hv. by eapply decompose_value.
  - intros self t vars s0 Hvars Hs0 Hv <- Hlt.
    by eapply internal_precommit_out_of_range.
Qed.

(** The statement [0 <= v < 2^5] for the commitment [10 * g + 6 * h], and a
    prover for the value 32 that does not fit. *)
Module Example6.
Import Zq.
Definition g : EcPt := pt11 1.
Definition h : EcPt := pt11 3.
Definition com : EcPt := pt_add (pt_mul 10 g) (pt_mul 6 h).
Definition fresh (i : nat) : string := "r".
Definition stmt : PowerTwoRangeProof :=
  PowerTwoRangeProof.init fresh com g h 5 (mkSecret "v" (Some 10)) (mkSecret "r" (Some 6)).
Definition verifier_stmt : PowerTwoRangeProof :=
  PowerTwoRangeProof.init fresh com g h 5 (mkSecret "v" None) (mkSecret "r" None).
Definition too_large : PowerTwoRangeProof :=
  PowerTwoRangeProof.init fresh com g h 5 (mkSecret "v" (Some 32)) (mkSecret "r" (Some 6)).
End Example6.

Lemma decompose_into_n_bits_spec_witness :
  PowerTwoRangeProver.internal_precommit
    (PowerTwoRangeProver.mk Example6.too_large) Zq.tape0 =
    Raise (Exception "Not enough bits to represent value" []).
Proof.
  refine (proj2 (proj2 (proj2 (decompose_into_n_bits_spec 32 5)))
            (PowerTwoRangeProver.mk Example6.too_large) Zq.tape0
            [mkSecret "v" (Some 32); mkSecret "r" (Some 6)] (mkSecret "v" (Some 32))
            _ _ _ _ _).
  - reflexivity.
  - reflexivity.
  - reflexivity.
  - reflexivity.
  - reflexivity.
Defined.

Example decompose_ten : decompose_into_n_bits 10 5 = Ok [0; 1; 0; 1; 0].
Proof. reflexivity. Qed.

Example decompose_thirty_two :
  decompose_into_n_bits 32 5 = Raise (Exception "Not enough bits to represent value" []).
Proof. reflexivity. Qed.

(** ** The range proof's precommitment *)

Section Pedersen.
Context `{PetLibLaws}.
Variables (G : EcGroup) (g h : EcPt).
Hypothesis Hg : group g = G.
Hypothesis Hh : group h = G.

(** The commitment to [b] with the randomizer [v]. *)
Definition pedersen (b v : Z) : EcPt := pt_add (pt_mul b g) (pt_mul v h).

Lemma group_pedersen b v : group (pedersen b v) = G.
Proof. unfold pedersen. rewrite group_add; rewrite !group_mul; congruence. Qed.

Lemma pedersen_add b v b' v' :
  pt_add (pedersen b v) (pedersen b' v') = pedersen (b + b') (v + v').
Proof.
  unfold pedersen. rewrite (add_swap _ _ _ _ G) by (by rewrite group_mul).
  by rewrite <- !mul_add_l.
Qed.

Lemma pedersen_mul k b v : pt_mul k (pedersen b v) = pedersen (k * b) (k * v).
Proof.
  unfold pedersen. rewrite mul_add_r by (rewrite !group_mul; congruence).
  by rewrite !mul_mul.
Qed.

Lemma pedersen_0 : pedersen 0 0 = infinite G.
Proof.
  unfold pedersen. rewrite !mul_0, Hg, Hh.
  rewrite <- (group_infinite G) at 1. apply add_infinite_l.
Qed.

Lemma pedersen_mod b v v' :
  v mod order G = v' mod order G → pedersen b v = pedersen b v'.
Proof.
  intros Hmod. unfold pedersen. f_equal.
  rewrite <- (mul_mod v), <- (mul_mod v'). by rewrite Hh, Hmod.
Qed.

(** The weighted sum [sum_i 2^i * v_i]. *)
Definition weighted (vs : list Z) : Z := foldr (λ v acc, v + 2 * acc) 0 vs.

(** The randomizers as [internal_precommit] leaves them. *)
Definition with_values (rs : list Secret) (vals : list Z) : list Secret :=
  zip_with (λ r v, mkSecret (name r) (Some v)) rs vals.

Lemma draw_randomizers_ok q (rs : list Secret) : ∀ t,
  ∃ vals t', PowerTwoRangeProver.draw_randomizers q rs t = Ok (with_values rs vals, t')
             ∧ length vals = length rs.
Proof.
  induction rs as [|r rs IH]; intros t; simpl.
  - by exists [], t.
  - unfold_M. unfold random.
    destruct (IH (λ n, t (S n))) as (vals & t' & Hrun & Hlen).
    rewrite Hrun. exists (t 0%nat mod q :: vals), t'. split; [done|].
    simpl. by rewrite Hlen.
Qed.

Lemma precommitment_points (bits vals : list Z) (rs : list Secret) :
  length vals = length rs →
  mapM (λ '(b, r),
          v ← PowerTwoRangeProver.value_of r;
          P ← ec_add (pt_mul b g) (pt_mul v h);
          mret (PPoint P))
       (zip bits (with_values rs vals))
  = Ok ((λ '(b, v), PPoint (pedersen b v)) <$> zip bits vals).
Proof.
  revert vals rs. induction bits as [|b bits IH]; intros vals rs Hlen; [done|].
  destruct vals as [|v vals], rs as [|r rs]; try done.
  simpl in Hlen. unfold with_values. simpl zip_with.
  rewrite mapM_cons_eq. simpl.
  unfold ec_add. rewrite decide_True by (rewrite !group_mul; congruence). simpl.
  fold (with_values rs vals). rewrite IH by lia. done.
Qed.

Lemma revealed_loop_ok q (rs : list Secret) : ∀ vals rand power,
  length vals = length rs → 0 < q →
  ∃ rand', PowerTwoRangeProver.revealed_loop q rand power (with_values rs vals)
             = Ok rand'
           ∧ rand' mod q = (rand + power * weighted vals) mod q.
Proof.
  induction rs as [|r rs IH]; intros vals rand power Hlen Hq;
    destruct vals as [|v vals]; try done; simpl.
  - exists rand. split; [done|]. f_equal. lia.
  - simpl in Hlen.
    destruct (IH vals (mod_add rand (v * power) q) (power * 2)) as (rand' & Hrun & Hmod);
      [lia|done|].
    exists rand'. split; [exact Hrun|]. rewrite Hmod. unfold mod_add.
    rewrite Zplus_mod_idemp_l. f_equal. lia.
Qed.

Lemma combine_loop_ok (bvs : list (Z * Z)) : ∀ a1 a2 power,
  PowerTwoRangeProof.combine_loop (pedersen a1 a2) power
    ((λ '(b, v), PPoint (pedersen b v)) <$> bvs)
  = Ok (pedersen (a1 + power * weighted bvs.*1) (a2 + power * weighted bvs.*2)).
Proof.
  induction bvs as [|[b v] bvs IH]; intros a1 a2 power; simpl.
  - f_equal. f_equal; lia.
  - unfold ec_add. rewrite decide_True
      by (by rewrite group_mul, !group_pedersen).
    unfold_M. rewrite pedersen_mul, pedersen_add.
    etrans; [apply IH|].
    change (list_fmap (Z * Z)%type Z fst bvs) with (bvs.*1).
    change (list_fmap (Z * Z)%type Z snd bvs) with (bvs.*2).
    f_equal. f_equal; lia.
Qed.
End Pedersen.

Section RangePrecommit.
Context `{PetLibLaws}.

Lemma pedersen_scalar_only G (g h : EcPt) rho :
  group g = G → group h = G → pt_mul rho h = pedersen g h 0 rho.
Proof.
  intros Hg Hh. unfold pedersen. rewrite mul_0, Hg, <- Hh.
  rewrite <- (group_mul rho h). by rewrite add_infinite_l.
Qed.

(** What [check_adequate_lhs] computes on a precommitment made of bit
    commitments and a revealed randomizer. *)
Lemma check_adequate_lhs_pedersen G (pf : PowerTwoRangeProof) (bvs : list (Z * Z))
    (v r rho : Z) :
  group (g pf) = G → group (h pf) = G →
  com pf = pedersen (g pf) (h pf) v r →
  length bvs = Z.to_nat (nr_bits pf) → 0 ≤ nr_bits pf →
  weighted bvs.*1 = v →
  (weighted bvs.*2) mod order G = (r + rho) mod order G →
  PowerTwoRangeProof.check_adequate_lhs
    (PowerTwoRangeProof.store_precommitment pf
       (((λ '(b, v), PPoint (pedersen (g pf) (h pf) b v)) <$> bvs) ++ [PScalar rho]))
  = Ok true.
Proof.
  intros Hg Hh Hcom Hlen Hn Hbits Hvals.
  unfold PowerTwoRangeProof.check_adequate_lhs. simpl.
  set (pts := (λ '(b, v), PPoint (pedersen (g pf) (h pf) b v)) <$> bvs).
  assert (length pts = Z.to_nat (nr_bits pf)) as Hpts
    by (unfold pts; by rewrite length_fmap).
  unfold py_index_int, py_slice_to. rewrite !decide_True by done.
  unfold py_index. rewrite lookup_app_r by lia.
  rewrite Hpts, Nat.sub_diag. simpl.
  rewrite take_app_length' by done.
  rewrite Hg, <- (pedersen_0 G (g pf) (h pf)) by done.
  unfold pts. rewrite (combine_loop_ok G) by done. simpl.
  rewrite Hcom, (pedersen_scalar_only G (g pf) (h pf) rho) by done.
  unfold ec_add. rewrite decide_True by (by rewrite !(group_pedersen G)).
  simpl. rewrite (pedersen_add G) by done.
  unfold ec_eq. rewrite decide_True by (by rewrite !(group_pedersen G)).
  f_equal. apply bool_decide_eq_true_2.
  rewrite Hbits. replace (0 + 1 * v) with (v + 0) by lia.
  apply (pedersen_mod G); [done|]. rewrite <- Hvals. f_equal. lia.
Qed.
End RangePrecommit.

(** C7 — an honest precommitment passes the verifier's check. Take a
    range statement with [com = v * g + r * h], [g] and [h] in one group,
    [0 <= v] and [v.num_bits() <= nr_bits], and a prover that holds [v] and
    [r]. Whatever the random draws are, [internal_precommit] returns the
    list [C_0, ..., C_{n-1}, rho] with [C_i = b_i * g + r_i * h] for the bits
    [b_i] of [v], least significant first, and [rho] equal to
    [sum_i 2^i * r_i - r] modulo the order; and [check_adequate_lhs] on a
    statement with the same [com], [g], [h] and [nr_bits] that holds this
    precommitment returns [True]. *)
Theorem honest_precommitment_adequate `{PetLibLaws} (G : EcGroup)
    (self : PowerTwoRangeProver.t) (verifier_proof : PowerTwoRangeProof)
    (sv sr : Secret) (v r : Z) (t : Tape) :
  let pf := PowerTwoRangeProver.proof self in
  group (g pf) = G → group (h pf) = G →
  secret_vars pf = Some [sv; sr] → value sv = Some v → value sr = Some r →
  com pf = pt_add (pt_mul v (g pf)) (pt_mul r (h pf)) →
  length (randomizers pf) = Z.to_nat (nr_bits pf) →
  0 ≤ v → num_bits v ≤ nr_bits pf →
  com verifier_proof = com pf → g verifier_proof = g pf →
  h verifier_proof = h pf → nr_bits verifier_proof = nr_bits pf →
  ∃ bits vals rho self' t',
    decompose_into_n_bits v (nr_bits pf) = Ok bits
    ∧ length vals = Z.to_nat (nr_bits pf)
    ∧ 0 ≤ rho < order G
    ∧ rho mod order G = (weighted vals - r) mod order G
    ∧ PowerTwoRangeProver.internal_precommit self t =
        Ok (((λ '(b, v), PPoint (pt_add (pt_mul b (g pf)) (pt_mul v (h pf))))
               <$> zip bits vals) ++ [PScalar rho], self', t')%list
    ∧ PowerTwoRangeProof.check_adequate_lhs
        (PowerTwoRangeProof.store_precommitment verifier_proof
           (((λ '(b, v), PPoint (pt_add (pt_mul b (g pf)) (pt_mul v (h pf))))
               <$> zip bits vals) ++ [PScalar rho])) = Ok true.
Proof.
  intros pf Hg Hh Hvars Hsv Hsr Hcom Hlenr Hv Hn Hvcom Hvg Hvh Hvn.
  pose proof (num_bits_nonneg v) as Hnb.
  pose proof (order_pos G) as Hq.
  destruct (decompose_Ok v (nr_bits pf) Hn) as (bits & Hdec & Hlenb & _).
  destruct (draw_randomizers_ok (order G) (randomizers pf) t)
    as (vals & t' & Hdraw & Hlenv).
  destruct (revealed_loop_ok (order G) (randomizers pf) vals 0 1 Hlenv Hq)
    as (rand & Hrand & Hmod).
  exists bits, vals, (mod_sub rand r (order G)). eexists. exists t'.
  split; [done|]. split; [lia|].
  split; [unfold mod_sub; apply Z.mod_pos_bound; lia|].
  split.
  { unfold mod_sub. rewrite Z.mod_mod by lia.
    rewrite Zminus_mod, Hmod, <- Zminus_mod. f_equal. lia. }
  split.
  - pose proof (precommitment_points G (g pf) (h pf) Hg Hh bits vals _ Hlenv)
      as Hpts.
    unfold PowerTwoRangeProver.internal_precommit. fold pf. unfold_M.
    rewrite Hvars. simpl. unfold py_index. simpl. rewrite Hsv, Hdec.
    rewrite Hg, Hdraw, Hpts, Hrand.
    unfold PowerTwoRangeProver.value_of. rewrite Hsr.
    reflexivity.
  - rewrite <- Hvg, <- Hvh.
    apply (check_adequate_lhs_pedersen G verifier_proof (zip bits vals) v r).
    + by rewrite Hvg.
    + by rewrite Hvh.
    + by rewrite Hvcom, Hvg, Hvh.
    + rewrite length_zip_with, Hvn. lia.
    + lia.
    + rewrite fst_zip by lia. by apply (decompose_value v (nr_bits pf)).
    + rewrite snd_zip by lia. unfold mod_sub.
      rewrite Zplus_mod_idemp_r. replace (r + (rand - r)) with rand by lia.
      rewrite Hmod. f_equal. lia.
Qed.

Lemma honest_precommitment_adequate_witness :
  ∃ bits vals rho self' t',
    decompose_into_n_bits 10 5 = Ok bits
    ∧ length vals = 5%nat
    ∧ 0 ≤ rho < 11
    ∧ rho mod 11 = (weighted vals - 6) mod 11
    ∧ PowerTwoRangeProver.internal_precommit
        (PowerTwoRangeProver.mk Example6.stmt) Zq.tape0 =
        Ok (((λ '(b, v), PPoint (pt_add (pt_mul b Example6.g) (pt_mul v Example6.h)))
               <$> zip bits vals) ++ [PScalar rho], self', t')%list
    ∧ PowerTwoRangeProof.check_adequate_lhs
        (PowerTwoRangeProof.store_precommitment Example6.verifier_stmt
           (((λ '(b, v), PPoint (pt_add (pt_mul b Example6.g) (pt_mul v Example6.h)))
               <$> zip bits vals) ++ [PScalar rho])) = Ok true.
Proof.
  apply (honest_precommitment_adequate Zq.G11
           (PowerTwoRangeProver.mk Example6.stmt) Example6.verifier_stmt
           (mkSecret "v" (Some 10)) (mkSecret "r" (Some 6)) 10 6 Zq.tape0);
    try reflexivity.
  - discriminate.
  - discriminate.
Defined.

Example range_proof_run :
  match PowerTwoRangeProver.internal_precommit
          (PowerTwoRangeProver.mk Example6.stmt) Zq.tape0 with
  | Ok (pre, _, _) =>
      Some (PowerTwoRangeProof.check_adequate_lhs
              (PowerTwoRangeProof.store_precommitment Example6.verifier_stmt pre))
  | Raise _ => None
  end = Some (Ok true).
Proof. reflexivity. Qed.

(** * Further properties of the code *)

(** ** The randomizers of an atomic prover *)

Section Randomizers.
Context `{PetLibLaws}.

(** The last index at which [n] stands in [names]. *)
Definition last_at (names : list string) (i : nat) (n : string) : Prop :=
  names !! i = Some n ∧ ∀ j, (i < j)%nat → names !! j ≠ Some n.

Lemma last_at_exists (names : list string) (n : string) :
  n ∈ names → ∃ i, last_at names i n.
Proof.
  induction names as [|m names IH]; intros Hin; [by apply elem_of_nil in Hin|].
  destruct (decide (n ∈ names)) as [Hn|Hn].
  - destruct (IH Hn) as (i & Hi & Hlast). exists (S i). split; [done|].
    intros [|j] Hj; [lia|]. simpl. apply Hlast. lia.
  - apply elem_of_cons in Hin as [->|?]; [|done].
    exists 0%nat. split; [done|]. intros [|j] Hj; [lia|]. simpl.
    intros Hm. apply Hn. by eapply list_elem_of_lookup_2.
Qed.

Lemma get_randomizers_loop_result gens names : ∀ idx output t d t',
  DLRepProver.get_randomizers_loop gens idx names output t = Ok (d, t') →
  (∀ k, t' k = t (length names + k)%nat)
  ∧ (∀ n, n ∉ names → d !! n = output !! n)
  ∧ (∀ i n, last_at names i n →
       ∃ g, gens !! (idx + i)%nat = Some g
            ∧ d !! n = Some (t i mod order (group g))).
Proof.
  induction names as [|sec names IH]; intros idx output t d t' Hrun; simpl in Hrun.
  - injection Hrun as <- <-. split; [done|]. split; [done|].
    intros i n [Hi _]. by rewrite lookup_nil in Hi.
  - unfold_M. unfold py_index, random in Hrun.
    destruct (gens !! idx) as [g|] eqn:Hg; [|done].
    apply IH in Hrun as (Htape & Hout & Hlast).
    split; [|split].
    + intros k. rewrite Htape. simpl. f_equal.
    + intros n Hn. apply not_elem_of_cons in Hn as [Hne Hn].
      rewrite (Hout n Hn). by rewrite lookup_insert_ne.
    + intros [|i] n [Hi Hlater].
      * simpl in Hi. injection Hi as ->. exists g.
        rewrite Nat.add_0_r. split; [done|].
        rewrite Hout; [by rewrite lookup_insert_eq|].
        intros Hin. apply list_elem_of_lookup in Hin as [j Hj].
        by apply (Hlater (S j) ltac:(lia)).
      * destruct (Hlast i n) as (g' & Hg' & Hd).
        { split; [done|]. intros j Hj. apply (Hlater (S j)). lia. }
        exists g'. split; [|done].
        by replace (idx + S i)%nat with (S idx + i)%nat by lia.
Qed.

Lemma get_randomizers_loop_short gens names : ∀ idx output t,
  (idx ≤ length gens)%nat →
  (length gens < idx + length names)%nat →
  DLRepProver.get_randomizers_loop gens idx names output t = Raise IndexError.
Proof.
  induction names as [|sec names IH]; intros idx output t Hidx Hlen;
    simpl in *; [lia|].
  unfold_M. unfold py_index, random.
  destruct (gens !! idx) as [g|] eqn:Hg; [|done].
  apply lookup_lt_Some in Hg. apply IH; lia.
Qed.
End Randomizers.

(** X1 — what [get_randomizers] returns. The dictionary has exactly the
    secret names as keys. The value of a name is the draw made at the last
    index where the name stands, a number in [0, q) for the order [q] of the
    group of the generator at that index. One draw is consumed per term. *)
Theorem get_randomizers_result `{PetLibLaws} (self : DLRepProver) (t t' : Tape)
    (d : gmap string Z) :
  DLRepProver.get_randomizers self t = Ok (d, t') →
  dom d = list_to_set (secret_names self)
  ∧ (∀ i n, last_at (secret_names self) i n →
       ∃ g, generators self !! i = Some g
            ∧ d !! n = Some (t i mod order (group g))
            ∧ 0 ≤ t i mod order (group g) < order (group g))
  ∧ (∀ k, t' k = t (length (secret_names self) + k)%nat).
Proof.
  intros Hrun. unfold DLRepProver.get_randomizers in Hrun.
  apply get_randomizers_loop_result in Hrun as (Htape & Hout & Hlast).
  split; [|split; [|done]].
  - apply set_eq. intros n. rewrite elem_of_dom, elem_of_list_to_set. split.
    + intros Hsome. destruct (decide (n ∈ secret_names self)) as [|Hn]; [done|].
      rewrite (Hout n Hn), lookup_empty in Hsome. by destruct Hsome.
    + intros Hn. destruct (last_at_exists _ _ Hn) as [i Hi].
      destruct (Hlast i n Hi) as (g & _ & ->). by eexists.
  - intros i n Hi. destruct (Hlast i n Hi) as (g & Hg & Hd).
    exists g. split; [done|]. split; [done|].
    apply Z.mod_pos_bound, order_pos.
Qed.

Lemma get_randomizers_result_witness :
  dom (<["x" := 8]> (<["y" := 1]> (∅ : gmap string Z)))
    = list_to_set (secret_names Example2.simulator).
Proof.
  refine (proj1 (get_randomizers_result Example2.simulator Zq.tape0
                   (λ k, Zq.tape0 (3 + k)%nat) (<["x" := 8]> (<["y" := 1]> ∅)) _)).
  reflexivity.
Defined.

(** X2 — [get_randomizers] returns when there are at most as many secret
    names as generators, and raises [IndexError] when there are more. *)
Theorem get_randomizers_terms `{PetLibLaws} (self : DLRepProver) (t : Tape) :
  ((length (secret_names self) ≤ length (generators self))%nat →
   ∃ d t', DLRepProver.get_randomizers self t = Ok (d, t'))
  ∧ ((length (generators self) < length (secret_names self))%nat →
     DLRepProver.get_randomizers self t = Raise IndexError).
Proof.
  split.
  - intros Hlen. destruct (get_randomizers_covers self t Hlen) as (d & t' & Hrun & _).
    by exists d, t'.
  - intros Hlen. apply get_randomizers_loop_short; simpl in *; lia.
Qed.

Lemma get_randomizers_terms_witness :
  DLRepProver.get_randomizers
    (DLRepProver_init [Zq.pt11 1] ["x"; "y"] ∅ (Zq.pt11 3)) Zq.tape0
  = Raise IndexError.
Proof.
  refine (proj2 (get_randomizers_terms
                   (DLRepProver_init [Zq.pt11 1] ["x"; "y"] ∅ (Zq.pt11 3))
                   Zq.tape0) _).
  simpl. lia.
Defined.

(** ** Refusals of [commit] and [compute_response] *)

Section CommitErrors.
Context `{PetLib}.

Lemma mapM_dict_get_missing (d : gmap string Z) (pre post : list string) n :
  Forall (λ m, is_Some (d !! m)) pre → d !! n = None →
  mapM (dict_get d) (pre ++ n :: post) = Raise (KeyError n).
Proof.
  induction 1 as [|m pre [v Hv] _ IH]; intros Hn.
  - simpl app. rewrite mapM_cons_eq. unfold dict_get at 1. by rewrite Hn.
  - simpl app. rewrite mapM_cons_eq. unfold dict_get at 1. rewrite Hv.
    by rewrite IH.
Qed.

(** What a successful [commit] leaves behind, whatever dictionary it
    used. *)
Lemma commit_inv (self self' : DLRepProver) randomizers_dict t t' commitment :
  DLRepProver.commit self randomizers_dict t = Ok (commitment, self', t') →
  ∃ g0 d ks1,
    generators self !! 0%nat = Some g0
    ∧ mapM (dict_get d) (secret_names self) = Ok ks1
    ∧ self' = mkDLRepProver (prover_generators self) (prover_secret_names self)
                (secret_values self) (prover_lhs self) (prover_set_simulate self)
                (Some (order (group g0))) (Some ks1).
Proof.
  unfold DLRepProver.commit. unfold_M. unfold py_index. intros Hrun.
  repeat case_match; simplify_eq; by eexists _, _, _.
Qed.
End CommitErrors.

(** X3 — the refusals of [commit], in the order in which the code tests
    them. A prover without secret values raises the "can only simulate"
    exception, whatever else it holds. A prover with secret values and no
    generator raises [IndexError]. A prover with secret values and
    generators that is given a dictionary raises [KeyError] for the first
    secret name that the dictionary lacks. *)
Theorem commit_refusals `{PetLib} (self : DLRepProver)
    (randomizers_dict : option (gmap string Z)) (t : Tape) :
  (secret_values self = ∅ →
   DLRepProver.commit self randomizers_dict t =
     Raise (Exception
       "Trying to do a legit proof without the secrets. Can only simulate" []))
  ∧ (secret_values self ≠ ∅ → generators self = [] →
     DLRepProver.commit self randomizers_dict t = Raise IndexError)
  ∧ (∀ d pre n post,
       secret_values self ≠ ∅ → generators self ≠ [] →
       randomizers_dict = Some d →
       secret_names self = (pre ++ n :: post)%list →
       Forall (λ m, is_Some (d !! m)) pre → d !! n = None →
       DLRepProver.commit self randomizers_dict t = Raise (KeyError n)).
Proof.
  split; [|split].
  - intros Hempty. unfold DLRepProver.commit. by rewrite decide_True.
  - intros Hvals Hgens. unfold DLRepProver.commit.
    rewrite decide_False by done. by rewrite Hgens.
  - intros d pre n post Hvals Hgens -> Hnames Hpre Hn.
    unfold DLRepProver.commit. rewrite decide_False by done.
    destruct (generators self) as [|g0 gens]; [done|].
    pose proof (mapM_dict_get_missing d pre post n Hpre Hn) as Hmiss.
    unfold_M. unfold py_index. simpl in *.
    by rewrite Hnames, Hmiss.
Qed.

Lemma commit_refusals_witness :
  DLRepProver.commit Example1.prover (Some (<["x" := 7]> ∅)) Zq.tape0
  = Raise (KeyError "y").
Proof.
  refine (proj2 (proj2 (commit_refusals Example1.prover (Some (<["x" := 7]> ∅))
                          Zq.tape0))
            (<["x" := 7]> ∅) ["x"] "y" [] _ _ _ _ _ _).
  - intros Hempty. apply (f_equal (λ m : gmap string Z, m !! "x")) in Hempty.
    discriminate Hempty.
  - discriminate.
  - reflexivity.
  - reflexivity.
  - repeat constructor. eexists. reflexivity.
  - reflexivity.
Defined.

(** X4 — the order of the protocol and the range of the responses. A prover
    on which [commit] has not run has no randomizers, and
    [compute_response] raises [AttributeError]. After a successful [commit]
    of a prover that holds a value for every secret name,
    [compute_response] returns one response per secret name, each in
    [0, q) for the order [q] of the group of the first generator. *)
Theorem compute_response_after_commit `{PetLibLaws} (self self' : DLRepProver)
    (randomizers_dict : option (gmap string Z)) (t t' : Tape)
    (commitment : EcPt) (c : Z) :
  (ks self = None →
   DLRepProver.compute_response self c = Raise (AttributeError "ks"))
  ∧ (DLRepProver.commit self randomizers_dict t = Ok (commitment, self', t') →
     Forall (λ n, is_Some (secret_values self !! n)) (secret_names self) →
     ∃ g0 response,
       generators self !! 0%nat = Some g0
       ∧ DLRepProver.compute_response self' c = Ok response
       ∧ length response = length (secret_names self)
       ∧ Forall (λ s, 0 ≤ s < order (group g0)) response).
Proof.
  split.
  - intros Hks. unfold DLRepProver.compute_response. by rewrite Hks.
  - intros Hrun Hvals.
    apply commit_inv in Hrun as (g0 & d & ks1 & Hg0 & Hks & ->).
    destruct (mapM_dict_get_total _ _ Hvals) as [xs Hxs].
    pose proof (mapM_Ok_length _ _ _ Hks) as Hlenk.
    pose proof (mapM_Ok_length _ _ _ Hxs) as Hlenx.
    exists g0, (responses_of (order (group g0)) c xs ks1).
    split; [done|]. split; [by apply compute_response_ok|]. split.
    + unfold responses_of. rewrite length_zip_with. lia.
    + unfold responses_of. apply Forall_forall. intros s Hs.
      apply list_elem_of_lookup in Hs as [i Hi].
      apply lookup_zip_with_Some in Hi as (x & k & -> & _ & _).
      unfold mod_add. apply Z.mod_pos_bound, order_pos.
Qed.

Lemma compute_response_after_commit_witness :
  ∃ g0 response,
    generators Example1.prover !! 0%nat = Some g0
    ∧ DLRepProver.compute_response
        (committed Example1.prover 11 [7; 2]) 9 = Ok response
    ∧ length response = length (secret_names Example1.prover)
    ∧ Forall (λ s, 0 ≤ s < order (group g0)) response.
Proof.
  refine (proj2 (compute_response_after_commit Example1.prover
                   (committed Example1.prover 11 [7; 2])
                   (Some Example1.randomizers) Zq.tape0 Zq.tape0
                   (gsum Zq.G11 (zip_with pt_mul [7; 2] Example1.gens)) 9) _ _).
  - reflexivity.
  - repeat constructor; eexists; reflexivity.
Defined.

(** ** What accepting transcripts say about the statement *)

Section Soundness.
Context `{PetLibLaws}.

Lemma neg_add P : pt_add P (pt_mul (-1) P) = infinite (group P).
Proof.
  rewrite <- (mul_1 P) at 1. rewrite <- mul_add_l.
  replace (1 + -1) with 0 by lia. apply mul_0.
Qed.

Lemma add_cancel_r G X Y Z :
  group X = G → group Y = G → group Z = G →
  pt_add X Z = pt_add Y Z → X = Y.
Proof.
  intros HX HY HZ Heq.
  assert (∀ W, group W = G → pt_add (pt_add W Z) (pt_mul (-1) Z) = W) as Hback.
  { intros W HW. rewrite <- add_assoc by (rewrite ?group_mul; congruence).
    rewrite neg_add, HZ, <- HW. apply add_infinite_r. }
  rewrite <- (Hback X HX), <- (Hback Y HY). by rewrite Heq.
Qed.

Lemma lin_sub G gens : ∀ s s' : list Z,
  Forall (in_group G) gens → length s = length s' →
  pt_add (gsum G (zip_with pt_mul (zip_with Z.sub s s') gens))
         (gsum G (zip_with pt_mul s' gens))
  = gsum G (zip_with pt_mul s gens).
Proof.
  induction gens as [|P gens IH]; intros s s' HG Hlen.
  - rewrite !zip_with_nil_r. simpl. rewrite <- (group_infinite G) at 1.
    apply add_infinite_l.
  - inversion HG as [|? ? HP HG']; subst. unfold in_group in HP.
    destruct s as [|a s], s' as [|b s']; simpl in *; try discriminate.
    + rewrite <- (group_infinite G) at 1. apply add_infinite_l.
    + rewrite (add_swap _ _ _ _ G);
        rewrite ?group_mul, ?group_gsum; try done;
        try (by apply in_group_zip_mul).
      rewrite <- mul_add_l. replace (a - b + b) with a by lia.
      f_equal. apply IH; [done|lia].
Qed.
End Soundness.

(** X5 — two accepting transcripts with one commitment. When
    [recompute_commitment] gives the same point for the challenge [c] with
    the responses [s] and for the challenge [c'] with the responses [s'],
    the differences of the responses represent [(c - c') * lhs] on the
    generators: [sum_i (s_i - s'_i) * G_i = (c - c') * lhs]. *)
Theorem special_soundness `{PetLibLaws} {A} `{!DLRepLike A} (G : EcGroup) (v : A)
    (c c' : Z) (s s' : list Z) (K : EcPt) :
  generators v ≠ [] → Forall (in_group G) (generators v) →
  group (lhs v) = G → length s = length s' →
  DLRepProof.recompute_commitment v c s = Ok K →
  DLRepProof.recompute_commitment v c' s' = Ok K →
  gsum G (zip_with pt_mul (zip_with Z.sub s s') (generators v))
    = pt_mul (c - c') (lhs v).
Proof.
  intros Hne HG Hlhs Hlen Hs Hs'.
  rewrite (recompute_commitment_ok G) in Hs, Hs' by done.
  injection Hs as Hs. injection Hs' as Hs'.
  set (L := gsum G (zip_with pt_mul s (generators v))) in *.
  set (L' := gsum G (zip_with pt_mul s' (generators v))) in *.
  set (D := gsum G (zip_with pt_mul (zip_with Z.sub s s') (generators v))).
  assert (group L = G) as HL by (by apply group_gsum, in_group_zip_mul).
  assert (group L' = G) as HL' by (by apply group_gsum, in_group_zip_mul).
  assert (group D = G) as HD by (by apply group_gsum, in_group_zip_mul).
  assert (pt_add D L' = L) as Hsub by (by apply lin_sub).
  assert (∀ k, group (pt_mul k (lhs v)) = G) as HY
    by (intros k; by rewrite group_mul).
  assert (group (pt_add L' (pt_mul (- c) (lhs v))) = G) as HZ
    by (rewrite group_add; rewrite ?HY; congruence).
  apply (add_cancel_r G _ _ (pt_add L' (pt_mul (- c) (lhs v)))); [done..|].
  rewrite (add_assoc D) by (rewrite ?HY; congruence).
  rewrite Hsub, Hs, <- Hs'.
  rewrite (add_comm L' (pt_mul (- c) (lhs v))) by (rewrite ?HY; congruence).
  rewrite add_assoc by (rewrite ?HY; congruence).
  rewrite <- mul_add_l. replace (c - c' + - c) with (- c') by lia.
  apply add_comm. rewrite HY. congruence.
Qed.

(** In the library instance two results are equal when they are points of
    one group with one residue. *)
Lemma result_point_eq (r : Result Zq.ZPt) (K : Zq.ZPt) :
  match r with
  | Ok P => Zq.zgroup P = Zq.zgroup K ∧ Zq.zval P = Zq.zval K
  | Raise _ => False
  end →
  r = Ok K.
Proof.
  destruct r as [P|e]; [|done]. intros [HG Hv]. f_equal. by apply Zq.ZPt_eq.
Qed.

Lemma special_soundness_witness :
  gsum Zq.G11 (zip_with pt_mul (zip_with Z.sub [1; 3] [8; 0])
                 (generators Example1.verifier))
    = pt_mul (9 - 4) (lhs Example1.verifier).
Proof.
  apply (special_soundness Zq.G11 Example1.verifier 9 4 [1; 3] [8; 0]
           (gsum Zq.G11 (zip_with pt_mul [7; 2] Example1.gens))).
  - discriminate.
  - repeat constructor.
  - reflexivity.
  - reflexivity.
  - apply result_point_eq. split; reflexivity.
  - apply result_point_eq. split; reflexivity.
Defined.

(** ** A statement whose [lhs] lies in another group *)

Section ForeignLhs.
Context `{PetLibLaws}.

Lemma initialize_loop_inv test_group gens :
  DLRepProof.initialize_loop test_group gens = Ok () →
  Forall (in_group test_group) gens.
Proof.
  induction gens as [|g gens IH]; simpl; [constructor|].
  destruct (decide (group g ≠ test_group)) as [|Heq]; [done|].
  intros Hrest. constructor; [|by apply IH].
  unfold in_group. by destruct (decide (group g = test_group)).
Qed.

(** What [initialize] has checked when it returns. *)
Lemma initialize_inv generators secret_names lhs stmt :
  DLRepProof.initialize generators secret_names lhs = Ok stmt →
  stmt = mkDLRepProof generators secret_names lhs false
  ∧ ∃ g0, generators !! 0%nat = Some g0 ∧ well_formed (group g0) stmt.
Proof.
  unfold DLRepProof.initialize. intros Hrun.
  destruct (decide (length generators = 0%nat)) as [|Hne]; [done|].
  destruct (decide (length secret_names ≠ length generators)) as [|Hlen]; [done|].
  destruct generators as [|g0 gens]; [done|].
  unfold py_index in Hrun. simpl in Hrun.
  destruct (decide (group g0 ≠ group g0)) as [|_]; [done|].
  destruct (DLRepProof.initialize_loop (group g0) gens) as [[]|] eqn:Hloop;
    [|done].
  injection Hrun as <-. split; [done|]. exists g0. split; [done|].
  split; [done|]. split.
  - constructor; [done|]. by apply initialize_loop_inv.
  - simpl in *. lia.
Qed.

Lemma recompute_foreign_lhs {A} `{!DLRepLike A} G (v : A) c (responses : list Z) :
  generators v ≠ [] → Forall (in_group G) (generators v) → group (lhs v) ≠ G →
  DLRepProof.recompute_commitment v c responses = Raise EcException.
Proof.
  intros Hne HG Hlhs. unfold DLRepProof.recompute_commitment.
  rewrite (raise_powers_ok G) by done. simpl.
  unfold ec_add. rewrite decide_False; [done|].
  rewrite group_mul, group_gsum by (by apply in_group_zip_mul). congruence.
Qed.
End ForeignLhs.

(** X6 — an [lhs] of another group is only found out when the protocol
    runs. For a statement that [initialize] has accepted and whose [lhs]
    does not lie in the group of its generators, [recompute_commitment]
    raises the library's exception for every challenge and all responses,
    and [simulate_proof] of its simulator returns no transcript. *)
Theorem foreign_lhs_fails_late `{PetLibLaws} (generators : list EcPt)
    (secret_names : list string) (lhs : EcPt) (stmt : DLRepProof) (g0 : EcPt) :
  DLRepProof.initialize generators secret_names lhs = Ok stmt →
  generators !! 0%nat = Some g0 →
  group lhs ≠ group g0 →
  (∀ c responses,
     DLRepProof.recompute_commitment stmt c responses = Raise EcException)
  ∧ (∀ c responses,
       DLRepProof.recompute_commitment (DLRepProof.get_verifier stmt) c responses
         = Raise EcException)
  ∧ (∀ responses_dict challenge t,
       ∃ e, DLRepProver.simulate_proof (DLRepProof.get_simulator stmt)
              responses_dict challenge t = Raise e).
Proof.
  intros Hinit Hg0 Hlhs.
  apply initialize_inv in Hinit as (-> & g0' & Hg0' & Hne & HG & Hlen).
  assert (g0' = g0) as -> by congruence.
  split; [|split].
  - intros c responses. by apply (recompute_foreign_lhs (group g0)).
  - intros c responses. by apply (recompute_foreign_lhs (group g0)).
  - intros responses_dict challenge t.
    destruct (DLRepProver.simulate_proof _ _ _ _) as [[[[com c] resp] t']|e] eqn:Hrun;
      [|by exists e].
    apply simulate_proof_inv in Hrun as (d & _ & Hcom & _).
    by rewrite (recompute_foreign_lhs (group g0)) in Hcom.
Qed.

Lemma foreign_lhs_fails_late_witness :
  DLRepProof.recompute_commitment
    (mkDLRepProof [Zq.pt11 1] ["x"] (Zq.pt13 2) false) 9 [4]
  = Raise EcException.
Proof.
  refine (proj1 (foreign_lhs_fails_late [Zq.pt11 1] ["x"] (Zq.pt13 2)
                   (mkDLRepProof [Zq.pt11 1] ["x"] (Zq.pt13 2) false)
                   (Zq.pt11 1) _ _ _) 9 [4]).
  - reflexivity.
  - reflexivity.
  - discriminate.
Defined.

(** ** Responses and generators that have no partner *)

Section Surplus.
Context `{PetLib}.

Lemma zip_with_surplus_l {A B C} (f : A → B → C) (l extra : list A) (k : list B) :
  (length k ≤ length l)%nat → zip_with f (l ++ extra) k = zip_with f l k.
Proof.
  revert k. induction l as [|x l IH]; intros [|y k] Hlen; simpl in *;
    try done; try lia.
  - by destruct extra.
  - f_equal. apply IH. lia.
Qed.

Lemma zip_with_surplus_r {A B C} (f : A → B → C) (l : list A) (k extra : list B) :
  (length l ≤ length k)%nat → zip_with f l (k ++ extra) = zip_with f l k.
Proof.
  revert k. induction l as [|x l IH]; intros [|y k] Hlen; simpl in *;
    try done; try lia.
  f_equal. apply IH. lia.
Qed.
End Surplus.

(** X7 — [recompute_commitment] does not compare the number of responses
    with the number of generators: it pairs them up and drops what is left
    over. Responses beyond the last generator change nothing, and neither
    do generators beyond the last response, as long as the first generator
    stays. *)
Theorem recompute_commitment_surplus `{PetLib} {A} `{!DLRepLike A} (v v' : A)
    (c : Z) (responses extra : list Z) (gens more more' : list EcPt) :
  ((length (generators v) ≤ length responses)%nat →
   DLRepProof.recompute_commitment v c (responses ++ extra)
     = DLRepProof.recompute_commitment v c responses)
  ∧ (gens ≠ [] → (length responses ≤ length gens)%nat →
     generators v = (gens ++ more)%list → generators v' = (gens ++ more')%list →
     lhs v = lhs v' →
     DLRepProof.recompute_commitment v c responses
       = DLRepProof.recompute_commitment v' c responses).
Proof.
  split.
  - intros Hlen. unfold DLRepProof.recompute_commitment, raise_powers.
    by rewrite zip_with_surplus_l.
  - intros Hne Hlen Hv Hv' Hlhs.
    unfold DLRepProof.recompute_commitment, raise_powers.
    rewrite Hv, Hv', Hlhs, !zip_with_surplus_r by done.
    by destruct gens.
Qed.

Lemma recompute_commitment_surplus_witness :
  DLRepProof.recompute_commitment Example1.verifier 9 ([1; 3] ++ [5; 6])
  = DLRepProof.recompute_commitment Example1.verifier 9 [1; 3].
Proof.
  refine (proj1 (recompute_commitment_surplus Example1.verifier Example1.verifier
                   9 [1; 3] [5; 6] [] [] []) _).
  simpl. lia.
Defined.

(** ** The secrets that [get_prover] accepts *)

Section GetProverKeys.
Context `{PetLib}.

Lemma get_prover_accepts (module_get_verifier : option (Result Party))
    (self : DLRepProof) (secrets_dict : gmap string Z) :
  simulate self = false → secrets_dict ≠ ∅ →
  dom secrets_dict = list_to_set (secret_names self) →
  DLRepProof.get_prover module_get_verifier self secrets_dict =
    Ok (IsProver (DLRepProver_init (generators self) (secret_names self)
                    secrets_dict (lhs self))).
Proof.
  intros Hsim Hne Hdom. unfold DLRepProof.get_prover.
  rewrite decide_False by (intros [?|?]; congruence).
  rewrite decide_False by (by rewrite <- Hdom, size_dom; intros ?).
  rewrite decide_False; [done|].
  rewrite Hdom, difference_diag_L, size_empty. lia.
Qed.

Lemma get_prover_refuses (module_get_verifier : option (Result Party))
    (self : DLRepProof) (secrets_dict : gmap string Z) :
  simulate self = false → secrets_dict ≠ ∅ →
  dom secrets_dict ≠ list_to_set (secret_names self) →
  ∃ msg args,
    DLRepProof.get_prover module_get_verifier self secrets_dict =
      Raise (Exception msg args).
Proof.
  intros Hsim Hne Hdom. unfold DLRepProof.get_prover.
  rewrite decide_False by (intros [?|?]; congruence).
  destruct (decide (size (list_to_set (C := gset string) (secret_names self))
                    ≠ size secrets_dict)) as [|_]; [by eexists _, _|].
  destruct (decide (0 < size (dom secrets_dict ∖ list_to_set (secret_names self))
                    ∨ 0 < size (list_to_set (secret_names self)
                                  ∖ dom secrets_dict))%nat)
    as [|Hzero]; [by eexists _, _|].
  destruct Hdom. apply set_eq. intros n.
  assert (dom secrets_dict ∖ list_to_set (secret_names self)
          = (∅ : gset string)) as H1
    by (apply leibniz_equiv, size_empty_iff; lia).
  assert (list_to_set (secret_names self) ∖ dom secrets_dict
          = (∅ : gset string)) as H2
    by (apply leibniz_equiv, size_empty_iff; lia).
  split; intros Hin.
  - destruct (decide (n ∈ (list_to_set (secret_names self) : gset string)))
      as [|Hnot]; [done|].
    assert (n ∈ dom secrets_dict ∖ list_to_set (secret_names self)) as Hd
      by (by apply elem_of_difference).
    rewrite H1 in Hd. by apply not_elem_of_empty in Hd.
  - destruct (decide (n ∈ dom secrets_dict)) as [|Hnot]; [done|].
    assert (n ∈ (list_to_set (secret_names self) : gset string)
                  ∖ dom secrets_dict) as Hd
      by (by apply elem_of_difference).
    rewrite H2 in Hd. by apply not_elem_of_empty in Hd.
Qed.
End GetProverKeys.

(** X8 — on a statement that is not marked for simulation, [get_prover]
    accepts a non-empty dictionary exactly when its set of keys is the set
    of the statement's secret names: it then returns the prover that holds
    the statement's generators, secret names and [lhs] and this dictionary,
    which has a value for every secret name. Any other dictionary is
    refused with an exception. *)
Theorem get_prover_keys `{PetLib} (module_get_verifier : option (Result Party))
    (self : DLRepProof) (secrets_dict : gmap string Z) :
  simulate self = false → secrets_dict ≠ ∅ →
  (dom secrets_dict = list_to_set (secret_names self) →
   DLRepProof.get_prover module_get_verifier self secrets_dict =
     Ok (IsProver (DLRepProver_init (generators self) (secret_names self)
                     secrets_dict (lhs self)))
   ∧ Forall (λ n, is_Some (secrets_dict !! n)) (secret_names self))
  ∧ (dom secrets_dict ≠ list_to_set (secret_names self) →
     ∃ msg args,
       DLRepProof.get_prover module_get_verifier self secrets_dict =
         Raise (Exception msg args)).
Proof.
  intros Hsim Hne. split.
  - intros Hdom. split; [by apply get_prover_accepts|].
    apply Forall_forall. intros n Hn. apply elem_of_dom. rewrite Hdom.
    by apply elem_of_list_to_set.
  - by apply get_prover_refuses.
Qed.

Lemma get_prover_keys_witness :
  DLRepProof.get_prover None
    (mkDLRepProof Example1.gens Example1.names Example1.y false) Example1.values
  = Ok (IsProver Example1.prover)
  ∧ Forall (λ n, is_Some (Example1.values !! n)) Example1.names.
Proof.
  refine (proj1 (get_prover_keys None
                   (mkDLRepProof Example1.gens Example1.names Example1.y false)
                   Example1.values _ _) _).
  - reflexivity.
  - intros Hempty. apply (f_equal (λ m : gmap string Z, m !! "x")) in Hempty.
    discriminate Hempty.
  - reflexivity.
Defined.

(** ** A run of the conjunction *)

Section AndRun.
Context `{PetLibLaws}.

(** The honest responses of one conjunct recompute its commitment. *)
Lemma recompute_honest G (self : DLRepProver) xs ks1 c :
  well_formed G self →
  lhs self = relation_point G xs (generators self) →
  length xs = length ks1 →
  DLRepProof.recompute_commitment self c (responses_of (order G) c xs ks1)
    = Ok (gsum G (zip_with pt_mul ks1 (generators self))).
Proof.
  intros (Hne & HG & Hlen) Hrel Hlenx.
  assert (group (lhs self) = G) as Hlhs
    by (rewrite Hrel; by apply group_gsum, in_group_zip_mul).
  rewrite (recompute_commitment_ok G) by done.
  rewrite Hrel. f_equal. by apply response_sum.
Qed.

Lemma responses_of_lookup q c xs ks1 (names : list string)
    (values d : gmap string Z) i n :
  mapM (dict_get values) names = Ok xs →
  mapM (dict_get d) names = Ok ks1 →
  names !! i = Some n →
  ∃ x k, values !! n = Some x ∧ d !! n = Some k
         ∧ responses_of q c xs ks1 !! i = Some (mod_add (mod_mul x c q) k q).
Proof.
  intros Hxs Hks Hn.
  destruct (mapM_dict_get_lookup _ _ _ _ _ Hxs Hn) as (x & Hx & Hvx).
  destruct (mapM_dict_get_lookup _ _ _ _ _ Hks Hn) as (k & Hk & Hdk).
  exists x, k. split; [done|]. split; [done|].
  unfold responses_of. apply lookup_zip_with_Some. by exists x, k.
Qed.
End AndRun.

(** X9 — completeness of the conjunction. For two atomic provers whose
    statements hold for their secret values, [commit] of the And prover
    followed by [compute_response] on a challenge [c] gives, for each
    conjunct, responses from which [recompute_commitment] with this same [c]
    returns the conjunct's part of the commitment. For a secret name that
    both conjuncts bear with one value, in groups of one order, the two
    responses are equal. *)
Theorem and_completeness `{PetLibLaws} (G1 G2 : EcGroup)
    (self : AndProofProver.t DLRepProver DLRepProver)
    (randomizers_dict : option (gmap string Z)) (xs1 xs2 : list Z) (c : Z)
    (t : Tape) :
  let p1 := AndProofProver.prover1 self in
  let p2 := AndProofProver.prover2 self in
  well_formed G1 p1 → well_formed G2 p2 →
  mapM (dict_get (secret_values p1)) (secret_names p1) = Ok xs1 →
  mapM (dict_get (secret_values p2)) (secret_names p2) = Ok xs2 →
  lhs p1 = relation_point G1 xs1 (generators p1) →
  lhs p2 = relation_point G2 xs2 (generators p2) →
  (∀ d, randomizers_dict = Some d →
        Forall (λ n, is_Some (d !! n)) (secret_names p1)
        ∧ Forall (λ n, is_Some (d !! n)) (secret_names p2)) →
  ∃ commitment self' t' response,
    AndProofProver.commit self randomizers_dict t = Ok (commitment, self', t')
    ∧ AndProofProver.compute_response self' c = Ok response
    ∧ DLRepProof.recompute_commitment p1 c (response1 response)
        = Ok (commitment1 commitment)
    ∧ DLRepProof.recompute_commitment p2 c (response2 response)
        = Ok (commitment2 commitment)
    ∧ (∀ i j n,
         secret_names p1 !! i = Some n → secret_names p2 !! j = Some n →
         secret_values p1 !! n = secret_values p2 !! n →
         order G1 = order G2 →
         ∃ s, response1 response !! i = Some s
              ∧ response2 response !! j = Some s).
Proof.
  intros p1 p2 Hwf1 Hwf2 Hxs1 Hxs2 Hrel1 Hrel2 Hdict.
  pose proof (secret_values_nonempty G1 p1 xs1 Hwf1 Hxs1) as Hv1.
  pose proof (secret_values_nonempty G2 p2 xs2 Hwf2 Hxs2) as Hv2.
  assert (∃ d t1, run_randomizers self randomizers_dict t = Ok (d, t1)
            ∧ Forall (λ n, is_Some (d !! n)) (secret_names p1)
            ∧ Forall (λ n, is_Some (d !! n)) (secret_names p2))
    as (d & t1 & Hd & Hcov1 & Hcov2).
  { destruct randomizers_dict as [d|]; simpl.
    - exists d, t. split; [done|]. by apply Hdict.
    - destruct Hwf1 as (_ & _ & Hl1), Hwf2 as (_ & _ & Hl2).
      apply and_get_randomizers_covers; fold p1 p2; lia. }
  destruct (mapM_dict_get_total d _ Hcov1) as [ks1 Hks1].
  destruct (mapM_dict_get_total d _ Hcov2) as [ks2 Hks2].
  pose proof (mapM_Ok_length _ _ _ Hks1) as Hlk1.
  pose proof (mapM_Ok_length _ _ _ Hks2) as Hlk2.
  pose proof (mapM_Ok_length _ _ _ Hxs1) as Hlx1.
  pose proof (mapM_Ok_length _ _ _ Hxs2) as Hlx2.
  exists (mkAndProofCommitment
            (gsum G1 (zip_with pt_mul ks1 (generators p1)))
            (gsum G2 (zip_with pt_mul ks2 (generators p2)))),
    (AndProofProver.mk (committed p1 (order G1) ks1) (committed p2 (order G2) ks2)),
    t1,
    (mkAndProofResponse (responses_of (order G1) c xs1 ks1)
                        (responses_of (order G2) c xs2 ks2)).
  split; [|split; [|split; [|split]]].
  - rewrite and_commit_unfold, Hd. fold p1 p2.
    destruct Hwf1 as (? & ? & ?), Hwf2 as (? & ? & ?).
    rewrite (commit_Some_ok G1 p1 d ks1) by done.
    by rewrite (commit_Some_ok G2 p2 d ks2) by done.
  - unfold AndProofProver.compute_response. simpl.
    rewrite (compute_response_ok p1 _ ks1 xs1) by done.
    by rewrite (compute_response_ok p2 _ ks2 xs2) by done.
  - simpl. apply recompute_honest; [done..|lia].
  - simpl. apply recompute_honest; [done..|lia].
  - intros i j n Hi Hj Hvals Horder. simpl.
    destruct (responses_of_lookup (order G1) c xs1 ks1 _ _ d i n Hxs1 Hks1 Hi)
      as (x & k & Hx & Hk & Hr1).
    destruct (responses_of_lookup (order G2) c xs2 ks2 _ _ d j n Hxs2 Hks2 Hj)
      as (x' & k' & Hx' & Hk' & Hr2).
    exists (mod_add (mod_mul x c (order G1)) k (order G1)).
    split; [done|]. rewrite Hr2. rewrite <- Horder.
    assert (x' = x) as -> by congruence.
    assert (k' = k) as -> by congruence. done.
Qed.

Lemma and_completeness_witness :
  ∃ commitment self' t' response,
    AndProofProver.commit Example5.prover None Zq.tape0
      = Ok (commitment, self', t')
    ∧ AndProofProver.compute_response self' 9 = Ok response
    ∧ DLRepProof.recompute_commitment Example5.prover1 9 (response1 response)
        = Ok (commitment1 commitment)
    ∧ DLRepProof.recompute_commitment Example5.prover2 9 (response2 response)
        = Ok (commitment2 commitment)
    ∧ (∀ i j n,
         secret_names Example5.prover1 !! i = Some n →
         secret_names Example5.prover2 !! j = Some n →
         secret_values Example5.prover1 !! n = secret_values Example5.prover2 !! n →
         order Zq.G11 = order Zq.G11 →
         ∃ s, response1 response !! i = Some s
              ∧ response2 response !! j = Some s).
Proof.
  apply (and_completeness Zq.G11 Zq.G11 Example5.prover None [3; 5] [3; 7] 9
           Zq.tape0).
  - split; [discriminate|]. split; [|reflexivity]. repeat constructor.
  - split; [discriminate|]. split; [|reflexivity]. repeat constructor.
  - reflexivity.
  - reflexivity.
  - reflexivity.
  - reflexivity.
  - intros d Hd. discriminate Hd.
Defined.

(** ** [AndProof.get_prover] *)

Module Proof.
(** [class Proof]: what [AndProof] calls on a child to build its prover. *)
Class t `{PetLib} (S P : Type) := {
  get_prover : S → gmap string Z → Result P;
}.
End Proof.

Section AndProofProvers.
Context `{PetLib}.

(** [dict(pairs)]: a later pair replaces an earlier one with the same
    key. *)
Definition py_dict (pairs : list (string * Z)) : gmap string Z :=
  list_to_map (reverse pairs).

(** The loop of [sub_proof_prover] over the keys of [secrets_dict]. *)
Fixpoint sub_proof_loop (keys : gset string) (secrets_dict : gmap string Z)
    (s_names : list string) (secrets_for_prover : list (string * Z))
    : Result (list (string * Z)) :=
  match s_names with
  | [] => Ok secrets_for_prover
  | s_name :: rest =>
      if decide (s_name ∈ keys) then
        v ← dict_get secrets_dict s_name;
        sub_proof_loop keys secrets_dict rest
          (secrets_for_prover ++ [(s_name, v)])%list
      else sub_proof_loop keys secrets_dict rest secrets_for_prover
  end.

(** The inner function [sub_proof_prover] of [AndProof.get_prover]. *)
Definition sub_proof_prover {S P : Type} `{!Statement S, !Proof.t S P}
    (secrets_dict : gmap string Z) (sub_proof : S) : Result P :=
  let keys : gset string := list_to_set (get_secret_names sub_proof) in
  secrets_for_prover ←
    sub_proof_loop keys secrets_dict (map_to_list secrets_dict).*1 [];
  Proof.get_prover sub_proof (py_dict secrets_for_prover).

(** [AndProof.get_prover] *)
Definition AndProof_get_prover {S1 P1 S2 P2 : Type}
    `{!Statement S1, !Statement S2}
    {get_prover1 : Proof.t S1 P1} {get_prover2 : Proof.t S2 P2}
    (self : AndProof.t _ S1 S2) (secrets_dict : gmap string Z)
    : Result (AndProofProver.t P1 P2) :=
  prover1 ← sub_proof_prover secrets_dict (AndProof.proof1 self);
  prover2 ← sub_proof_prover secrets_dict (AndProof.proof2 self);
  mret (AndProofProver.mk prover1 prover2).

(** The entries of [secrets_dict] under the names of [names]. *)
Definition restrict (names : list string) (secrets_dict : gmap string Z)
    : gmap string Z :=
  filter (λ kv : string * Z, kv.1 ∈ (list_to_set names : gset string)) secrets_dict.

Lemma restrict_Some names secrets_dict n v :
  restrict names secrets_dict !! n = Some v
  ↔ n ∈ names ∧ secrets_dict !! n = Some v.
Proof.
  unfold restrict. rewrite map_lookup_filter_Some. simpl.
  rewrite elem_of_list_to_set. tauto.
Qed.

Lemma restrict_lookup names secrets_dict n :
  n ∈ names → restrict names secrets_dict !! n = secrets_dict !! n.
Proof.
  intros Hn. apply option_eq. intros v. rewrite restrict_Some. tauto.
Qed.

Lemma sub_proof_loop_pairs keys secrets_dict (kvs : list (string * Z)) :
  ∀ acc,
  (∀ k v, (k, v) ∈ kvs → secrets_dict !! k = Some v) →
  sub_proof_loop keys secrets_dict kvs.*1 acc
  = Ok (acc ++ filter (λ kv : string * Z, kv.1 ∈ keys) kvs)%list.
Proof.
  induction kvs as [|[k v] kvs IH]; intros acc Hin.
  - by rewrite app_nil_r.
  - rewrite fmap_cons, filter_cons. simpl.
    assert (∀ k' v', (k', v') ∈ kvs → secrets_dict !! k' = Some v') as Hin'
      by (intros k' v' Hk; apply Hin; by right).
    destruct (decide (k ∈ keys)) as [Hk|Hk].
    + unfold dict_get. rewrite (Hin k v) by (by left). simpl.
      rewrite IH by done. by rewrite <- app_assoc.
    + by rewrite IH.
Qed.

Lemma py_dict_filter (names : list string) (secrets_dict : gmap string Z) :
  py_dict (filter (λ kv : string * Z, kv.1 ∈ (list_to_set names : gset string))
             (map_to_list secrets_dict))
  = restrict names secrets_dict.
Proof.
  apply map_eq. intros k. apply option_eq. intros v.
  rewrite restrict_Some. unfold py_dict.
  rewrite <- elem_of_list_to_map'.
  - rewrite elem_of_reverse, list_elem_of_filter, elem_of_map_to_list. simpl.
    rewrite elem_of_list_to_set. tauto.
  - intros v'. rewrite !elem_of_reverse, !list_elem_of_filter,
      !elem_of_map_to_list. intros [_ Hv] [_ Hv']. congruence.
Qed.

Lemma sub_proof_prover_restrict {S P : Type} `{!Statement S, !Proof.t S P}
    (secrets_dict : gmap string Z) (sub_proof : S) :
  sub_proof_prover secrets_dict sub_proof
  = Proof.get_prover sub_proof
      (restrict (get_secret_names sub_proof) secrets_dict).
Proof.
  unfold sub_proof_prover.
  rewrite (sub_proof_loop_pairs _ secrets_dict (map_to_list secrets_dict) [])
    by (intros k v; apply elem_of_map_to_list).
  simpl. by rewrite py_dict_filter.
Qed.
End AndProofProvers.

(** X10 — [AndProof.get_prover] hands each conjunct the secrets it bears.
    Whatever the two children are, the loop of [sub_proof_prover] calls the
    first child's [get_prover] on the dictionary [d1] and then the second
    child's on [d2], where [d_i] has exactly the entries of the given
    dictionary whose names are among the child's secret names: a name that
    the given dictionary lacks is not in [d_i], a name that the child does
    not bear is not in [d_i], and a name that both children bear has the
    same value in [d1] and [d2]. The result is the And prover of the two
    children's provers; an exception of the first child comes before one
    of the second. *)
Theorem and_get_prover_distributes `{PetLib} {S1 P1 S2 P2 : Type}
    `{!Statement S1, !Statement S2}
    {get_prover1 : Proof.t S1 P1} {get_prover2 : Proof.t S2 P2}
    (self : AndProof.t _ S1 S2) (secrets_dict : gmap string Z) :
  let stmt1 := AndProof.proof1 self in
  let stmt2 := AndProof.proof2 self in
  let d1 := restrict (get_secret_names stmt1) secrets_dict in
  let d2 := restrict (get_secret_names stmt2) secrets_dict in
  AndProof_get_prover self secrets_dict =
    match Proof.get_prover stmt1 d1 with
    | Ok prover1 =>
        match Proof.get_prover stmt2 d2 with
        | Ok prover2 => Ok (AndProofProver.mk prover1 prover2)
        | Raise e => Raise e
        end
    | Raise e => Raise e
    end
  ∧ (∀ n v, d1 !! n = Some v
            ↔ n ∈ get_secret_names stmt1 ∧ secrets_dict !! n = Some v)
  ∧ (∀ n v, d2 !! n = Some v
            ↔ n ∈ get_secret_names stmt2 ∧ secrets_dict !! n = Some v)
  ∧ (∀ n, n ∈ get_secret_names stmt1 → n ∈ get_secret_names stmt2 →
          d1 !! n = d2 !! n).
Proof.
  intros stmt1 stmt2 d1 d2. split; [|split; [|split]].
  - unfold AndProof_get_prover. rewrite !sub_proof_prover_restrict.
    fold stmt1 stmt2 d1 d2.
    destruct (Proof.get_prover stmt1 d1); [|done].
    by destruct (Proof.get_prover stmt2 d2).
  - intros n v. apply restrict_Some.
  - intros n v. apply restrict_Some.
  - intros n Hn1 Hn2. unfold d1, d2. by rewrite !restrict_lookup.
Qed.

(** A [get_prover] for the children of the examples: it hands back the
    dictionary it is called with, so that a run shows what each child
    receives. *)
Definition Leaf_Proof `{PetLib} : Proof.t Leaf (gmap string Z) :=
  {| Proof.get_prover := λ _ d, Ok d |}.

Lemma and_get_prover_distributes_witness :
  AndProof_get_prover (get_prover1 := Leaf_Proof) (get_prover2 := Leaf_Proof)
    (AndProof.mk Example3.left_stmt Example3.right_stmt
       [Zq.pt11 1; Zq.pt11 4; Zq.pt11 6; Zq.pt11 7] ["x"; "y"; "x"; "z"])
    (<["x" := 3]> (<["y" := 5]> (<["z" := 7]> (<["w" := 9]> ∅))))
  = Ok (AndProofProver.mk
          (restrict ["x"; "y"]
             (<["x" := 3]> (<["y" := 5]> (<["z" := 7]> (<["w" := 9]> ∅)))))
          (restrict ["x"; "z"]
             (<["x" := 3]> (<["y" := 5]> (<["z" := 7]> (<["w" := 9]> ∅)))))).
Proof.
  exact (proj1 (and_get_prover_distributes
                  (get_prover1 := Leaf_Proof) (get_prover2 := Leaf_Proof)
                  (AndProof.mk Example3.left_stmt Example3.right_stmt
                     [Zq.pt11 1; Zq.pt11 4; Zq.pt11 6; Zq.pt11 7]
                     ["x"; "y"; "x"; "z"])
                  (<["x" := 3]> (<["y" := 5]> (<["z" := 7]> (<["w" := 9]> ∅)))))).
Defined.

(** ** What [check_adequate_lhs] decides *)

Section AdequateLhs.
Context `{PetLibLaws}.

(** The combination [sum_i 2^i * C_i] of a list of points of [G]. *)
Definition weighted_points (G : EcGroup) (Cs : list EcPt) : EcPt :=
  foldr (λ C acc, pt_add C (pt_mul 2 acc)) (infinite G) Cs.

Lemma group_weighted_points G Cs :
  Forall (in_group G) Cs → group (weighted_points G Cs) = G.
Proof.
  induction 1 as [|C Cs HC _ IH]; simpl; [apply group_infinite|].
  rewrite group_add; [done|]. by rewrite group_mul, IH.
Qed.

Lemma combine_loop_points G Cs : ∀ acc power,
  group acc = G → Forall (in_group G) Cs →
  PowerTwoRangeProof.combine_loop acc power (PPoint <$> Cs)
    = Ok (pt_add acc (pt_mul power (weighted_points G Cs))).
Proof.
  induction Cs as [|C Cs IH]; intros acc power Hacc HCs; simpl.
  - rewrite mul_infinite, <- Hacc. by rewrite add_infinite_r.
  - inversion HCs as [|? ? HC HCs']; subst. unfold in_group in HC.
    unfold ec_add. rewrite decide_True by (by rewrite group_mul).
    unfold_M.
    rewrite IH by (done || rewrite group_add; rewrite ?group_mul; congruence).
    f_equal.
    assert (group (weighted_points (group acc) Cs) = group acc) as HW
      by (by apply group_weighted_points).
    rewrite mul_add_r by (by rewrite group_mul, HW).
    rewrite mul_mul.
    rewrite <- add_assoc by (rewrite !group_mul; congruence).
    done.
Qed.

Lemma check_adequate_lhs_points G (pf : PowerTwoRangeProof) (Cs : list EcPt)
    (rho : Z) (rest : list PreItem) :
  group (g pf) = G → group (h pf) = G → group (com pf) = G →
  Forall (in_group G) Cs →
  length Cs = Z.to_nat (nr_bits pf) → 0 ≤ nr_bits pf →
  PowerTwoRangeProof.check_adequate_lhs
    (PowerTwoRangeProof.store_precommitment pf
       ((PPoint <$> Cs) ++ PScalar rho :: rest))
  = Ok (bool_decide (weighted_points G Cs
                     = pt_add (com pf) (pt_mul rho (h pf)))).
Proof.
  intros Hg Hh Hcom HCs Hlen Hn.
  unfold PowerTwoRangeProof.check_adequate_lhs. simpl.
  assert (length (PPoint <$> Cs) = Z.to_nat (nr_bits pf)) as Hpts
    by (by rewrite length_fmap).
  unfold py_index_int, py_slice_to. rewrite !decide_True by done.
  unfold py_index. rewrite lookup_app_r by lia.
  rewrite Hpts, Nat.sub_diag. simpl.
  rewrite take_app_length' by done.
  rewrite (combine_loop_points G) by (done || by rewrite group_infinite, Hg).
  simpl. unfold ec_add. rewrite decide_True by (by rewrite group_mul, Hcom, Hh).
  simpl. unfold ec_eq.
  pose proof (group_weighted_points G Cs HCs) as HW.
  assert (pt_add (infinite (group (g pf))) (pt_mul 1 (weighted_points G Cs))
          = weighted_points G Cs) as Hsum.
  { rewrite mul_1, Hg. rewrite <- HW at 1. apply add_infinite_l. }
  destruct (decide (group (pt_add (infinite (group (g pf)))
                             (pt_mul 1 (weighted_points G Cs)))
                    = group (pt_add (com pf) (pt_mul rho (h pf)))))
    as [_|Hdiff].
  - by rewrite Hsum.
  - destruct Hdiff. rewrite Hsum, HW, group_add; rewrite ?group_mul; congruence.
Qed.

Lemma check_adequate_lhs_short (pf : PowerTwoRangeProof) (pre : list PreItem) :
  0 ≤ nr_bits pf → (length pre ≤ Z.to_nat (nr_bits pf))%nat →
  PowerTwoRangeProof.check_adequate_lhs
    (PowerTwoRangeProof.store_precommitment pf pre) = Raise IndexError.
Proof.
  intros Hn Hlen. unfold PowerTwoRangeProof.check_adequate_lhs. simpl.
  unfold py_index_int. rewrite decide_True by done.
  unfold py_index. by rewrite lookup_ge_None_2.
Qed.
End AdequateLhs.

(** X11 — [check_adequate_lhs] on any precommitment. For a statement with
    [g], [h] and [com] in one group and a precommitment of [nr_bits] points
    of that group followed by a number [rho], the check returns [True]
    exactly when [sum_i 2^i * C_i = com + rho * h], and [False] otherwise;
    entries after [rho] are not read. A precommitment of at most [nr_bits]
    entries raises [IndexError]. If the check accepts a precommitment, it
    rejects the one in which [C_0] is replaced by another point of the
    group. *)
Theorem check_adequate_lhs_decides `{PetLibLaws} (G : EcGroup)
    (pf : PowerTwoRangeProof) (Cs : list EcPt) (rho : Z) (rest : list PreItem) :
  group (g pf) = G → group (h pf) = G → group (com pf) = G →
  Forall (in_group G) Cs →
  length Cs = Z.to_nat (nr_bits pf) → 0 ≤ nr_bits pf →
  PowerTwoRangeProof.check_adequate_lhs
    (PowerTwoRangeProof.store_precommitment pf
       ((PPoint <$> Cs) ++ PScalar rho :: rest))
  = Ok (bool_decide (weighted_points G Cs
                     = pt_add (com pf) (pt_mul rho (h pf))))
  ∧ (∀ pre, (length pre ≤ Z.to_nat (nr_bits pf))%nat →
       PowerTwoRangeProof.check_adequate_lhs
         (PowerTwoRangeProof.store_precommitment pf pre) = Raise IndexError)
  ∧ (∀ C0 C0' Cs',
       Cs = C0 :: Cs' → group C0' = G → C0' ≠ C0 →
       PowerTwoRangeProof.check_adequate_lhs
         (PowerTwoRangeProof.store_precommitment pf
            ((PPoint <$> Cs) ++ PScalar rho :: rest)) = Ok true →
       PowerTwoRangeProof.check_adequate_lhs
         (PowerTwoRangeProof.store_precommitment pf
            ((PPoint <$> C0' :: Cs') ++ PScalar rho :: rest)) = Ok false).
Proof.
  intros Hg Hh Hcom HCs Hlen Hn. split; [|split].
  - by apply check_adequate_lhs_points.
  - intros pre Hpre. by apply check_adequate_lhs_short.
  - intros C0 C0' Cs' -> HC0' Hdiff Hacc.
    pose proof HCs as [HC0 HCs']%Forall_cons. unfold in_group in HC0.
    rewrite (check_adequate_lhs_points G) in Hacc by done.
    rewrite (check_adequate_lhs_points G); try done; [|by constructor].
    injection Hacc as Hacc. apply bool_decide_eq_true_1 in Hacc.
    f_equal. apply bool_decide_eq_false_2. intros Heq.
    rewrite <- Hacc in Heq. simpl in Heq.
    apply Hdiff. eapply (add_cancel_r G); [done|done| |exact Heq].
    by rewrite group_mul, group_weighted_points.
Qed.

Lemma check_adequate_lhs_decides_witness :
  PowerTwoRangeProof.check_adequate_lhs
    (PowerTwoRangeProof.store_precommitment Example6.verifier_stmt
       ((PPoint <$> [Zq.pt11 1; Zq.pt11 2; Zq.pt11 3; Zq.pt11 4; Zq.pt11 5])
          ++ PScalar 7 :: []))
  = Ok (bool_decide
          (weighted_points Zq.G11
             [Zq.pt11 1; Zq.pt11 2; Zq.pt11 3; Zq.pt11 4; Zq.pt11 5]
           = pt_add (com Example6.verifier_stmt)
               (pt_mul 7 (h Example6.verifier_stmt)))).
Proof.
  refine (proj1 (check_adequate_lhs_decides Zq.G11 Example6.verifier_stmt
                   [Zq.pt11 1; Zq.pt11 2; Zq.pt11 3; Zq.pt11 4; Zq.pt11 5]
                   7 [] _ _ _ _ _ _)).
  - reflexivity.
  - reflexivity.
  - reflexivity.
  - repeat constructor.
  - reflexivity.
  - discriminate.
Defined.

(** ** The width of a general range *)

(** A number handed to the code: a [Bn] already, or a Python [int]. *)
Inductive PyNum :=
| PyBn (z : Z)
| PyInt (z : Z).

Definition py_val (num : PyNum) : Z :=
  match num with PyBn z => z | PyInt z => z end.

Section BnConstructor.
Context `{PetLib}.
(** The library's constructor [Bn(num)] hands the magnitude of [num] to
    the C library as one machine word; [word_max] is the largest magnitude
    that fits. *)
Variable word_max : Z.

(** [Bn(num)] on a Python [int]. *)
Definition Bn_of_int (num : Z) : Result Z :=
  if decide (Z.abs num ≤ word_max) then Ok num else Raise OverflowError.

(** [x if isinstance(x, Bn) else Bn(x)] *)
Definition ensure_Bn (num : PyNum) : Result Z :=
  match num with
  | PyBn z => Ok z
  | PyInt z => Bn_of_int z
  end.

(** [to_Bn(num)] *)
Definition to_Bn (num : PyNum) : Result Z := ensure_Bn num.

(** The numbers that pass the cast: every [Bn], and the [int]s of one
    word. *)
Definition fits (num : PyNum) : Prop :=
  match num with
  | PyBn _ => True
  | PyInt z => Z.abs z ≤ word_max
  end.

Global Instance fits_dec num : Decision (fits num).
Proof. destruct num; simpl; apply _. Defined.

Lemma ensure_Bn_fits num : fits num → ensure_Bn num = Ok (py_val num).
Proof.
  destruct num as [z|z]; simpl; [done|]. intros Hz. unfold Bn_of_int.
  by rewrite decide_True.
Qed.

Lemma ensure_Bn_overflow num : ¬ fits num → ensure_Bn num = Raise OverflowError.
Proof.
  destruct num as [z|z]; simpl; [by intros []|]. intros Hz. unfold Bn_of_int.
  by rewrite decide_False.
Qed.
End BnConstructor.

(** What [RangeProof.__init__] records. *)
Record RangeProof := mkRangeProof {
  lower_limit : Z;
  upper_limit : Z;
  range_nr_bits : Z;
}.

(** [RangeProof.__init__]; the body reads [lower_limit] and [upper_limit]
    only. *)
Definition RangeProof_init `{PetLib} (word_max : Z) (com g h : EcPt)
    (lower_limit upper_limit : PyNum) (value randomizer : Secret)
    : Result RangeProof :=
  lower ← to_Bn word_max lower_limit;
  upper ← to_Bn word_max upper_limit;
  Ok (mkRangeProof lower upper (num_bits (upper - lower - 1))).

Lemma num_bits_mono a b : 0 ≤ a ≤ b → num_bits a ≤ num_bits b.
Proof.
  intros [Ha Hab]. unfold num_bits.
  destruct (decide (a = 0)) as [->|Ha0], (decide (b = 0)) as [->|Hb0]; try lia.
  - pose proof (Z.log2_nonneg (Z.abs b)). lia.
  - rewrite !Z.abs_eq by lia. pose proof (Z.log2_le_mono a b Hab). lia.
Qed.

Lemma num_bits_lower a : 0 < a → 2 ^ (num_bits a - 1) ≤ a.
Proof.
  intros Ha. unfold num_bits. rewrite decide_False by lia.
  rewrite Z.abs_eq by lia. replace (Z.log2 a + 1 - 1) with (Z.log2 a) by lia.
  by apply Z.log2_spec.
Qed.

(** X12 — the bit width that [RangeProof] derives from its limits. Each
    limit is a [Bn] or an [int]; an [int] limit that does not fit the
    constructor [Bn] makes [RangeProof] raise [OverflowError]. When both
    limits pass and [lower < upper], the statement is built and its width
    [nr_bits] is enough for the distance of every value of the range from
    either end: [v - lower] and [upper - 1 - v] have at most [nr_bits]
    bits, so [decompose_into_n_bits] takes both apart without an error,
    and [upper - lower <= 2^nr_bits]. It is the least such width: when
    [upper - lower >= 2], already [2^(nr_bits - 1) < upper - lower]. *)
Theorem range_proof_width `{PetLib} (word_max : Z) (com g h : EcPt)
    (lo hi : PyNum) (value randomizer : Secret) :
  let lower := py_val lo in
  let upper := py_val hi in
  (fits word_max lo → fits word_max hi → lower < upper →
   ∃ stmt,
     RangeProof_init word_max com g h lo hi value randomizer
       = Ok stmt
     ∧ lower_limit stmt = lower ∧ upper_limit stmt = upper
     ∧ 0 ≤ range_nr_bits stmt
     ∧ upper - lower ≤ 2 ^ range_nr_bits stmt
     ∧ (2 ≤ upper - lower → 2 ^ (range_nr_bits stmt - 1) < upper - lower)
     ∧ (∀ v, lower ≤ v < upper →
          num_bits (v - lower) ≤ range_nr_bits stmt
          ∧ num_bits (upper - 1 - v) ≤ range_nr_bits stmt
          ∧ (∃ bits, decompose_into_n_bits (v - lower) (range_nr_bits stmt)
                       = Ok bits
                     ∧ bits_value bits = v - lower)
          ∧ (∃ bits, decompose_into_n_bits (upper - 1 - v) (range_nr_bits stmt)
                       = Ok bits
                     ∧ bits_value bits = upper - 1 - v)))
  ∧ (¬ fits word_max lo ∨ ¬ fits word_max hi →
     RangeProof_init word_max com g h lo hi value randomizer
       = Raise OverflowError).
Proof.
  intros lower upper. split.
  - intros Hfl Hfu Hlt.
    exists (mkRangeProof lower upper (num_bits (upper - lower - 1))).
    split.
    { unfold RangeProof_init, to_Bn.
      by rewrite (ensure_Bn_fits _ _ Hfl), (ensure_Bn_fits _ _ Hfu). }
    simpl.
    pose proof (num_bits_nonneg (upper - lower - 1)) as Hnb.
    split; [done|]. split; [done|]. split; [done|]. split; [|split].
    + pose proof (num_bits_bound (upper - lower - 1) (num_bits (upper - lower - 1))
                    ltac:(lia) ltac:(lia)). lia.
    + intros Hwide.
      pose proof (num_bits_lower (upper - lower - 1) ltac:(lia)). lia.
    + intros v Hv.
      assert (∀ d, 0 ≤ d ≤ upper - lower - 1 →
                num_bits d ≤ num_bits (upper - lower - 1)
                ∧ ∃ bits, decompose_into_n_bits d (num_bits (upper - lower - 1))
                            = Ok bits ∧ bits_value bits = d) as Hfits.
      { intros d Hd. pose proof (num_bits_mono d _ Hd) as Hmono.
        split; [done|].
        destruct (decompose_Ok d _ Hmono) as (bits & Hdec & _).
        exists bits. split; [done|]. eapply decompose_value; [|done]. lia. }
      destruct (Hfits (v - lower) ltac:(lia)) as [? ?].
      destruct (Hfits (upper - 1 - v) ltac:(lia)) as [? ?].
      done.
  - intros Hover. unfold RangeProof_init, to_Bn.
    destruct (decide (fits word_max lo)) as [Hfl|Hfl].
    + rewrite (ensure_Bn_fits _ _ Hfl). simpl.
      destruct Hover as [?|Hfu]; [done|].
      by rewrite (ensure_Bn_overflow _ _ Hfu).
    + by rewrite (ensure_Bn_overflow _ _ Hfl).
Qed.

Lemma range_proof_width_witness :
  ∃ stmt,
    RangeProof_init 4294967295 (Zq.pt11 1) (Zq.pt11 1) (Zq.pt11 3)
      (PyInt 5) (PyInt 20) (mkSecret "v" None) (mkSecret "r" None) = Ok stmt
    ∧ lower_limit stmt = 5 ∧ upper_limit stmt = 20
    ∧ 0 ≤ range_nr_bits stmt
    ∧ 20 - 5 ≤ 2 ^ range_nr_bits stmt
    ∧ (2 ≤ 20 - 5 → 2 ^ (range_nr_bits stmt - 1) < 20 - 5)
    ∧ (∀ v, 5 ≤ v < 20 →
         num_bits (v - 5) ≤ range_nr_bits stmt
         ∧ num_bits (20 - 1 - v) ≤ range_nr_bits stmt
         ∧ (∃ bits, decompose_into_n_bits (v - 5) (range_nr_bits stmt) = Ok bits
                    ∧ bits_value bits = v - 5)
         ∧ (∃ bits, decompose_into_n_bits (20 - 1 - v) (range_nr_bits stmt)
                      = Ok bits
                    ∧ bits_value bits = 20 - 1 - v)).
Proof.
  refine (proj1 (range_proof_width 4294967295 (Zq.pt11 1) (Zq.pt11 1) (Zq.pt11 3)
                   (PyInt 5) (PyInt 20) (mkSecret "v" None) (mkSecret "r" None))
            _ _ _).
  - simpl. lia.
  - simpl. lia.
  - reflexivity.
Defined.

(** A limit of more than one word. *)
Example range_proof_overflow :
  RangeProof_init 4294967295 (Zq.pt11 1) (Zq.pt11 1) (Zq.pt11 3)
    (PyInt 0) (PyInt 4294967296) (mkSecret "v" None) (mkSecret "r" None)
  = Raise OverflowError
  ∧ RangeProof_init 4294967295 (Zq.pt11 1) (Zq.pt11 1) (Zq.pt11 3)
      (PyInt 0) (PyBn 4294967296) (mkSecret "v" None) (mkSecret "r" None)
    = Ok (mkRangeProof 0 4294967296 32).
Proof. split; reflexivity. Qed.

(** ** The sign of a decomposed value *)

Lemma num_bits_opp v : num_bits (- v) = num_bits v.
Proof.
  unfold num_bits. rewrite Z.abs_opp.
  destruct (decide (- v = 0)), (decide (v = 0)); lia.
Qed.

Lemma decompose_opp `{PetLib} v n :
  decompose_into_n_bits (- v) n = decompose_into_n_bits v n.
Proof.
  unfold decompose_into_n_bits, is_bit_set. by rewrite num_bits_opp, Z.abs_opp.
Qed.

(** X13 — [decompose_into_n_bits] does not see the sign. A value and its
    negative are taken apart into the same list; every entry of a returned
    list is 0 or 1 and the entries add up, with the weights [2^i], to the
    magnitude of the value. A negative value that fits is therefore
    accepted and treated as its magnitude. *)
Theorem decompose_magnitude `{PetLib} (v n : Z) (bits : list Z) :
  decompose_into_n_bits v n = Ok bits →
  decompose_into_n_bits (- v) n = Ok bits
  ∧ bits_value bits = Z.abs v
  ∧ Forall (λ b, b = 0 ∨ b = 1) bits.
Proof.
  intros Hdec. split; [by rewrite decompose_opp|]. split.
  - apply (decompose_value (Z.abs v) n); [lia|].
    destruct (Z.abs_spec v) as [[_ ->]|[_ ->]]; [done|by rewrite decompose_opp].
  - destruct (decide (n < num_bits v)) as [Hlt|Hge];
      [by rewrite decompose_Raise in Hdec|].
    destruct (decompose_Ok v n) as (bits' & Hdec' & Hlen & Hbits); [lia|].
    assert (bits' = bits) as -> by congruence.
    apply Forall_forall. intros b Hb. apply list_elem_of_lookup in Hb as [i Hi].
    rewrite Hbits in Hi by (apply lookup_lt_Some in Hi; lia).
    injection Hi as <-. unfold bit_of. destruct (is_bit_set v _); auto.
Qed.

Lemma decompose_magnitude_witness :
  decompose_into_n_bits (- -10) 5 = Ok [0; 1; 0; 1; 0]
  ∧ bits_value [0; 1; 0; 1; 0] = Z.abs (-10)
  ∧ Forall (λ b, b = 0 ∨ b = 1) [0; 1; 0; 1; 0].
Proof.
  apply (decompose_magnitude (-10) 5 [0; 1; 0; 1; 0]). reflexivity.
Defined.

(** ** zkbuilder/utils/groups.py *)

(** The loop of [sum_bn_array]: an element that is no [Bn] is cast before
    it is added. *)
Fixpoint sum_bn_array_loop `{PetLib} (word_max : Z) (modulus res : Z)
    (arr : list PyNum) : Result Z :=
  match arr with
  | [] => Ok res
  | elem :: rest =>
      elem1 ← ensure_Bn word_max elem;
      sum_bn_array_loop word_max modulus (mod_add res elem1 modulus) rest
  end.

(** [sum_bn_array(arr, modulus)]; [Bn(0)] is the number 0. *)
Definition sum_bn_array `{PetLib} (word_max : Z) (arr : list PyNum)
    (modulus : PyNum) : Result Z :=
  modulus1 ← ensure_Bn word_max modulus;
  sum_bn_array_loop word_max modulus1 0 arr.

(** [get_random_num(bits)] *)
Definition get_random_num `{PetLib} (bits : Z) : M Z :=
  let order := 2 ^ bits in
  random order.

Section RandomPoints.
Context `{PetLib}.
(** [DEFAULT_GROUP] of zkbuilder.consts and the library's
    [group.hash_to_point], which are not among the sources; a hashed point
    lies in the group that hashes it. *)
Variable DEFAULT_GROUP : EcGroup.
Variable hash_to_point : EcGroup → list Z → EcPt.
Hypothesis hash_to_point_group : ∀ G bytes, group (hash_to_point G bytes) = G.

(** [os.urandom(n)]: [n] random bytes. *)
Fixpoint urandom (n : nat) : M (list Z) :=
  match n with
  | O => mret []
  | S n' => b ← random 256; bs ← urandom n'; mret (b :: bs)
  end.

(** [get_random_point(group, random_bits)] *)
Definition get_random_point (group : option EcGroup) (random_bits : nat) : M EcPt :=
  let group1 := match group with None => DEFAULT_GROUP | Some G => G end in
  bytes ← urandom random_bits;
  mret (hash_to_point group1 bytes).

(** The comprehension of [make_generators], [count] points. *)
Fixpoint make_generators_loop (count : nat) (group : EcGroup) (random_bits : nat)
    : M (list EcPt) :=
  match count with
  | O => mret []
  | S count' =>
      P ← get_random_point (Some group) random_bits;
      Ps ← make_generators_loop count' group random_bits;
      mret (P :: Ps)
  end.

(** [make_generators(num, group, random_bits)] *)
Definition make_generators (num : Z) (group : option EcGroup) (random_bits : nat)
    : M (list EcPt) :=
  let group1 := match group with None => DEFAULT_GROUP | Some G => G end in
  make_generators_loop (Z.to_nat num) group1 random_bits.

Lemma urandom_ok n : ∀ t, ∃ bytes t', urandom n t = Ok (bytes, t').
Proof.
  induction n as [|n IH]; intros t; simpl; [by eexists _, _|].
  unfold_M. unfold random. destruct (IH (λ k, t (S k))) as (bs & t' & ->).
  by eexists _, _.
Qed.

Lemma make_generators_loop_ok count G random_bits : ∀ t,
  ∃ gens t', make_generators_loop count G random_bits t = Ok (gens, t')
             ∧ length gens = count
             ∧ Forall (λ P, group P = G) gens.
Proof using hash_to_point_group.
  induction count as [|count IH]; intros t; simpl.
  - exists [], t. by repeat split.
  - unfold get_random_point. unfold_M.
    destruct (urandom_ok random_bits t) as (bytes & t1 & ->).
    destruct (IH t1) as (gens & t' & -> & Hlen & HG).
    exists (hash_to_point G bytes :: gens), t'.
    split; [done|]. split; [by rewrite <- Hlen|]. by constructor.
Qed.

Lemma make_generators_initialize (num : Z) (group0 : option EcGroup)
    (random_bits : nat) (secret_names : list string) (lhs : EcPt) (t : Tape) :
  1 ≤ num → length secret_names = Z.to_nat num →
  ∃ gens t',
    make_generators num group0 random_bits t = Ok (gens, t')
    ∧ length gens = Z.to_nat num
    ∧ Forall (λ P, group P = match group0 with
                             | None => DEFAULT_GROUP
                             | Some G => G
                             end) gens
    ∧ DLRepProof.initialize gens secret_names lhs =
        Ok (mkDLRepProof gens secret_names lhs false).
Proof using hash_to_point_group.
  intros Hnum Hnames. unfold make_generators.
  destruct (make_generators_loop_ok (Z.to_nat num)
              (match group0 with None => DEFAULT_GROUP | Some G => G end)
              random_bits t) as (gens & t' & Hrun & Hlen & HG).
  exists gens, t'. split; [done|]. split; [done|]. split; [done|].
  apply initialize_Ok.
  - intros ->. simpl in Hlen. lia.
  - lia.
  - intros P Q HP HQ. rewrite Forall_forall in HG.
    by rewrite (HG P HP), (HG Q HQ).
Qed.
End RandomPoints.

Lemma sum_bn_array_mod (arr : list Z) (modulus : Z) : ∀ res,
  0 < modulus →
  foldl (λ res elem, mod_add res elem modulus) res arr mod modulus
    = (res + foldr Z.add 0 arr) mod modulus.
Proof.
  induction arr as [|a arr IH]; intros res Hm; simpl.
  - f_equal. lia.
  - rewrite IH by done. unfold mod_add. rewrite Zplus_mod_idemp_l.
    f_equal. lia.
Qed.

Lemma sum_bn_array_range (arr : list Z) (modulus : Z) : ∀ res,
  0 < modulus → 0 ≤ res < modulus →
  0 ≤ foldl (λ res elem, mod_add res elem modulus) res arr < modulus.
Proof.
  induction arr as [|a arr IH]; intros res Hm Hres; simpl; [done|].
  apply IH; [done|]. unfold mod_add. by apply Z.mod_pos_bound.
Qed.

Lemma sum_bn_array_loop_fits `{PetLib} word_max modulus (arr : list PyNum) :
  ∀ res, Forall (fits word_max) arr →
  sum_bn_array_loop word_max modulus res arr
  = Ok (foldl (λ res elem, mod_add res elem modulus) res (py_val <$> arr)).
Proof.
  induction arr as [|elem arr IH]; intros res Hall; [done|].
  apply Forall_cons in Hall as [Helem Hall]. simpl.
  rewrite (ensure_Bn_fits _ _ Helem). simpl. by apply IH.
Qed.

Lemma sum_bn_array_loop_overflow `{PetLib} word_max modulus (arr : list PyNum) :
  ∀ res, Exists (λ elem, ¬ fits word_max elem) arr →
  sum_bn_array_loop word_max modulus res arr = Raise OverflowError.
Proof.
  induction arr as [|elem arr IH]; intros res Hex; [by apply Exists_nil in Hex|].
  simpl. destruct (decide (fits word_max elem)) as [Helem|Helem].
  - rewrite (ensure_Bn_fits _ _ Helem). simpl. apply IH.
    by apply Exists_cons in Hex as [?|?].
  - by rewrite (ensure_Bn_overflow _ _ Helem).
Qed.

(** X14 — [sum_bn_array] under a positive modulus. The modulus and the
    elements are [Bn]s or [int]s; an [int] that does not fit the
    constructor [Bn], as modulus or anywhere in the array, makes the call
    raise [OverflowError]. When all pass, the call returns the sum of the
    array reduced into [0, modulus); the empty array gives 0, and the
    result for two arrays laid end to end is the modular sum of their
    results. *)
Theorem sum_bn_array_sum `{PetLib} (word_max : Z) (arr arr' : list PyNum)
    (modulus : PyNum) :
  0 < py_val modulus →
  let m := py_val modulus in
  let total (l : list PyNum) := foldr Z.add 0 (py_val <$> l) in
  (fits word_max modulus → Forall (fits word_max) arr →
   Forall (fits word_max) arr' →
   sum_bn_array word_max arr modulus = Ok (total arr mod m)
   ∧ 0 ≤ total arr mod m < m
   ∧ sum_bn_array word_max [] modulus = Ok 0
   ∧ sum_bn_array word_max (arr ++ arr') modulus =
       Ok (mod_add (total arr mod m) (total arr' mod m) m))
  ∧ (¬ fits word_max modulus →
     sum_bn_array word_max arr modulus = Raise OverflowError)
  ∧ (fits word_max modulus → Exists (λ elem, ¬ fits word_max elem) arr →
     sum_bn_array word_max arr modulus = Raise OverflowError).
Proof.
  intros Hm m total. split; [|split].
  - intros Hfm Harr Harr'.
    assert (∀ l, Forall (fits word_max) l →
                 sum_bn_array word_max l modulus = Ok (total l mod m)) as Hsum.
    { intros l Hl. unfold sum_bn_array.
      rewrite (ensure_Bn_fits _ _ Hfm). simpl.
      rewrite sum_bn_array_loop_fits by done. f_equal.
      pose proof (sum_bn_array_mod (py_val <$> l) m 0 Hm) as Hmod.
      pose proof (sum_bn_array_range (py_val <$> l) m 0 Hm ltac:(lia)) as Hrange.
      rewrite Z.mod_small in Hmod by done. exact Hmod. }
    split; [by apply Hsum|]. split; [by apply Z.mod_pos_bound|].
    split; [by rewrite Hsum|].
    rewrite Hsum by (by apply Forall_app). f_equal.
    unfold mod_add. rewrite <- Zplus_mod. f_equal.
    unfold total. rewrite fmap_app.
    generalize (py_val <$> arr) as l. intros l.
    induction l as [|a l IH]; simpl; lia.
  - intros Hfm. unfold sum_bn_array. by rewrite (ensure_Bn_overflow _ _ Hfm).
  - intros Hfm Hex. unfold sum_bn_array.
    rewrite (ensure_Bn_fits _ _ Hfm). simpl.
    by apply sum_bn_array_loop_overflow.
Qed.

Lemma sum_bn_array_sum_witness :
  sum_bn_array 4294967295 [PyInt 5; PyBn 1099511627776; PyInt 12] (PyInt 11)
    = Ok ((5 + (1099511627776 + (12 + 0))) mod 11)
  ∧ 0 ≤ (5 + (1099511627776 + (12 + 0))) mod 11 < 11
  ∧ sum_bn_array 4294967295 [] (PyInt 11) = Ok 0
  ∧ sum_bn_array 4294967295
      ([PyInt 5; PyBn 1099511627776; PyInt 12] ++ [PyInt 7]) (PyInt 11)
    = Ok (mod_add ((5 + (1099511627776 + (12 + 0))) mod 11)
            ((7 + 0) mod 11) 11).
Proof.
  refine (proj1 (sum_bn_array_sum 4294967295
                   [PyInt 5; PyBn 1099511627776; PyInt 12] [PyInt 7] (PyInt 11)
                   _) _ _ _).
  - reflexivity.
  - simpl. lia.
  - repeat constructor; simpl; lia.
  - repeat constructor; simpl; lia.
Defined.

(** An [int] of more than one word in the array. *)
Example sum_bn_array_overflow :
  sum_bn_array 4294967295 [PyInt 4294967296; PyInt 5] (PyInt 11)
    = Raise OverflowError
  ∧ sum_bn_array 4294967295 [PyBn 4294967296; PyInt 5] (PyInt 11) = Ok 9.
Proof. split; reflexivity. Qed.

(** X15 — [get_random_num(bits)] returns a number of at most [bits] bits,
    not of exactly that many: it lies in [0, 2^bits), so
    [decompose_into_n_bits] takes it apart into [bits] bits without an
    error. *)
Theorem get_random_num_bits `{PetLib} (bits : Z) (t : Tape) :
  0 ≤ bits →
  ∃ x t', get_random_num bits t = Ok (x, t')
          ∧ 0 ≤ x < 2 ^ bits
          ∧ num_bits x ≤ bits
          ∧ ∃ l, decompose_into_n_bits x bits = Ok l ∧ bits_value l = x.
Proof.
  intros Hbits. unfold get_random_num, random.
  assert (0 < 2 ^ bits) as Hpow by (by apply Z.pow_pos_nonneg).
  pose proof (Z.mod_pos_bound (t 0%nat) (2 ^ bits) Hpow) as Hx.
  exists (t 0%nat mod 2 ^ bits), (λ n, t (S n)).
  split; [done|]. split; [done|].
  assert (num_bits (t 0%nat mod 2 ^ bits) ≤ bits) as Hnb.
  { unfold num_bits. case_decide as Hz; [done|].
    rewrite Z.abs_eq by lia.
    assert (Z.log2 (t 0%nat mod 2 ^ bits) < bits); [|lia].
    apply Z.log2_lt_pow2; lia. }
  split; [done|].
  destruct (decompose_Ok _ _ Hnb) as (l & Hl & _).
  exists l. split; [done|]. eapply decompose_value; [|done]. lia.
Qed.

Lemma get_random_num_bits_witness :
  ∃ x t', get_random_num 4 (λ n, 37) = Ok (x, t')
          ∧ 0 ≤ x < 2 ^ 4
          ∧ num_bits x ≤ 4
          ∧ ∃ l, decompose_into_n_bits x 4 = Ok l ∧ bits_value l = x.
Proof.
  apply (get_random_num_bits 4 (λ n, 37)). discriminate.
Defined.

(** X16 — the generators of [make_generators] make a statement. For
    [num >= 1], [make_generators] returns [num] points that all lie in the
    group it was given (or in the default group), and [initialize] accepts
    them with any [num] secret names and any [lhs]. *)
Theorem make_generators_statement `{PetLib} (DEFAULT_GROUP : EcGroup)
    (hash_to_point : EcGroup → list Z → EcPt) (num : Z)
    (group0 : option EcGroup) (random_bits : nat)
    (secret_names : list string) (lhs : EcPt) (t : Tape) :
  (∀ G bytes, group (hash_to_point G bytes) = G) →
  1 ≤ num → length secret_names = Z.to_nat num →
  ∃ gens t',
    make_generators DEFAULT_GROUP hash_to_point num group0 random_bits t
      = Ok (gens, t')
    ∧ length gens = Z.to_nat num
    ∧ Forall (λ P, group P = match group0 with
                             | None => DEFAULT_GROUP
                             | Some G => G
                             end) gens
    ∧ DLRepProof.initialize gens secret_names lhs =
        Ok (mkDLRepProof gens secret_names lhs false).
Proof.
  intros Hhash Hnum Hnames. by apply make_generators_initialize.
Qed.

Lemma make_generators_statement_witness :
  ∃ gens t',
    make_generators Zq.G11 (λ G bytes, Zq.mkZPt G (foldr Z.add 0 bytes)) 2
      None 3 Zq.tape0 = Ok (gens, t')
    ∧ length gens = Z.to_nat 2
    ∧ Forall (λ P, group P = Zq.G11) gens
    ∧ DLRepProof.initialize gens ["x"; "y"] (Zq.pt11 3) =
        Ok (mkDLRepProof gens ["x"; "y"] (Zq.pt11 3) false).
Proof.
  apply (make_generators_statement Zq.G11
           (λ G bytes, Zq.mkZPt G (foldr Z.add 0 bytes)) 2 None 3
           ["x"; "y"] (Zq.pt11 3) Zq.tape0).
  - reflexivity.
  - discriminate.
  - reflexivity.
Defined.

(** ** What [internal_precommit] draws and leaves behind *)

(** The first [n] draws of a tape, each reduced as [random] does. *)
Definition draws (q : Z) (n : nat) (t : Tape) : list Z :=
  (λ i, t i mod q) <$> seq 0 n.

Lemma draws_S q n t :
  draws q (S n) t = t 0%nat mod q :: draws q n (λ k, t (S k)).
Proof.
  unfold draws. simpl. f_equal.
  rewrite <- fmap_S_seq, <- list_fmap_compose. done.
Qed.

Lemma length_draws q n t : length (draws q n t) = n.
Proof. unfold draws. by rewrite length_fmap, length_seq. Qed.

Lemma draws_range q n t : 0 < q → Forall (λ x, 0 ≤ x < q) (draws q n t).
Proof.
  intros Hq. unfold draws. apply Forall_fmap, Forall_forall.
  intros i _. simpl. by apply Z.mod_pos_bound.
Qed.

Lemma draw_randomizers_tape `{PetLib} q (rs : list Secret) : ∀ t,
  PowerTwoRangeProver.draw_randomizers q rs t
  = Ok (with_values rs (draws q (length rs) t), λ k, t (length rs + k)%nat).
Proof.
  induction rs as [|r rs IH]; intros t; [done|].
  simpl length. rewrite draws_S. simpl.
  unfold_M. unfold random. rewrite IH. done.
Qed.

Lemma names_with_values (rs : list Secret) (vals : list Z) :
  length vals = length rs → name <$> with_values rs vals = name <$> rs.
Proof.
  revert vals. induction rs as [|r rs IH]; intros [|v vals] Hlen; try done.
  simpl in *. f_equal. apply IH. lia.
Qed.

Lemma values_with_values (rs : list Secret) (vals : list Z) :
  length vals = length rs → value <$> with_values rs vals = Some <$> vals.
Proof.
  revert vals. induction rs as [|r rs IH]; intros [|v vals] Hlen; try done.
  simpl in *. f_equal. apply IH. lia.
Qed.

Section PrecommitRun.
Context `{PetLibLaws}.

Lemma weighted_points_pedersen G (g h : EcPt) (bvs : list (Z * Z)) :
  group g = G → group h = G →
  weighted_points G ((λ '(b, v), pedersen g h b v) <$> bvs)
  = pedersen g h (weighted bvs.*1) (weighted bvs.*2).
Proof.
  intros Hg Hh. induction bvs as [|[b v] bvs IH].
  - symmetry. by apply pedersen_0.
  - rewrite !fmap_cons.
    change (pt_add (pedersen g h b v)
              (pt_mul 2 (weighted_points G ((λ '(b, v), pedersen g h b v) <$> bvs)))
            = pedersen g h (b + 2 * weighted bvs.*1) (v + 2 * weighted bvs.*2)).
    rewrite IH. by rewrite (pedersen_mul G), (pedersen_add G).
Qed.

(** One run of [internal_precommit] on a prover whose value fits. *)
Lemma internal_precommit_run G (self : PowerTwoRangeProver.t) (sv sr : Secret)
    (v r : Z) (bits : list Z) (t : Tape) :
  let pf := PowerTwoRangeProver.proof self in
  let vals := draws (order G) (length (randomizers pf)) t in
  group (g pf) = G → group (h pf) = G →
  secret_vars pf = Some [sv; sr] → value sv = Some v → value sr = Some r →
  decompose_into_n_bits v (nr_bits pf) = Ok bits →
  ∃ rho,
    0 ≤ rho < order G
    ∧ (r + rho) mod order G = weighted vals mod order G
    ∧ PowerTwoRangeProver.internal_precommit self t =
        Ok (((λ '(b, v), PPoint (pedersen (g pf) (h pf) b v)) <$> zip bits vals)
              ++ [PScalar rho],
            PowerTwoRangeProver.mk
              (mkPowerTwoRangeProof (secret_vars pf) (is_prover pf)
                 (range_generators pf) (com pf) (g pf) (h pf) (nr_bits pf)
                 (with_values (randomizers pf) vals) (precommitment pf)),
            λ k, t (length (randomizers pf) + k)%nat)%list.
Proof.
  intros pf vals Hg Hh Hvars Hsv Hsr Hdec.
  pose proof (order_pos G) as Hq.
  assert (length vals = length (randomizers pf)) as Hlenv
    by apply length_draws.
  destruct (revealed_loop_ok (order G) (randomizers pf) vals 0 1 Hlenv Hq)
    as (rand & Hrand & Hmod).
  exists (mod_sub rand r (order G)).
  split; [unfold mod_sub; apply Z.mod_pos_bound; lia|]. split.
  { unfold mod_sub. rewrite Zplus_mod_idemp_r.
    replace (r + (rand - r)) with rand by lia. rewrite Hmod. f_equal. lia. }
  pose proof (precommitment_points G (g pf) (h pf) Hg Hh bits vals _ Hlenv)
    as Hpts.
  pose proof (draw_randomizers_tape (order G) (randomizers pf) t) as Hdraw.
  fold vals in Hdraw.
  unfold PowerTwoRangeProver.internal_precommit. fold pf. unfold_M.
  rewrite Hvars. simpl. unfold py_index. simpl. rewrite Hsv, Hdec.
  rewrite Hg, Hdraw, Hpts, Hrand.
  unfold PowerTwoRangeProver.value_of. rewrite Hsr.
  reflexivity.
Qed.
End PrecommitRun.

(** X17 — what [internal_precommit] draws and leaves behind, on a statement
    as [PowerTwoRangeProof.__init__] builds it. When the value or the
    randomizer handed to the constructor has no value, the statement is no
    prover's and [internal_precommit] raises [AttributeError]. When both
    have one, [g] and [h] lie in one group of order [q] and the value fits
    in [nr_bits] bits, [internal_precommit] returns: it consumes exactly
    [nr_bits] draws; the randomizer [i] of the statement keeps its name
    and now holds the draw [i] reduced modulo [q]; nothing else of the
    statement changes; and the list has one point per bit, each
    [b_i * g + r_i * h] for the stored [r_i], followed by one number in
    [0, q). *)
Theorem internal_precommit_after_init `{PetLibLaws} (G : EcGroup)
    (fresh_name : nat → string) (com0 g0 h0 : EcPt) (n : Z)
    (sv sr : Secret) (t : Tape) :
  let stmt := PowerTwoRangeProof.init fresh_name com0 g0 h0 n sv sr in
  let self := PowerTwoRangeProver.mk stmt in
  (value sv = None ∨ value sr = None →
   is_prover stmt = false
   ∧ PowerTwoRangeProver.internal_precommit self t
     = Raise (AttributeError "secret_vars"))
  ∧ (∀ v r, value sv = Some v → value sr = Some r →
       group g0 = G → group h0 = G → num_bits v ≤ n →
       ∃ bits rho self',
         let stmt' := PowerTwoRangeProver.proof self' in
         let vals := draws (order G) (Z.to_nat n) t in
         decompose_into_n_bits v n = Ok bits
         ∧ 0 ≤ rho < order G
         ∧ PowerTwoRangeProver.internal_precommit self t =
             Ok (zip_with (λ b r_i, PPoint (pt_add (pt_mul b g0) (pt_mul r_i h0)))
                   bits vals ++ [PScalar rho],
                 self', λ k, t (Z.to_nat n + k)%nat)%list
         ∧ length bits = Z.to_nat n ∧ length vals = Z.to_nat n
         ∧ Forall (λ x, 0 ≤ x < order G) vals
         ∧ name <$> randomizers stmt' = name <$> randomizers stmt
         ∧ value <$> randomizers stmt' = Some <$> vals
         ∧ stmt' = mkPowerTwoRangeProof (secret_vars stmt) (is_prover stmt)
                     (range_generators stmt) (com stmt) (g stmt) (h stmt)
                     (nr_bits stmt) (randomizers stmt') (precommitment stmt)).
Proof.
  intros stmt self. split.
  - intros Hnone.
    assert (is_prover stmt = false ∧ secret_vars stmt = None) as [Hp Hvars].
    { unfold stmt, PowerTwoRangeProof.init.
      destruct sv as [? [?|]], sr as [? [?|]]; simpl in *; try done;
        destruct Hnone; done. }
    split; [done|].
    unfold PowerTwoRangeProver.internal_precommit. unfold_M.
    change (PowerTwoRangeProver.proof self) with stmt. by rewrite Hvars.
  - intros v r Hsv Hsr Hg Hh Hn.
    assert (secret_vars stmt = Some [sv; sr]) as Hvars.
    { unfold stmt, PowerTwoRangeProof.init.
      destruct sv as [? [?|]], sr as [? [?|]]; simpl in *; done. }
    assert (length (randomizers stmt) = Z.to_nat n) as Hlen.
    { unfold stmt, PowerTwoRangeProof.init. simpl.
      by rewrite length_fmap, length_seq. }
    destruct (decompose_Ok v n Hn) as (bits & Hdec & Hlenb & _).
    destruct (internal_precommit_run G self sv sr v r bits t Hg Hh Hvars Hsv Hsr Hdec)
      as (rho & Hrho & _ & Hrun).
    change (PowerTwoRangeProver.proof self) with stmt in Hrun.
    rewrite Hlen in Hrun.
    exists bits, rho. eexists. simpl.
    split; [done|]. split; [done|]. split.
    { rewrite Hrun. f_equal. f_equal. f_equal. f_equal.
      symmetry. etrans; [apply zip_with_zip|].
      apply list_fmap_ext. by intros ? [? ?]. }
    split; [done|]. split; [apply length_draws|].
    split; [apply draws_range, order_pos|].
    split; [apply names_with_values; by rewrite length_draws|].
    split; [apply values_with_values; by rewrite length_draws|].
    done.
Qed.

Lemma internal_precommit_after_init_witness :
  ∃ bits rho self',
    decompose_into_n_bits 10 5 = Ok bits
    ∧ 0 ≤ rho < 11
    ∧ PowerTwoRangeProver.internal_precommit
        (PowerTwoRangeProver.mk Example6.stmt) Zq.tape0 =
        Ok (zip_with (λ b r_i, PPoint (pt_add (pt_mul b Example6.g)
                                         (pt_mul r_i Example6.h)))
              bits (draws 11 5 Zq.tape0) ++ [PScalar rho],
            self', λ k, Zq.tape0 (5 + k)%nat)%list
    ∧ length bits = 5%nat ∧ length (draws 11 5 Zq.tape0) = 5%nat
    ∧ Forall (λ x, 0 ≤ x < 11) (draws 11 5 Zq.tape0)
    ∧ name <$> randomizers (PowerTwoRangeProver.proof self')
      = name <$> randomizers Example6.stmt
    ∧ value <$> randomizers (PowerTwoRangeProver.proof self')
      = Some <$> draws 11 5 Zq.tape0
    ∧ PowerTwoRangeProver.proof self'
      = mkPowerTwoRangeProof (secret_vars Example6.stmt)
          (is_prover Example6.stmt) (range_generators Example6.stmt)
          (com Example6.stmt) (g Example6.stmt) (h Example6.stmt)
          (nr_bits Example6.stmt)
          (randomizers (PowerTwoRangeProver.proof self'))
          (precommitment Example6.stmt).
Proof.
  refine (proj2 (internal_precommit_after_init Zq.G11 Example6.fresh
                   Example6.com Example6.g Example6.h 5
                   (mkSecret "v" (Some 10)) (mkSecret "r" (Some 6)) Zq.tape0)
            10 6 _ _ _ _ _).
  - reflexivity.
  - reflexivity.
  - reflexivity.
  - reflexivity.
  - discriminate.
Defined.

(** A commitment to a negative value. *)
Module Example7.
Import Zq.
Definition com : EcPt := pt_add (pt_mul (-3) Example6.g) (pt_mul 6 Example6.h).
Definition stmt : PowerTwoRangeProof :=
  PowerTwoRangeProof.init Example6.fresh com Example6.g Example6.h 5
    (mkSecret "v" (Some (-3))) (mkSecret "r" (Some 6)).
Definition verifier_stmt : PowerTwoRangeProof :=
  PowerTwoRangeProof.init Example6.fresh com Example6.g Example6.h 5
    (mkSecret "v" None) (mkSecret "r" None).
End Example7.

(** X18 — a negative value is committed to as its magnitude and then
    rejected. Take a prover's range statement with [com = v * g + r * h],
    [g] and [h] in one group, [v < 0] of at most [nr_bits] bits, and
    [2 * v * g] not the neutral element. [internal_precommit] raises
    nothing and returns a precommitment, and [check_adequate_lhs] on a
    statement with the same [com], [g], [h] and [nr_bits] that holds this
    precommitment returns [False]. *)
Theorem negative_value_rejected `{PetLibLaws} (G : EcGroup)
    (self : PowerTwoRangeProver.t) (verifier_proof : PowerTwoRangeProof)
    (sv sr : Secret) (v r : Z) (t : Tape) :
  let pf := PowerTwoRangeProver.proof self in
  group (g pf) = G → group (h pf) = G →
  secret_vars pf = Some [sv; sr] → value sv = Some v → value sr = Some r →
  com pf = pt_add (pt_mul v (g pf)) (pt_mul r (h pf)) →
  length (randomizers pf) = Z.to_nat (nr_bits pf) →
  v < 0 → num_bits v ≤ nr_bits pf →
  pt_mul (2 * v) (g pf) ≠ infinite G →
  com verifier_proof = com pf → g verifier_proof = g pf →
  h verifier_proof = h pf → nr_bits verifier_proof = nr_bits pf →
  ∃ pre self' t',
    PowerTwoRangeProver.internal_precommit self t = Ok (pre, self', t')
    ∧ length pre = S (Z.to_nat (nr_bits pf))
    ∧ PowerTwoRangeProof.check_adequate_lhs
        (PowerTwoRangeProof.store_precommitment verifier_proof pre) = Ok false.
Proof.
  intros pf Hg Hh Hvars Hsv Hsr Hcom Hlenr Hv Hn Hdouble Hvcom Hvg Hvh Hvn.
  pose proof (num_bits_nonneg v) as Hnb.
  destruct (decompose_Ok v (nr_bits pf) Hn) as (bits & Hdec & Hlenb & _).
  destruct (internal_precommit_run G self sv sr v r bits t Hg Hh Hvars Hsv Hsr Hdec)
    as (rho & Hrho & Hmod & Hrun).
  fold pf in Hrun, Hmod.
  set (vals := draws (order G) (length (randomizers pf)) t) in *.
  assert (length vals = Z.to_nat (nr_bits pf)) as Hlenv
    by (unfold vals; by rewrite length_draws).
  eexists _, _, _. split; [exact Hrun|]. split.
  { rewrite length_app, length_fmap, length_zip_with. simpl. lia. }
  assert ((λ '(b, v0), PPoint (pedersen (g pf) (h pf) b v0)) <$> zip bits vals
          = PPoint <$> ((λ '(b, v0), pedersen (g pf) (h pf) b v0) <$> zip bits vals))
    as ->.
  { rewrite <- list_fmap_compose. apply list_fmap_ext. by intros ? [? ?]. }
  rewrite (check_adequate_lhs_points G).
  - f_equal. apply bool_decide_eq_false_2. intros Heq.
    rewrite (weighted_points_pedersen G) in Heq by congruence.
    rewrite fst_zip, snd_zip in Heq by lia.
    rewrite Hvcom, Hvh, Hcom in Heq.
    fold (pedersen (g pf) (h pf) v r) in Heq.
    rewrite (pedersen_scalar_only G (g pf) (h pf) rho) in Heq by done.
    rewrite (pedersen_add G) in Heq by done.
    rewrite (pedersen_mod G (g pf) (h pf) Hh (v + 0) (r + rho) (weighted vals))
      in Heq by done.
    assert (weighted bits = - v) as Hbits.
    { apply (decompose_value (- v) (nr_bits pf)); [lia|].
      by rewrite decompose_opp. }
    rewrite Hbits in Heq. unfold pedersen in Heq.
    apply (add_cancel_r G) in Heq; rewrite ?group_mul; try done.
    apply Hdouble.
    replace (2 * v) with (v + v) by lia. rewrite mul_add_l.
    replace (v + 0) with v in Heq by lia. rewrite <- Heq at 1.
    rewrite <- mul_add_l. replace (- v + v) with 0 by lia.
    by rewrite mul_0, Hg.
  - by rewrite Hvg.
  - by rewrite Hvh.
  - rewrite Hvcom, Hcom. rewrite group_add; rewrite !group_mul; congruence.
  - apply Forall_fmap, Forall_forall. intros [b v0] _. simpl.
    by apply group_pedersen.
  - rewrite length_fmap, length_zip_with, Hvn. lia.
  - rewrite Hvn. lia.
Qed.

Lemma negative_value_rejected_witness :
  ∃ pre self' t',
    PowerTwoRangeProver.internal_precommit
      (PowerTwoRangeProver.mk Example7.stmt) Zq.tape0 = Ok (pre, self', t')
    ∧ length pre = 6%nat
    ∧ PowerTwoRangeProof.check_adequate_lhs
        (PowerTwoRangeProof.store_precommitment Example7.verifier_stmt pre)
      = Ok false.
Proof.
  apply (negative_value_rejected Zq.G11
           (PowerTwoRangeProver.mk Example7.stmt) Example7.verifier_stmt
           (mkSecret "v" (Some (-3))) (mkSecret "r" (Some 6)) (-3) 6 Zq.tape0);
    try reflexivity.
  - discriminate.
  - intros Heq. apply (f_equal Zq.zval) in Heq. discriminate Heq.
Defined.

(** ** Lists of different lengths in [check_groups] *)

Section CheckGroupsLengths.
Context `{PetLib}.

Lemma check_indices_agree gens gens' word ref_group gen_idx :
  (∀ i, i ∈ gen_idx → gens' !! i = gens !! i) →
  check_indices gens' word ref_group gen_idx
  = check_indices gens word ref_group gen_idx.
Proof.
  induction gen_idx as [|index rest IH]; intros Hagree; [done|].
  simpl. unfold py_index. rewrite (Hagree index) by (by left).
  destruct (gens !! index) as [g0|]; [|done]. simpl.
  case_decide; [done|]. apply IH. intros i Hi. apply Hagree. by right.
Qed.

Lemma check_items_cons_None gens word first gen_idx rest :
  gens !! first = None →
  check_items gens ((word, first :: gen_idx) :: rest) = Raise IndexError.
Proof. intros Hnone. simpl. unfold py_index. simpl. by rewrite Hnone. Qed.

Lemma check_items_agree gens gens' items :
  (∀ w l i, (w, l) ∈ items → i ∈ l → gens' !! i = gens !! i) →
  check_items gens' items = check_items gens items.
Proof.
  induction items as [|[word gen_idx] rest IH]; intros Hagree; [done|].
  destruct gen_idx as [|first gen_idx']; [done|].
  assert (gens' !! first = gens !! first) as Hf
    by (apply (Hagree word (first :: gen_idx')); by left).
  destruct (gens !! first) as [ref|] eqn:Href.
  - rewrite (check_items_cons gens _ _ _ _ _ Href),
      (check_items_cons gens' _ _ _ _ _ Hf).
    rewrite (check_indices_agree gens gens')
      by (intros i Hi; apply (Hagree word (first :: gen_idx'));
          [by left|by right]).
    destruct (check_indices gens word (group ref) gen_idx'); [|done].
    apply IH. intros w l i Hin. apply (Hagree w l i). by right.
  - by rewrite !check_items_cons_None.
Qed.

Lemma check_indices_missing gens word ref_group gen_idx i :
  i ∈ gen_idx → gens !! i = None →
  ∃ e, check_indices gens word ref_group gen_idx = Raise e
       ∧ (e = IndexError ∨ e = shared_secret_error word).
Proof.
  induction gen_idx as [|index rest IH]; intros Hi Hnone.
  - by apply elem_of_nil in Hi.
  - simpl. unfold py_index.
    destruct (gens !! index) as [g0|] eqn:Hg0; simpl; [|eauto].
    case_decide; [eauto|].
    apply elem_of_cons in Hi as [->|Hi]; [congruence|]. by apply IH.
Qed.

Lemma check_indices_raises gens word ref_group gen_idx e :
  check_indices gens word ref_group gen_idx = Raise e →
  e = IndexError ∨ e = shared_secret_error word.
Proof.
  induction gen_idx as [|index rest IH]; simpl; [done|].
  unfold py_index. destruct (gens !! index); simpl; [|intros [= <-]; eauto].
  case_decide; [intros [= <-]; eauto|done].
Qed.

Lemma check_items_missing gens items w l i :
  (w, l) ∈ items → i ∈ l → gens !! i = None →
  ∃ e, check_items gens items = Raise e
       ∧ (e = IndexError ∨ ∃ w', e = shared_secret_error w').
Proof.
  induction items as [|[word gen_idx] rest IH]; intros Hin Hi Hnone.
  - by apply elem_of_nil in Hin.
  - destruct gen_idx as [|first gen_idx']; [by eauto|].
    destruct (gens !! first) as [ref|] eqn:Href;
      [|rewrite check_items_cons_None by done; eauto].
    rewrite (check_items_cons gens _ _ _ _ _ Href).
    destruct (check_indices gens word (group ref) gen_idx') as [[]|e] eqn:Hchk.
    + apply elem_of_cons in Hin as [[= -> ->]|Hin]; [|by apply IH].
      apply elem_of_cons in Hi as [->|Hi]; [congruence|].
      destruct (check_indices_missing gens word (group ref) gen_idx' i Hi Hnone)
        as (e & He & _). congruence.
    + exists e. split; [done|].
      destruct (check_indices_raises gens word (group ref) gen_idx' e Hchk)
        as [->| ->]; eauto.
Qed.
End CheckGroupsLengths.

(** X19 — [check_groups] on lists of different lengths. Generators beyond
    the last secret name are never looked at: appending generators changes
    neither the result nor the exception. With more secret names than
    generators the function never returns: it raises [IndexError] or the
    exception for a shared secret. *)
Theorem check_groups_lengths `{PetLib} (names : list string)
    (gens surplus : list EcPt) :
  ((length names ≤ length gens)%nat →
   check_groups names (gens ++ surplus) = check_groups names gens)
  ∧ ((length gens < length names)%nat →
     ∃ e, check_groups names gens = Raise e
          ∧ (e = IndexError ∨ ∃ w, e = shared_secret_error w)).
Proof.
  split.
  - intros Hlen. unfold check_groups.
    rewrite (check_items_agree gens (gens ++ surplus)%list); [done|].
    intros w l i [_ ->]%build_mydict_spec [Hi _]%elem_of_indices_upto.
    apply lookup_app_l. lia.
  - intros Hlen. unfold check_groups.
    destruct (lookup_lt_is_Some_2 names (length gens) Hlen) as [w Hw].
    pose (l := indices_upto names (length names) w).
    assert (length gens ∈ l) as Hin by (by apply elem_of_indices_upto).
    assert ((w, l) ∈ build_mydict 0 names []) as Hentry.
    { apply build_mydict_spec. split; [|done]. intros Hnil.
      rewrite Hnil in Hin. by apply elem_of_nil in Hin. }
    destruct (check_items_missing gens _ w l (length gens) Hentry Hin)
      as (e & -> & He); [by apply lookup_ge_None_2|].
    by exists e.
Qed.

Lemma check_groups_lengths_witness :
  ∃ e, check_groups ["x"; "y"; "x"] [Zq.pt11 1; Zq.pt11 4] = Raise e
       ∧ (e = IndexError ∨ ∃ w, e = shared_secret_error w).
Proof.
  refine (proj2 (check_groups_lengths ["x"; "y"; "x"] [Zq.pt11 1; Zq.pt11 4] [])
            _).
  simpl. lia.
Defined.

(** ** Honest transcripts are simulated transcripts *)

Lemma lookup_list_to_map_zip (names : list string) : ∀ (vs : list Z) i n v,
  (∀ i j n, names !! i = Some n → names !! j = Some n → vs !! i = vs !! j) →
  names !! i = Some n → vs !! i = Some v →
  (list_to_map (zip names vs) : gmap string Z) !! n = Some v.
Proof.
  induction names as [|n0 names IH]; intros vs i n v Hcons Hn Hv; [done|].
  destruct vs as [|v0 vs]; [by destruct i|].
  change (list_to_map (zip (n0 :: names) (v0 :: vs)) : gmap string Z)
    with (<[n0 := v0]> (list_to_map (zip names vs) : gmap string Z)).
  destruct (decide (n = n0)) as [->|Hne].
  - rewrite lookup_insert_eq.
    specialize (Hcons i 0%nat n0 Hn eq_refl). simpl in Hcons. congruence.
  - rewrite lookup_insert_ne by done.
    destruct i as [|i]; [simpl in Hn; congruence|].
    apply (IH vs i); [|done|done].
    intros i' j' n' Hi' Hj'. by apply (Hcons (S i') (S j') n').
Qed.

Lemma mapM_dict_get_zip `{PetLib} (names : list string) (vs : list Z) :
  length names = length vs →
  (∀ i j n, names !! i = Some n → names !! j = Some n → vs !! i = vs !! j) →
  mapM (dict_get (list_to_map (zip names vs))) names = Ok vs.
Proof.
  intros Hlen Hcons. apply mapM_Ok_Forall2.
  apply Forall2_same_length_lookup_2; [done|].
  intros i n v Hn Hv. unfold dict_get.
  by rewrite (lookup_list_to_map_zip names vs i n v Hcons Hn Hv).
Qed.

(** X20 — every honest transcript is a simulated one. Take a statement
    whose generators lie in one group, with secret values [xs] (read by
    name) that satisfy [lhs = sum_i x_i * G_i]. Whatever commitment and
    responses the prover built by [DLRepProver] produces for a challenge
    [c], the simulator of the statement, which holds no secret, returns
    the same transcript when it is handed [c] and the responses under
    their secret names. *)
Theorem honest_transcript_simulable `{PetLibLaws} (G : EcGroup)
    (stmt : DLRepProof) (values : gmap string Z) (xs : list Z) (c : Z)
    (t ts : Tape) :
  well_formed G stmt →
  mapM (dict_get values) (secret_names stmt) = Ok xs →
  lhs stmt = relation_point G xs (generators stmt) →
  ∃ commitment prover' t' responses,
    DLRepProver.commit
      (DLRepProver_init (generators stmt) (secret_names stmt) values (lhs stmt))
      None t = Ok (commitment, prover', t')
    ∧ DLRepProver.compute_response prover' c = Ok responses
    ∧ DLRepProver.simulate_proof (DLRepProof.get_simulator stmt)
        (Some (list_to_map (zip (secret_names stmt) responses))) (Some c) ts
      = Ok (commitment, c, responses, ts).
Proof.
  intros Hwf Hxs Hrel.
  set (prover := DLRepProver_init (generators stmt) (secret_names stmt) values
                   (lhs stmt)).
  assert (well_formed G prover) as Hwfp by exact Hwf.
  pose proof (secret_values_nonempty G prover xs Hwfp Hxs) as Hvals.
  destruct Hwf as (Hne & HG & Hlen).
  assert (length (secret_names prover) ≤ length (generators prover))%nat
    as Hle by (change (length (secret_names stmt) ≤ length (generators stmt))%nat;
               by rewrite Hlen).
  destruct (commit_None_ok G prover t Hvals Hne HG Hle)
    as (d & t' & ks1 & _ & Hks & Hcommit).
  assert (length ks1 = length (secret_names stmt)) as Hlenk
    by (by eapply mapM_Ok_length).
  assert (length xs = length (secret_names stmt)) as Hlenx
    by (by eapply mapM_Ok_length).
  exists (gsum G (zip_with pt_mul ks1 (generators stmt))),
    (committed prover (order G) ks1), t', (responses_of (order G) c xs ks1).
  split; [exact Hcommit|].
  split; [by apply compute_response_ok|].
  assert (mapM (dict_get (list_to_map
                  (zip (secret_names stmt) (responses_of (order G) c xs ks1))))
            (secret_names stmt)
          = Ok (responses_of (order G) c xs ks1)) as Hresp.
  { apply mapM_dict_get_zip.
    - unfold responses_of. rewrite length_zip_with. lia.
    - intros i j n Hi Hj.
      destruct (responses_of_lookup (order G) c xs ks1 _ values d i n Hxs Hks Hi)
        as (x & k & Hx & Hk & ->).
      destruct (responses_of_lookup (order G) c xs ks1 _ values d j n Hxs Hks Hj)
        as (x' & k' & Hx' & Hk' & ->).
      congruence. }
  pose proof (recompute_honest G (DLRepProof.get_simulator stmt) xs ks1 c
                Hwfp Hrel ltac:(lia)) as Hrec.
  unfold DLRepProver.simulate_proof. unfold_M.
  change (secret_names (DLRepProof.get_simulator stmt)) with (secret_names stmt).
  rewrite Hresp. simpl in Hrec |- *. by rewrite Hrec.
Qed.

Lemma honest_transcript_simulable_witness :
  ∃ commitment prover' t' responses,
    DLRepProver.commit
      (DLRepProver_init Example1.gens Example1.names Example1.values Example1.y)
      None Zq.tape0 = Ok (commitment, prover', t')
    ∧ DLRepProver.compute_response prover' 9 = Ok responses
    ∧ DLRepProver.simulate_proof
        (DLRepProof.get_simulator
           (mkDLRepProof Example1.gens Example1.names Example1.y false))
        (Some (list_to_map (zip Example1.names responses))) (Some 9) Zq.tape0
      = Ok (commitment, 9, responses, Zq.tape0).
Proof.
  apply (honest_transcript_simulable Zq.G11
           (mkDLRepProof Example1.gens Example1.names Example1.y false)
           Example1.values [3; 5] 9 Zq.tape0 Zq.tape0).
  - split; [discriminate|]. split; [|reflexivity]. repeat constructor.
  - reflexivity.
  - reflexivity.
Defined.
